(** * SRP-DS direction-of-arrival estimation on a uniform linear array

    A shallow embedding of [conventional algorithms/srp.py] (class [SRP]).

    Numbers.  The configuration values ([d_inter], [c], [fs], [f_low],
    [f_high], [resolution]) are rationals ([Q]): the numbers the caller
    wrote.  Python holds each of them as the nearest binary64 number, and
    the places where the program compares, truncates or returns a rounded
    number are computed as the program does: line 41 and line 75 in
    binary64, the band mask of line 64 and the angle of line 95 in float32
    (round to nearest, ties to even, with overflow to an infinity).  A
    Python integer argument behaves like the float of the same value as
    long as it is below 2^53, which is assumed.  [n_fft], [hop_length] and
    [window_length] are Python integers ([Z]).

    The values of the tensors that go through [sin], [exp], [abs] and the
    two means are given by the formulas of the source over the reals ([R]):
    the program computes them in float32 and agrees with them up to
    rounding.  One floating-point phenomenon is kept there: an undefined
    value ([NaN]), produced by a mean over zero elements and by a division
    by a zero propagation speed, and propagated by every later operation.

    The arg-max of line 93 is taken on the curve of these formulas; where
    rounding makes two entries of the float32 curve equal, the program's
    first maximum can come earlier ([aggregation_rounded_tie]).  What is
    proved about the returned index is therefore stated for the curve that
    is returned with it, and for every reduction put in the place of the
    mean.

    Tensors carry their shape explicitly, so that dimensions of size zero
    keep the other dimensions, as they do in torch.  They carry neither a
    device nor a dtype: a call in which torch refuses to combine tensors of
    two devices or dtypes (line 88) is a call that raises, and the
    properties of a returning call are stated for a call that returns. *)

From Stdlib Require Import String Reals Lra Lia ZArith QArith Qreals Qround Qabs Qpower Bool List Sorted.
From Stdlib Require Lqa.
Import ListNotations.

(** ** Exceptions and runs *)

(** The exceptions the program can raise: the [ValueError] of
    [spatial_nyquist_check] (and of [int] on an undefined value), Python's
    [ZeroDivisionError] on a division of Python numbers by zero, its
    [OverflowError] on [int] of an infinity, and any error raised inside a
    torch call ([RuntimeError], [IndexError]). *)
Inductive exn : Type :=
| ValueError (msg : string)
| ZeroDivisionError
| OverflowError
| TorchError.

Definition result (A : Type) : Type := (exn + A)%type.

Definition bind {A B : Type} (m : result A) (k : A -> result B) : result B :=
  match m with
  | inl e => inl e
  | inr a => k a
  end.

Notation "x <- m ;; k" := (bind m (fun x => k))
  (at level 61, m at next level, right associativity).

(** The three methods [forward] calls, in the order of the source. *)
Inductive stage : Type := NyquistCheck | Transform | Sweep.

(** A run of [forward]: the stages it entered, oldest first, and how it
    ended. *)
Record run (A : Type) : Type := mkRun {
  entered : list stage;
  outcome : result A
}.

Arguments mkRun {A} _ _.
Arguments entered {A} _.
Arguments outcome {A} _.

(** [call s m k]: enter stage [s]; if [m] raises, the run ends there,
    otherwise it goes on with [k]. *)
Definition call {A B : Type} (s : stage) (m : result A) (k : A -> run B) : run B :=
  match m with
  | inl e => mkRun [s] (inl e)
  | inr a => let r := k a in mkRun (s :: entered r) (outcome r)
  end.

Definition finish {A : Type} (a : A) : run A := mkRun [] (inr a).

(** ** Floating-point numbers *)

(** A floating-point value: a number, an infinity, or the undefined value.
    The sign of a zero is not kept: nothing in the program depends on it. *)
Inductive flt : Type :=
| Fnan
| Finf (negative : bool)
| Fnum (q : Q).

Definition pow2 (e : Z) : Q := Qpower 2 e.

(** The integer part of the binary logarithm of a positive rational. *)
Definition ilog2 (q : Q) : Z :=
  let k := (Z.log2 (Qnum q) - Z.log2 (Zpos (Qden q)))%Z in
  if Qle_bool (pow2 k) q then k else (k - 1)%Z.

(** The nearest integer, a tie going to the even one. *)
Definition round_half_even (q : Q) : Z :=
  let f := Qfloor q in
  match Qcompare (q - inject_Z f) (1 # 2) with
  | Lt => f
  | Gt => (f + 1)%Z
  | Eq => if Z.even f then f else (f + 1)%Z
  end.

(** The exponent of the last place kept for a non-zero number: [prec]
    significant bits, and not below [emin], the exponent of the spacing of
    the subnormal range. *)
Definition ulp_exp (prec emin : Z) (q : Q) : Z :=
  Z.max (ilog2 (Qabs q) - prec + 1) emin.

(** The nearest multiple of [2 ^ ulp_exp]. *)
Definition round_to (prec emin : Z) (q : Q) : Q :=
  if Qeq_bool q 0 then 0
  else
    let e := ulp_exp prec emin q in
    inject_Z (round_half_even (q / pow2 e)) * pow2 e.

(** Rounding into a format: a result of magnitude [2 ^ emax] or more is an
    infinity; a number is kept as a fraction in lowest terms. *)
Definition to_format (prec emin emax : Z) (q : Q) : flt :=
  let r := round_to prec emin q in
  if Qle_bool (pow2 emax) (Qabs r) then Finf (negb (Qle_bool 0 r)) else Fnum (Qred r).

(** Python's [float] and torch's [float32]. *)
Definition binary64 : Q -> flt := to_format 53 (-1074) 1024.
Definition binary32 : Q -> flt := to_format 24 (-149) 128.

(** The conversion of a Python scalar to the [float32] of a tensor. *)
Definition to_f32 (a : flt) : flt :=
  match a with
  | Fnum q => binary32 q
  | _ => a
  end.

Definition is_neg (q : Q) : bool := negb (Qle_bool 0 q).

(** [a < b] and [a <= b]: false as soon as one side is undefined. *)
Definition flt_ltb (a b : flt) : bool :=
  match a, b with
  | Fnum x, Fnum y => negb (Qle_bool y x)
  | Fnum _, Finf negative => negb negative
  | Finf negative, Fnum _ => negative
  | Finf true, Finf false => true
  | _, _ => false
  end.

Definition flt_leb (a b : flt) : bool :=
  match a, b with
  | Fnum x, Fnum y => Qle_bool x y
  | Fnum _, Finf negative => negb negative
  | Finf negative, Fnum _ => negative
  | Finf true, Finf _ => true
  | Finf false, Finf negative => negb negative
  | _, _ => false
  end.

Definition flt_opp (a : flt) : flt :=
  match a with
  | Fnum x => Fnum (- x)
  | Finf negative => Finf (negb negative)
  | Fnan => Fnan
  end.

(** Product and sum, rounded by [rnd]. *)
Definition flt_mul (rnd : Q -> flt) (a b : flt) : flt :=
  match a, b with
  | Fnum x, Fnum y => rnd (x * y)
  | Finf s, Fnum y | Fnum y, Finf s =>
      if Qeq_bool y 0 then Fnan else Finf (xorb s (is_neg y))
  | Finf s, Finf t => Finf (xorb s t)
  | _, _ => Fnan
  end.

Definition flt_add (rnd : Q -> flt) (a b : flt) : flt :=
  match a, b with
  | Fnum x, Fnum y => rnd (x + y)
  | Finf s, Fnum _ | Fnum _, Finf s => Finf s
  | Finf s, Finf t => if Bool.eqb s t then Finf s else Fnan
  | _, _ => Fnan
  end.

Definition flt_sub (rnd : Q -> flt) (a b : flt) : flt := flt_add rnd a (flt_opp b).

(** ** Scalars *)

(** A real tensor entry: a real number, or the undefined value. *)
Inductive fval : Type :=
| NaN
| Fin (r : R).

Definition fadd (a b : fval) : fval :=
  match a, b with
  | Fin x, Fin y => Fin (x + y)
  | _, _ => NaN
  end.

Definition fmul (a b : fval) : fval :=
  match a, b with
  | Fin x, Fin y => Fin (x * y)
  | _, _ => NaN
  end.

(** [x / n] for a count [n > 0]. *)
Definition fdiv_count (a : fval) (n : nat) : fval :=
  match a with
  | Fin x => Fin (x / INR n)
  | NaN => NaN
  end.

(** [v ** 2] *)
Definition fsquare (v : fval) : fval := fmul v v.

Definition fsum (l : list fval) : fval := fold_left fadd l (Fin 0).

(** [torch.mean] along one dimension: sum over count; over zero elements
    it is 0/0. *)
Definition torch_mean (l : list fval) : fval :=
  match l with
  | [] => NaN
  | _ :: _ => fdiv_count (fsum l) (length l)
  end.

(** Complex numbers as pairs (real part, imaginary part). *)
Definition cplx : Type := (R * R)%type.

Definition Cadd (a b : cplx) : cplx := (fst a + fst b, snd a + snd b)%R.
Definition Cmul (a b : cplx) : cplx :=
  (fst a * fst b - snd a * snd b, fst a * snd b + snd a * fst b)%R.
Definition Cabs (z : cplx) : R := sqrt (fst z * fst z + snd z * snd z).
Definition Cexp (z : cplx) : cplx :=
  (exp (fst z) * cos (snd z), exp (fst z) * sin (snd z))%R.

(** A complex tensor entry. *)
Inductive cval : Type :=
| CNaN
| CFin (z : cplx).

Definition cadd (a b : cval) : cval :=
  match a, b with
  | CFin x, CFin y => CFin (Cadd x y)
  | _, _ => CNaN
  end.

Definition cmul (a b : cval) : cval :=
  match a, b with
  | CFin x, CFin y => CFin (Cmul x y)
  | _, _ => CNaN
  end.

(** [torch.abs] of a complex entry. *)
Definition cabs (a : cval) : fval :=
  match a with
  | CFin z => Fin (Cabs z)
  | CNaN => NaN
  end.

(** ** Tensors *)

(** The waveform [x]: shape (T, C), real samples. *)
Record tensor2 : Type := mkT2 {
  rows : nat;
  cols : nat;
  at2 : nat -> nat -> R
}.

(** A complex tensor with three dimensions and its entries. *)
Record tensor3 : Type := mkT3 {
  dim0 : nat;
  dim1 : nat;
  dim2 : nat;
  at3 : nat -> nat -> nat -> cplx
}.

(** [torch.linspace(start, stop, steps)] *)
Definition torch_linspace (start stop : Q) (steps : Z) : result (list Q) :=
  if (steps <? 0)%Z then inl TorchError
  else if (steps =? 1)%Z then inr [start]
  else inr (map (fun i : nat =>
                   start + inject_Z (Z.of_nat i) * ((stop - start) / inject_Z (steps - 1)))
                (seq 0 (Z.to_nat steps))).

(** Positions of the [true] entries of a boolean mask, counted from [i]. *)
Fixpoint true_indices (mask : list bool) (i : nat) : list nat :=
  match mask with
  | [] => []
  | b :: mask' => if b then i :: true_indices mask' (S i) else true_indices mask' (S i)
  end.

(** [v[mask]] *)
Definition index_mask (v : list Q) (mask : list bool) : list Q :=
  map (fun i => nth i v 0) (true_indices mask 0).

(** [X[:, mask, :]]: the mask must be as long as dimension 1. *)
Definition index_mask_dim1 (X : tensor3) (mask : list bool) : result tensor3 :=
  if Nat.eqb (length mask) (dim1 X) then
    let idx := true_indices mask 0 in
    inr (mkT3 (dim0 X) (length idx) (dim2 X)
              (fun c k t => at3 X c (nth k idx 0%nat) t))
  else inl TorchError.

(** ** The class [SRP] *)

Record SRP : Type := mkSRP {
  d_inter : Q;
  c : Q;
  n_fft : Z;
  hop_length : Z;
  window : list R;
  fs : Q;
  resolution : Q;
  f_low : Q;
  f_high : Q
}.

(** The entries of [torch.hann_window(window_length).pow(0.5)] (periodic
    window). *)
Definition hann_sqrt (window_length : Z) : list R :=
  if (window_length =? 1)%Z then [sqrt 1]
  else map (fun n : nat =>
              sqrt (1 / 2 - 1 / 2 * cos (2 * PI * INR n / IZR window_length)))
           (seq 0 (Z.to_nat window_length)).

(** [torch.hann_window] refuses a negative length. *)
Definition hann_window_sqrt (window_length : Z) : result (list R) :=
  if (window_length <? 0)%Z then inl TorchError
  else inr (hann_sqrt window_length).

(** [SRP.__init__]: stores its arguments; nothing is validated. *)
Definition SRP_init (d_inter c : Q) (n_fft hop_length window_length : Z)
    (fs f_low f_high resolution : Q) : result SRP :=
  w <- hann_window_sqrt window_length ;;
  inr (mkSRP d_inter c n_fft hop_length w fs resolution f_low f_high).

(** Python's [a * b] and [a + b] on floats. *)
Definition py_mul : flt -> flt -> flt := flt_mul binary64.
Definition py_add : flt -> flt -> flt := flt_add binary64.

(** Python's [a / b] on floats: a zero divisor raises. *)
Definition py_div (a b : flt) : result flt :=
  match b with
  | Fnum y =>
      if Qeq_bool y 0 then inl ZeroDivisionError
      else inr (match a with
                | Fnum x => binary64 (x / y)
                | Finf s => Finf (xorb s (is_neg y))
                | Fnan => Fnan
                end)
  | Finf _ => inr (match a with Fnum _ => Fnum 0 | _ => Fnan end)
  | Fnan => inr Fnan
  end.

(** Python's [int] of a float: truncation toward zero. *)
Definition python_int (a : flt) : result Z :=
  match a with
  | Fnum q => inr (Z.quot (Qnum q) (Zpos (Qden q)))
  | Finf _ => inl OverflowError
  | Fnan => inl (ValueError "cannot convert float NaN to integer")
  end.

(** [self.c / (2 * self.f_high)] *)
Definition nyquist_bound (self : SRP) : result flt :=
  py_div (binary64 (c self)) (py_mul (Fnum 2) (binary64 (f_high self))).

(** [SRP.spatial_nyquist_check] *)
Definition spatial_nyquist_check (self : SRP) : result unit :=
  bound <- nyquist_bound self ;;
  if flt_ltb bound (binary64 (d_inter self))
  then inl (ValueError "Spatial Nyquist theorem not satisfied!")
  else inr tt.

(** The band predicate [(f >= f_low) & (f < f_high)] on an entry of the
    float32 tensor [f_analog]: the two Python numbers are converted to
    float32 and compared there. *)
Definition in_band (self : SRP) (f : Q) : bool :=
  flt_leb (to_f32 (binary64 (f_low self))) (Fnum f)
  && flt_ltb (Fnum f) (to_f32 (binary64 (f_high self))).

(** ** The steering-response sweep, [SRP.srp_ula] *)

(** [int(180 / self.resolution + 1)] *)
Definition angle_count (self : SRP) : result Z :=
  q <- py_div (Fnum 180) (binary64 (resolution self)) ;;
  python_int (py_add q (Fnum 1)).

(** [torch.deg2rad] *)
Definition deg2rad (x : R) : R := (x * (PI / 180))%R.

(** One entry of [phase]: [2 * pi * theta_sin[j] * d_inter * (f * m) / c].
    A division of a tensor by a zero [c] gives no finite value. *)
Definition phase (self : SRP) (theta_sin_j : R) (f m : Q) : fval :=
  if Qeq_bool (c self) 0 then NaN
  else Fin (2 * PI * theta_sin_j * Q2R (d_inter self) * Q2R (f * m) / Q2R (c self))%R.

(** One entry of [steer_vec = torch.exp(-1j * phase)]. *)
Definition steer_entry (self : SRP) (theta_sin_j : R) (f m : Q) : cval :=
  match phase self theta_sin_j f m with
  | Fin p => CFin (Cexp (Cmul (0, -1) (p, 0))%R)
  | NaN => CNaN
  end.

(** [steer_vec] before it is repeated along time: shape (F, C). *)
Definition steer_vec (self : SRP) (theta_sin_j : R) (f_analog ramp : list Q)
  : list (list cval) :=
  map (fun f => map (fun m => steer_entry self theta_sin_j f m) ramp) f_analog.

(** The (1, C) by (C, 1) matrix product of [torch.matmul]. *)
Definition dot (a b : list cval) : cval :=
  fold_left cadd (map (fun p => cmul (fst p) (snd p)) (combine a b)) (CFin (0, 0)%R).

(** Row [(k, t, :)] of [rearrange(sig_stft, 'c f t -> f t c')]; a frequency
    dimension of size one is broadcast by [matmul]. *)
Definition sig_row (sig_stft : tensor3) (k t : nat) : list cval :=
  let k' := if Nat.eqb (dim1 sig_stft) 1 then 0%nat else k in
  map (fun m => CFin (at3 sig_stft m k' t)) (seq 0 (dim0 sig_stft)).

(** [response_complex[k, t]] *)
Definition response_complex (sig_stft : tensor3) (steer_k : list cval) (k t : nat) : cval :=
  dot (sig_row sig_stft k t) steer_k.

(** [response_norm[k]]: mean over time of the magnitudes. *)
Definition response_norm (sig_stft : tensor3) (steer_k : list cval) (k : nat) : fval :=
  torch_mean (map (fun t => cabs (response_complex sig_stft steer_k k t))
                  (seq 0 (dim2 sig_stft))).

(** [response_norm ** 2], the column written at angle [j]. *)
Definition power_column (self : SRP) (sig_stft : tensor3) (f_analog : list Q)
    (ramp : list Q) (theta_sin_j : R) : list fval :=
  map (fun ks => fsquare (response_norm sig_stft (snd ks) (fst ks)))
      (combine (seq 0 (length f_analog)) (steer_vec self theta_sin_j f_analog ramp)).

(** [torch.zeros(F, A)] *)
Definition zeros (F A : nat) : list (list fval) := repeat (repeat (Fin 0) A) F.

Fixpoint set_nth {X : Type} (j : nat) (v : X) (l : list X) : list X :=
  match l, j with
  | [], _ => []
  | _ :: l', O => v :: l'
  | x :: l', S j' => x :: set_nth j' v l'
  end.

(** [power_map[:, j] = col] *)
Definition set_column (j : nat) (col : list fval) (power_map : list (list fval))
  : list (list fval) :=
  map (fun rv => set_nth j (snd rv) (fst rv)) (combine power_map col).

(** The loop [for j in range(len(theta))]. *)
Definition sweep (self : SRP) (sig_stft : tensor3) (f_analog : list Q)
    (theta_sin : list R) (ramp : list Q) : list (list fval) :=
  fold_left
    (fun power_map j =>
       set_column j (power_column self sig_stft f_analog ramp (nth j theta_sin 0%R))
                  power_map)
    (seq 0 (length theta_sin))
    (zeros (length f_analog) (length theta_sin)).

(** [torch.mean(power_map, dim=0)] for a map with [A] columns, [mean]
    reducing one column. *)
Definition mean_dim0 (mean : list fval -> fval) (A : nat) (power_map : list (list fval))
  : list fval :=
  map (fun j => mean (map (fun row => nth j row (Fin 0)) power_map)) (seq 0 A).

(** [a] wins over the current best [b] in [torch.argmax]: an undefined value
    beats every number, and equal values do not replace the earlier one. *)
Definition beats (a b : fval) : bool :=
  match a, b with
  | NaN, Fin _ => true
  | Fin x, Fin y => if Rlt_dec y x then true else false
  | _, NaN => false
  end.

Fixpoint argmax_from (l : list fval) (i best_i : nat) (best : fval) : nat :=
  match l with
  | [] => best_i
  | v :: l' =>
      if beats v best then argmax_from l' (S i) i v
      else argmax_from l' (S i) best_i best
  end.

(** [torch.argmax] of a one-dimensional tensor; it raises on an empty one. *)
Definition torch_argmax (l : list fval) : result nat :=
  match l with
  | [] => inl TorchError
  | v :: l' => inr (argmax_from l' 1 0 v)
  end.

(** [doa_order * self.resolution - 90]: the product of an integer tensor and
    a Python float is a float32 tensor, so the index and the resolution are
    converted to float32 and the product and the difference are rounded
    there. *)
Definition index_to_deg (doa_order : nat) (res : Q) : flt :=
  flt_sub binary32
    (flt_mul binary32 (binary32 (inject_Z (Z.of_nat doa_order))) (to_f32 (binary64 res)))
    (Fnum 90).

(** Lines 92 to 95: mean over frequency, arg-max, index to degrees.  The
    reduction [mean] that gives one entry of [torch.mean(power_map, dim=0)]
    from one column is a parameter. *)
Definition aggregate (mean : list fval -> fval) (res : Q) (A : nat)
    (power_map : list (list fval)) : result (flt * list fval) :=
  let power_map_mean := mean_dim0 mean A power_map in
  doa_order <- torch_argmax power_map_mean ;;
  inr (index_to_deg doa_order res, power_map_mean).

(** [matmul] broadcasts the frequency dimension of [sig_stft] against that of
    [steer_vec], and the column assignment needs [len(f_analog)] entries:
    both go through when the two agree or [sig_stft] has one frequency row.
    Otherwise the loop body raises; with an empty angle grid the body never
    runs and [torch.argmax] raises instead, so the outcome is the same. *)
Definition shapes_agree (sig_stft : tensor3) (f_analog : list Q) : bool :=
  Nat.eqb (dim1 sig_stft) (length f_analog) || Nat.eqb (dim1 sig_stft) 1.

(** [SRP.srp_ula]; the mean over frequency is, like the other tensor
    arithmetic of the sweep, the one of the reals. *)
Definition srp_ula (self : SRP) (sig_stft : tensor3) (f_analog : list Q)
  : result (flt * list fval) :=
  let M := dim0 sig_stft in
  n <- angle_count self ;;
  theta <- torch_linspace (-90) 90 n ;;
  let theta_sin := map (fun q => sin (deg2rad (Q2R q))) theta in
  ramp <- torch_linspace 0 (inject_Z (Z.of_nat M) - 1) (Z.of_nat M) ;;
  if shapes_agree sig_stft f_analog then
    aggregate torch_mean (resolution self) (length theta)
              (sweep self sig_stft f_analog theta_sin ramp)
  else inl TorchError.

(** ** The transform stage and [forward] *)

Section Forward.

(** Lines 50 to 61 of [multi_channel_stft]: the waveform (T, C) is reshaped to
    (C, T), passed to [torch.stft] with the stored window, and viewed as a
    complex tensor (C, F, T'). *)
Variable torch_stft : SRP -> tensor2 -> result tensor3.

(** [torch.linspace] of line 63, whose float32 entries are compared on line
    64: the entries torch computes for a start, a stop and a number of
    steps. *)
Variable linspace_f32 : flt -> flt -> Z -> result (list Q).

(** [torch.linspace(0, self.fs / 2, self.n_fft // 2 + 1)]: the raw one-sided
    frequency axis. *)
Definition raw_axis (self : SRP) : result (list Q) :=
  stop <- py_div (binary64 (fs self)) (Fnum 2) ;;
  linspace_f32 (Fnum 0) stop (n_fft self / 2 + 1)%Z.

(** [SRP.multi_channel_stft] *)
Definition multi_channel_stft (self : SRP) (x : tensor2) : result (tensor3 * list Q) :=
  X <- torch_stft self x ;;
  f_analog <- raw_axis self ;;
  let f_use_idx := map (in_band self) f_analog in
  let f_analog := index_mask f_analog f_use_idx in
  X' <- index_mask_dim1 X f_use_idx ;;
  inr (X', f_analog).

(** [SRP.forward] *)
Definition forward (self : SRP) (x : tensor2) : run (flt * list fval) :=
  call NyquistCheck (spatial_nyquist_check self) (fun _ =>
  call Transform (multi_channel_stft self x) (fun Xf =>
  call Sweep (srp_ula self (fst Xf) (snd Xf)) (fun r =>
  finish r))).

End Forward.

(** ** Reference notions the properties are stated with *)

Definition nyquist_msg : string := "Spatial Nyquist theorem not satisfied!".

(** Sum and unweighted arithmetic mean of real numbers. *)
Definition Rsum (l : list R) : R := fold_right Rplus 0%R l.
Definition Rmean (l : list R) : R := (Rsum l / INR (length l))%R.

(** Sum of complex numbers. *)
Definition Csum (l : list cplx) : cplx := fold_right Cadd (0, 0)%R l.

(** The far-field steering phase [2 pi sin(theta) d f m / c] of channel [m]
    at frequency [f], for a candidate angle [theta_deg] given in degrees. *)
Definition steering_phase (self : SRP) (theta_deg f : Q) (m : nat) : R :=
  (2 * PI * sin (Q2R theta_deg * (PI / 180)) * Q2R (d_inter self) * Q2R f * INR m
   / Q2R (c self))%R.

(** The steering-vector entry [exp(-j phi)]. *)
Definition steering (self : SRP) (theta_deg f : Q) (m : nat) : cplx :=
  Cexp (0, - steering_phase self theta_deg f m)%R.

(** The delay-and-sum response at frequency row [k] and frame [t]: the inner
    product over channels of the spectrum with the steering vector. *)
Definition beam (self : SRP) (sig_stft : tensor3) (theta_deg f : Q) (k t : nat) : cplx :=
  Csum (map (fun m => Cmul (at3 sig_stft m k t) (steering self theta_deg f m))
            (seq 0 (dim0 sig_stft))).

(** The rows of a grid all have [A] entries. *)
Definition rows_of_length (A : nat) (pm : list (list fval)) : Prop :=
  forall k, (k < length pm)%nat -> length (nth k pm []) = A.

(** ** Concrete inputs used in the examples *)

(** A spectrum with one channel, one frequency row and two frames, of
    magnitudes 0 and 2. *)
Definition two_frames : tensor3 :=
  mkT3 1 1 2 (fun _ _ t => match t with O => (0, 0)%R | S _ => (2, 0)%R end).

(** The defaults of [SRP.__init__] with the spacing of the demo script. *)
Definition default_srp : SRP :=
  mkSRP (2 # 100) 343 512 256 (hann_sqrt 512) 16000 (1 # 2) 400 1000.

(** A configuration with a short transform: five raw bins at 0, 2000, 4000,
    6000 and 8000 Hz, of which the band keeps 2000 and 4000 Hz; the angle
    grid has the five points -90, -45, 0, 45, 90. *)
Definition small_srp : SRP :=
  mkSRP (2 # 100) 343 8 4 (hann_sqrt 8) 16000 45 1000 5000.

(** The same with a band that holds none of the five raw bins. *)
Definition empty_band_srp : SRP :=
  mkSRP (2 # 100) 343 8 4 (hann_sqrt 8) 16000 45 400 1000.

(** The same as [small_srp] with a resolution of 7 degrees, which does not
    divide 180. *)
Definition uneven_srp : SRP :=
  mkSRP (2 # 100) 343 8 4 (hann_sqrt 8) 16000 7 1000 5000.

(** What lines 50 to 61 do on a silent waveform.  [torch.stft] wants positive
    [n_fft] and [hop_length], a window of [n_fft] entries and, for its
    reflect padding, more than [n_fft // 2] samples; it then returns an
    all-zero spectrum with one row per channel, [n_fft // 2 + 1] bins and
    [1 + T // hop_length] frames. *)
Definition silent_stft (self : SRP) (x : tensor2) : result tensor3 :=
  if ((0 <? n_fft self)%Z && (0 <? hop_length self)%Z
      && Nat.eqb (length (window self)) (Z.to_nat (n_fft self))
      && (n_fft self / 2 <? Z.of_nat (rows x))%Z)%bool
  then inr (mkT3 (cols x) (Z.to_nat (n_fft self / 2 + 1))
                 (Z.to_nat (1 + Z.of_nat (rows x) / hop_length self))
                 (fun _ _ _ => (0, 0)%R))
  else inl TorchError.

(** [torch.linspace] in float32 where every entry
    [start + i * (stop - start) / (steps - 1)] is a float32 number, as on
    the raw axes of the examples (0, 2000, ..., 8000 Hz and multiples of
    31.25 Hz): no entry is rounded.  The entries are fractions in lowest
    terms. *)
Definition exact_linspace (start stop : flt) (steps : Z) : result (list Q) :=
  match start, stop with
  | Fnum a, Fnum b => l <- torch_linspace a b steps ;; inr (map Qred l)
  | _, _ => inl TorchError
  end.

(** A silent waveform with [T] samples and [C] channels. *)
Definition silence (T C : nat) : tensor2 := mkT2 T C (fun _ _ => 0%R).

(** The configuration [small_srp] with a spacing of one metre, beyond the
    spatial Nyquist bound. *)
Definition wide_srp : SRP :=
  mkSRP 1 343 8 4 (hann_sqrt 8) 16000 45 1000 5000.

(** An entry of a power curve that is a non-negative number. *)
Definition nonneg (v : fval) : Prop := exists r, v = Fin r /\ (0 <= r)%R.

(** An entry that is undefined or a non-negative number. *)
Definition nan_or_nonneg (v : fval) : Prop := v = NaN \/ nonneg v.

(** An entry that is not a negative number. *)
Definition not_negative (v : fval) : Prop := forall r, v = Fin r -> (0 <= r)%R.


(** A floating-point value that is the number [q]. *)
Definition flt_is (a : flt) (q : Q) : Prop :=
  match a with
  | Fnum r => r == q
  | _ => False
  end.

(** A spacing of 0.2 with [c = 0.6] and [f_high = 1.5]: the spacing is the
    bound [c / (2 * f_high)] itself. *)
Definition boundary_srp : SRP :=
  mkSRP (2 # 10) (6 # 10) 8 4 (hann_sqrt 8) 16000 45 1000 (15 # 10).

(** A spacing of 1.6666666666666667 with [c = 5] and [f_high = 1.5]: the
    spacing is above the bound 5/3. *)
Definition above_bound_srp : SRP :=
  mkSRP (16666666666666667 # 10000000000000000) 5 8 4 (hann_sqrt 8) 16000 45 1000 (15 # 10).

(** The configuration [small_srp] with a lower band edge of 2000.00001 Hz,
    just above the raw bin at 2000 Hz. *)
Definition band_edge_srp : SRP :=
  mkSRP (2 # 100) 343 8 4 (hann_sqrt 8) 16000 45 (200000001 # 100000) 5000.

(** The positive integers that go into 180. *)
Definition divisors_of_180 : list Z :=
  [1; 2; 3; 4; 5; 6; 9; 10; 12; 15; 18; 20; 30; 36; 45; 60; 90; 180]%Z.

(** ** Further parts of the source *)

(** Line 75 and the first line of the sweep: the candidate angles in
    degrees, [torch.linspace(-90, 90, int(180 / self.resolution + 1))]. *)
Definition theta_grid (self : SRP) : result (list Q) :=
  n <- angle_count self ;;
  torch_linspace (-90) 90 n.

(** A spectrum of silence with two channels, two frequency rows and three
    frames. *)
Definition silent_spectrum : tensor3 := mkT3 2 2 3 (fun _ _ _ => (0, 0)%R).


(** A spectrum with two channels, one frequency row and one frame. *)
Definition two_channels : tensor3 :=
  mkT3 2 1 1 (fun m _ _ => match m with O => (1, 0)%R | S _ => (0, 1)%R end).

(** The loop body of the sweep run over the angle indices in a given
    order; [sweep] is the order [range(len(theta))]. *)
Definition sweep_in_order (self : SRP) (sig_stft : tensor3) (f_analog : list Q)
    (theta_sin : list R) (ramp : list Q) (order : list nat) : list (list fval) :=
  fold_left
    (fun power_map j =>
       set_column j (power_column self sig_stft f_analog ramp (nth j theta_sin 0%R))
                  power_map)
    order
    (zeros (length f_analog) (length theta_sin)).

(** ** The demo script *)

(** [np.linspace(start, stop, num)] for a count taken from a shape. *)
Definition np_linspace (start stop : Q) (num : nat) : list Q :=
  match num with
  | 1%nat => [start]
  | _ => map (fun i : nat =>
                start + inject_Z (Z.of_nat i)
                        * ((stop - start) / inject_Z (Z.of_nat num - 1)))
             (seq 0 num)
  end.

(** [np.argmax] of a one-dimensional array: the first index of the maximum,
    an undefined value counting as the maximum; it raises on an empty
    array. *)
Definition np_argmax (a : list fval) : result nat :=
  match a with
  | [] => inl (ValueError "attempt to get argmax of an empty sequence")
  | v :: a' => inr (argmax_from a' 1 0 v)
  end.

(** Lines 129 to 133: the angle at which the script draws its marker,
    [theta_deg[max_index]]. *)
Definition marker_angle (power_map : list fval) : result Q :=
  let theta_deg := np_linspace (-90) 90 (length power_map) in
  max_index <- np_argmax power_map ;;
  inr (nth max_index theta_deg 0).

Section Demo.

Variable torch_stft : SRP -> tensor2 -> result tensor3.
Variable linspace_f32 : flt -> flt -> Z -> result (list Q).

(** Lines 124 to 133 for a given sensor signal [sig]: the estimate the script
    prints and the angle of the marker it draws. *)
Definition demo (sig : tensor2) : result (flt * Q) :=
  srp_func <- SRP_init (2 # 100) 343 512 256 512 16000 400 1000 (1 # 2) ;;
  r <- outcome (forward torch_stft linspace_f32 srp_func sig) ;;
  let doa_est := fst r in
  let power_map := snd r in
  marker <- marker_angle power_map ;;
  inr (doa_est, marker).

End Demo.


(** A configuration with an upper band edge of zero. *)
Definition zero_f_high_srp : SRP :=
  mkSRP (2 # 100) 343 8 4 (hann_sqrt 8) 16000 45 (-1000) 0.

(** A configuration with a resolution of zero. *)
Definition zero_resolution_srp : SRP :=
  mkSRP (2 # 100) 343 8 4 (hann_sqrt 8) 16000 0 1000 5000.

(** * Verification *)


(** ** Rounding is monotone *)

Lemma pow2_pos (e : Z) : 0 < pow2 e.
Proof. apply Qpower_0_lt. reflexivity. Qed.

Lemma pow2_not_0 (e : Z) : ~ pow2 e == 0.
Proof. intros H. pose proof (pow2_pos e) as P. rewrite H in P. apply (Qlt_irrefl 0 P). Qed.

Lemma pow2_plus (a b : Z) : pow2 (a + b) == pow2 a * pow2 b.
Proof. apply Qpower_plus. discriminate. Qed.

Lemma pow2_le (a b : Z) : (a <= b)%Z -> pow2 a <= pow2 b.
Proof. intros H. apply Qpower_le_compat_l; [exact H|discriminate]. Qed.

Lemma pow2_lt_inv (a b : Z) : pow2 a < pow2 b -> (a < b)%Z.
Proof. intros H. apply (Qpower_lt_compat_l_inv 2); [exact H|reflexivity]. Qed.

Lemma pow2_Z (e : Z) : (0 <= e)%Z -> pow2 e == inject_Z (2 ^ e).
Proof. intros H. symmetry. apply (Zpower_Qpower 2 e H). Qed.

(** The binary logarithm brackets a positive rational. *)
Lemma ilog2_spec (q : Q) :
  0 < q -> pow2 (ilog2 q) <= q /\ q < pow2 (ilog2 q + 1).
Proof.
  intros Hq. destruct q as [n d].
  assert (Hn : (0 < n)%Z).
  { unfold Qlt in Hq. cbn [Qnum Qden] in Hq. lia. }
  unfold ilog2. cbn [Qnum Qden].
  set (a := Z.log2 n). set (b := Z.log2 (Z.pos d)).
  pose proof (Z.log2_spec n Hn) as [Ha1 Ha2]. fold a in Ha1, Ha2.
  pose proof (Z.log2_spec (Z.pos d) eq_refl) as [Hb1 Hb2]. fold b in Hb1, Hb2.
  assert (Ha0 : (0 <= a)%Z) by apply Z.log2_nonneg.
  assert (Hb0 : (0 <= b)%Z) by apply Z.log2_nonneg.
  assert (HN1 : pow2 a <= inject_Z n).
  { rewrite (pow2_Z a Ha0). rewrite <- Zle_Qle. exact Ha1. }
  assert (HN2 : inject_Z n < pow2 (a + 1)).
  { rewrite (pow2_Z (a + 1)) by lia. rewrite <- Zlt_Qlt. exact Ha2. }
  assert (HD1 : pow2 b <= inject_Z (Z.pos d)).
  { rewrite (pow2_Z b Hb0). rewrite <- Zle_Qle. exact Hb1. }
  assert (HD2 : inject_Z (Z.pos d) < pow2 (b + 1)).
  { rewrite (pow2_Z (b + 1)) by lia. rewrite <- Zlt_Qlt. exact Hb2. }
  assert (HD0 : 0 < inject_Z (Z.pos d)) by reflexivity.
  assert (Eq : n # d == inject_Z n / inject_Z (Z.pos d)) by apply Qmake_Qdiv.
  assert (Hlow : pow2 (a - b - 1) <= n # d).
  { rewrite Eq. apply Qle_shift_div_l; [exact HD0|].
    apply Qle_trans with (pow2 (a - b - 1) * pow2 (b + 1)).
    - apply Qmult_le_l; [apply pow2_pos|]. apply Qlt_le_weak. exact HD2.
    - rewrite <- pow2_plus. replace (a - b - 1 + (b + 1))%Z with a by lia. exact HN1. }
  assert (Hhigh : n # d < pow2 (a - b + 1)).
  { rewrite Eq. apply Qlt_shift_div_r; [exact HD0|].
    apply Qlt_le_trans with (pow2 (a + 1)); [exact HN2|].
    replace (a + 1)%Z with (a - b + 1 + b)%Z by lia. rewrite pow2_plus.
    apply Qmult_le_l; [apply pow2_pos|]. exact HD1. }
  destruct (Qle_bool (pow2 (a - b)) (n # d)) eqn:E.
  - apply Qle_bool_iff in E. split; [exact E|exact Hhigh].
  - split.
    + exact Hlow.
    + replace (a - b - 1 + 1)%Z with (a - b)%Z by lia.
      apply Qnot_le_lt. intros H. apply Qle_bool_iff in H. congruence.
Qed.

Lemma ilog2_mono (x y : Q) : 0 < x -> x <= y -> (ilog2 x <= ilog2 y)%Z.
Proof.
  intros Hx Hxy.
  assert (Hy : 0 < y) by (apply Qlt_le_trans with x; assumption).
  destruct (ilog2_spec x Hx) as [Hx1 _]. destruct (ilog2_spec y Hy) as [_ Hy2].
  assert (H : pow2 (ilog2 x) < pow2 (ilog2 y + 1)).
  { apply Qle_lt_trans with x; [exact Hx1|].
    apply Qle_lt_trans with y; assumption. }
  apply pow2_lt_inv in H. lia.
Qed.

(** Rounding to the nearest integer. *)
Lemma round_half_even_range (q : Q) :
  round_half_even q = Qfloor q \/ round_half_even q = (Qfloor q + 1)%Z.
Proof.
  unfold round_half_even. destruct (Qcompare _ _); [|left; reflexivity|right; reflexivity].
  destruct (Z.even _); [left|right]; reflexivity.
Qed.

Lemma round_half_even_Z (z : Z) : round_half_even (inject_Z z) = z.
Proof.
  unfold round_half_even. rewrite Qfloor_Z.
  assert (H : Qcompare (inject_Z z - inject_Z z) (1 # 2) = Lt).
  { apply Qlt_alt. setoid_replace (inject_Z z - inject_Z z) with 0 by ring. reflexivity. }
  rewrite H. reflexivity.
Qed.

Lemma round_half_even_mono (x y : Q) : x <= y -> (round_half_even x <= round_half_even y)%Z.
Proof.
  intros Hxy. pose proof (Qfloor_resp_le x y Hxy) as Hf.
  destruct (Z.eq_dec (Qfloor x) (Qfloor y)) as [E|E].
  - unfold round_half_even. rewrite <- E.
    assert (Hd : x - inject_Z (Qfloor x) <= y - inject_Z (Qfloor x)).
    { apply Qplus_le_l. exact Hxy. }
    destruct (Qcompare_spec (x - inject_Z (Qfloor x)) (1 # 2)) as [Hx|Hx|Hx];
      destruct (Qcompare_spec (y - inject_Z (Qfloor x)) (1 # 2)) as [Hy|Hy|Hy];
      try (destruct (Z.even (Qfloor x))); try lia; exfalso; Lqa.lra.
  - destruct (round_half_even_range x) as [Hx|Hx];
      destruct (round_half_even_range y) as [Hy|Hy]; lia.
Qed.

Lemma round_half_even_ge (q : Q) (z : Z) : inject_Z z <= q -> (z <= round_half_even q)%Z.
Proof.
  intros H. rewrite <- (round_half_even_Z z). apply round_half_even_mono. exact H.
Qed.

Lemma round_half_even_le (q : Q) (z : Z) : q <= inject_Z z -> (round_half_even q <= z)%Z.
Proof.
  intros H. rewrite <- (round_half_even_Z z). apply round_half_even_mono. exact H.
Qed.


Lemma Qabs_pos_lt (q : Q) : ~ q == 0 -> 0 < Qabs q.
Proof.
  intros H. destruct (Qlt_le_dec 0 (Qabs q)) as [P|P]; [exact P|].
  exfalso. apply H. pose proof (Qabs_nonneg q) as N.
  assert (E : Qabs q == 0) by (apply Qle_antisym; assumption).
  destruct (Qabs_Qle_condition q 0) as [C _].
  assert (L : Qabs q <= 0) by (rewrite E; apply Qle_refl).
  destruct (C L) as [C1 C2]. apply Qle_antisym; [exact C2|exact C1].
Qed.

(** What the exponent of the last place says about the number. *)
Lemma ulp_exp_spec (prec emin : Z) (q : Q) :
  ~ q == 0 ->
  (emin <= ulp_exp prec emin q)%Z
  /\ Qabs q < pow2 (ulp_exp prec emin q + prec)
  /\ ((emin < ulp_exp prec emin q)%Z -> pow2 (ulp_exp prec emin q + prec - 1) <= Qabs q).
Proof.
  intros Hq. destruct (ilog2_spec (Qabs q) (Qabs_pos_lt q Hq)) as [H1 H2].
  unfold ulp_exp. set (l := ilog2 (Qabs q)) in *.
  split; [lia|]. split.
  - apply Qlt_le_trans with (pow2 (l + 1)); [exact H2|]. apply pow2_le. lia.
  - intros He. replace (Z.max (l - prec + 1) emin + prec - 1)%Z with l by lia. exact H1.
Qed.

Lemma ulp_exp_mono (prec emin : Z) (x y : Q) :
  ~ x == 0 -> Qabs x <= Qabs y ->
  (ulp_exp prec emin x <= ulp_exp prec emin y)%Z.
Proof.
  intros Hx Hxy. unfold ulp_exp.
  pose proof (ilog2_mono (Qabs x) (Qabs y) (Qabs_pos_lt x Hx) Hxy). lia.
Qed.

Lemma round_to_nonzero (prec emin : Z) (q : Q) :
  ~ q == 0 ->
  round_to prec emin q
  = inject_Z (round_half_even (q / pow2 (ulp_exp prec emin q)))
    * pow2 (ulp_exp prec emin q).
Proof.
  intros H. unfold round_to. destruct (Qeq_bool q 0) eqn:E; [|reflexivity].
  apply Qeq_bool_iff in E. contradiction.
Qed.

Lemma round_to_zero (prec emin : Z) (q : Q) : q == 0 -> round_to prec emin q = 0.
Proof.
  intros H. unfold round_to. rewrite (proj2 (Qeq_bool_iff q 0) H). reflexivity.
Qed.

Lemma round_to_nonneg (prec emin : Z) (q : Q) : 0 <= q -> 0 <= round_to prec emin q.
Proof.
  intros Hq. unfold round_to. destruct (Qeq_bool q 0); [apply Qle_refl|]. cbv zeta.
  apply Qmult_le_0_compat; [|apply Qlt_le_weak, pow2_pos].
  change 0 with (inject_Z 0). rewrite <- Zle_Qle. apply round_half_even_ge.
  apply Qle_shift_div_l; [apply pow2_pos|].
  change (inject_Z 0) with 0. rewrite Qmult_0_l. exact Hq.
Qed.

Lemma round_to_nonpos (prec emin : Z) (q : Q) : q <= 0 -> round_to prec emin q <= 0.
Proof.
  intros Hq. unfold round_to. destruct (Qeq_bool q 0); [apply Qle_refl|]. cbv zeta.
  set (e := ulp_exp prec emin q).
  assert (Hr : (round_half_even (q / pow2 e) <= 0)%Z).
  { apply round_half_even_le. apply Qle_shift_div_r; [apply pow2_pos|].
    change (inject_Z 0) with 0. rewrite Qmult_0_l. exact Hq. }
  rewrite Zle_Qle in Hr. change (inject_Z 0) with 0 in Hr.
  pose proof (pow2_pos e) as Pe.
  setoid_replace 0 with (0 * pow2 e) by ring.
  apply Qmult_le_compat_r; [exact Hr|apply Qlt_le_weak; exact Pe].
Qed.

(** Two numbers rounded at the same last place. *)
Lemma round_same_exp (e : Z) (x y : Q) :
  x <= y ->
  inject_Z (round_half_even (x / pow2 e)) * pow2 e
  <= inject_Z (round_half_even (y / pow2 e)) * pow2 e.
Proof.
  intros H. apply Qmult_le_compat_r; [|apply Qlt_le_weak, pow2_pos].
  rewrite <- Zle_Qle. apply round_half_even_mono.
  apply Qmult_le_compat_r; [exact H|]. apply Qlt_le_weak, Qinv_lt_0_compat, pow2_pos.
Qed.

(** Bounds of a rounded number from bounds of the number by powers of two. *)
Lemma round_at_le_pow2 (e k : Z) (x : Q) :
  (0 <= k)%Z -> x <= pow2 (k + e) ->
  inject_Z (round_half_even (x / pow2 e)) * pow2 e <= pow2 (k + e).
Proof.
  intros Hk H. rewrite (pow2_plus k e).
  apply Qmult_le_compat_r; [|apply Qlt_le_weak, pow2_pos].
  rewrite (pow2_Z k Hk), <- Zle_Qle. apply round_half_even_le.
  rewrite <- (pow2_Z k Hk). apply Qle_shift_div_r; [apply pow2_pos|].
  rewrite <- pow2_plus. exact H.
Qed.

Lemma round_at_ge_pow2 (e k : Z) (x : Q) :
  (0 <= k)%Z -> pow2 (k + e) <= x ->
  pow2 (k + e) <= inject_Z (round_half_even (x / pow2 e)) * pow2 e.
Proof.
  intros Hk H. rewrite (pow2_plus k e).
  apply Qmult_le_compat_r; [|apply Qlt_le_weak, pow2_pos].
  rewrite (pow2_Z k Hk), <- Zle_Qle. apply round_half_even_ge.
  rewrite <- (pow2_Z k Hk). apply Qle_shift_div_l; [apply pow2_pos|].
  rewrite <- pow2_plus. exact H.
Qed.

Lemma round_at_le_opp_pow2 (e k : Z) (x : Q) :
  (0 <= k)%Z -> x <= - pow2 (k + e) ->
  inject_Z (round_half_even (x / pow2 e)) * pow2 e <= - pow2 (k + e).
Proof.
  intros Hk H. rewrite (pow2_plus k e).
  setoid_replace (- (pow2 k * pow2 e)) with ((- pow2 k) * pow2 e) by ring.
  apply Qmult_le_compat_r; [|apply Qlt_le_weak, pow2_pos].
  rewrite (pow2_Z k Hk), <- inject_Z_opp, <- Zle_Qle. apply round_half_even_le.
  rewrite inject_Z_opp, <- (pow2_Z k Hk). apply Qle_shift_div_r; [apply pow2_pos|].
  setoid_replace ((- pow2 k) * pow2 e) with (- (pow2 k * pow2 e)) by ring.
  rewrite <- pow2_plus. exact H.
Qed.

Lemma round_at_ge_opp_pow2 (e k : Z) (x : Q) :
  (0 <= k)%Z -> - pow2 (k + e) <= x ->
  - pow2 (k + e) <= inject_Z (round_half_even (x / pow2 e)) * pow2 e.
Proof.
  intros Hk H. rewrite (pow2_plus k e).
  setoid_replace (- (pow2 k * pow2 e)) with ((- pow2 k) * pow2 e) by ring.
  apply Qmult_le_compat_r; [|apply Qlt_le_weak, pow2_pos].
  rewrite (pow2_Z k Hk), <- inject_Z_opp, <- Zle_Qle. apply round_half_even_ge.
  rewrite inject_Z_opp, <- (pow2_Z k Hk). apply Qle_shift_div_l; [apply pow2_pos|].
  setoid_replace ((- pow2 k) * pow2 e) with (- (pow2 k * pow2 e)) by ring.
  rewrite <- pow2_plus. exact H.
Qed.

Lemma round_to_mono_pos (prec emin : Z) (x y : Q) :
  (1 <= prec)%Z -> 0 < x -> x <= y -> round_to prec emin x <= round_to prec emin y.
Proof.
  intros Hp Hx Hxy.
  assert (Hy : 0 < y) by (apply Qlt_le_trans with x; assumption).
  assert (Hx0 : ~ x == 0) by (intros E; rewrite E in Hx; apply (Qlt_irrefl 0 Hx)).
  assert (Hy0 : ~ y == 0) by (intros E; rewrite E in Hy; apply (Qlt_irrefl 0 Hy)).
  assert (Ax : Qabs x == x) by (apply Qabs_pos, Qlt_le_weak; exact Hx).
  assert (Ay : Qabs y == y) by (apply Qabs_pos, Qlt_le_weak; exact Hy).
  rewrite (round_to_nonzero prec emin x Hx0), (round_to_nonzero prec emin y Hy0).
  assert (He : (ulp_exp prec emin x <= ulp_exp prec emin y)%Z).
  { apply ulp_exp_mono; [exact Hx0|]. rewrite Ax, Ay. exact Hxy. }
  destruct (ulp_exp_spec prec emin x Hx0) as (Hx1 & Hx2 & _).
  destruct (ulp_exp_spec prec emin y Hy0) as (_ & _ & Hy3).
  set (ex := ulp_exp prec emin x) in *. set (ey := ulp_exp prec emin y) in *.
  destruct (Z.eq_dec ex ey) as [E|E].
  - rewrite E. apply round_same_exp. exact Hxy.
  - apply Qle_trans with (pow2 (prec + ex)).
    + apply round_at_le_pow2; [lia|]. apply Qlt_le_weak.
      rewrite <- Ax. replace (prec + ex)%Z with (ex + prec)%Z by lia. exact Hx2.
    + apply Qle_trans with (pow2 (prec - 1 + ey)); [apply pow2_le; lia|].
      apply round_at_ge_pow2; [lia|].
      rewrite <- Ay. replace (prec - 1 + ey)%Z with (ey + prec - 1)%Z by lia.
      apply Hy3. lia.
Qed.

Lemma round_to_mono_neg (prec emin : Z) (x y : Q) :
  (1 <= prec)%Z -> x <= y -> y < 0 -> round_to prec emin x <= round_to prec emin y.
Proof.
  intros Hp Hxy Hy.
  assert (Hx : x < 0) by (apply Qle_lt_trans with y; assumption).
  assert (Hx0 : ~ x == 0) by (intros E; rewrite E in Hx; apply (Qlt_irrefl 0 Hx)).
  assert (Hy0 : ~ y == 0) by (intros E; rewrite E in Hy; apply (Qlt_irrefl 0 Hy)).
  assert (Ax : Qabs x == - x) by (apply Qabs_neg, Qlt_le_weak; exact Hx).
  assert (Ay : Qabs y == - y) by (apply Qabs_neg, Qlt_le_weak; exact Hy).
  rewrite (round_to_nonzero prec emin x Hx0), (round_to_nonzero prec emin y Hy0).
  assert (He : (ulp_exp prec emin y <= ulp_exp prec emin x)%Z).
  { apply ulp_exp_mono; [exact Hy0|]. rewrite Ax, Ay. apply Qopp_le_compat. exact Hxy. }
  destruct (ulp_exp_spec prec emin y Hy0) as (Hy1 & Hy2 & _).
  destruct (ulp_exp_spec prec emin x Hx0) as (_ & _ & Hx3).
  set (ex := ulp_exp prec emin x) in *. set (ey := ulp_exp prec emin y) in *.
  destruct (Z.eq_dec ex ey) as [E|E].
  - rewrite E. apply round_same_exp. exact Hxy.
  - apply Qle_trans with (- pow2 (prec - 1 + ex)).
    + apply round_at_le_opp_pow2; [lia|].
      assert (H : pow2 (ex + prec - 1) <= - x) by (rewrite <- Ax; apply Hx3; lia).
      replace (prec - 1 + ex)%Z with (ex + prec - 1)%Z by lia. Lqa.lra.
    + apply Qle_trans with (- pow2 (prec + ey)).
      * apply Qopp_le_compat. apply pow2_le. lia.
      * apply round_at_ge_opp_pow2; [lia|].
        assert (H : - y < pow2 (ey + prec)) by (rewrite <- Ay; exact Hy2).
        replace (prec + ey)%Z with (ey + prec)%Z by lia. Lqa.lra.
Qed.

(** Rounding keeps the order. *)
Lemma round_to_mono (prec emin : Z) (x y : Q) :
  (1 <= prec)%Z -> x <= y -> round_to prec emin x <= round_to prec emin y.
Proof.
  intros Hp Hxy.
  destruct (Qlt_le_dec 0 x) as [Hx|Hx].
  - apply round_to_mono_pos; assumption.
  - destruct (Qlt_le_dec y 0) as [Hy|Hy].
    + apply round_to_mono_neg; assumption.
    + apply Qle_trans with 0; [apply round_to_nonpos|apply round_to_nonneg]; assumption.
Qed.

(** The three outcomes of rounding into a format. *)
Lemma to_format_cases (prec emin emax : Z) (q : Q) :
  (to_format prec emin emax q = Fnum (Qred (round_to prec emin q))
   /\ - pow2 emax < round_to prec emin q /\ round_to prec emin q < pow2 emax)
  \/ (to_format prec emin emax q = Finf false /\ pow2 emax <= round_to prec emin q)
  \/ (to_format prec emin emax q = Finf true /\ round_to prec emin q <= - pow2 emax).
Proof.
  unfold to_format. set (r := round_to prec emin q).
  pose proof (pow2_pos emax) as Pe.
  destruct (Qle_bool (pow2 emax) (Qabs r)) eqn:E.
  - apply Qle_bool_iff in E. right.
    destruct (Qle_bool 0 r) eqn:S; cbn [negb].
    + apply Qle_bool_iff in S. left. split; [reflexivity|].
      rewrite (Qabs_pos r S) in E. exact E.
    + right. split; [reflexivity|].
      assert (S' : r <= 0).
      { apply Qlt_le_weak, Qnot_le_lt. intros H. apply Qle_bool_iff in H. congruence. }
      rewrite (Qabs_neg r S') in E. Lqa.lra.
  - left. split; [reflexivity|].
    assert (E' : Qabs r < pow2 emax).
    { apply Qnot_le_lt. intros H. apply Qle_bool_iff in H. congruence. }
    destruct (Qlt_le_dec r 0) as [S|S].
    + rewrite (Qabs_neg r (Qlt_le_weak _ _ S)) in E'. split; Lqa.lra.
    + rewrite (Qabs_pos r S) in E'. split; Lqa.lra.
Qed.

Lemma to_format_not_nan (prec emin emax : Z) (q : Q) : to_format prec emin emax q <> Fnan.
Proof.
  destruct (to_format_cases prec emin emax q) as [[E _]|[[E _]|[E _]]];
    rewrite E; discriminate.
Qed.

(** Rounding into a format keeps the order. *)
Lemma to_format_mono (prec emin emax : Z) (x y : Q) :
  (1 <= prec)%Z -> x <= y ->
  flt_leb (to_format prec emin emax x) (to_format prec emin emax y) = true.
Proof.
  intros Hp Hxy. pose proof (round_to_mono prec emin x y Hp Hxy) as Hr.
  pose proof (pow2_pos emax) as Pe.
  destruct (to_format_cases prec emin emax x) as [[Ex [Hx1 Hx2]]|[[Ex Hx]|[Ex Hx]]];
    destruct (to_format_cases prec emin emax y) as [[Ey [Hy1 Hy2]]|[[Ey Hy]|[Ey Hy]]];
    rewrite Ex, Ey; cbn [flt_leb negb]; try reflexivity; try (exfalso; Lqa.lra).
  apply Qle_bool_iff. rewrite !Qred_correct. exact Hr.
Qed.

Lemma binary64_mono (x y : Q) : x <= y -> flt_leb (binary64 x) (binary64 y) = true.
Proof. apply to_format_mono. lia. Qed.

Lemma binary64_not_nan (q : Q) : binary64 q <> Fnan.
Proof. apply to_format_not_nan. Qed.

(** The order of floating-point values. *)
Lemma Qle_bool_false (x y : Q) : Qle_bool x y = false <-> y < x.
Proof.
  split; intros H.
  - apply Qnot_le_lt. intros L. apply Qle_bool_iff in L. congruence.
  - destruct (Qle_bool x y) eqn:E; [|reflexivity].
    apply Qle_bool_iff in E. exfalso. apply (Qlt_not_le _ _ H E).
Qed.

Ltac flt_order :=
  repeat match goal with
         | a : flt |- _ => destruct a as [|[|]|?]
         end;
  cbn [flt_leb flt_ltb negb]; intros;
  try reflexivity; try discriminate;
  repeat match goal with
         | H : Qle_bool _ _ = true |- _ => apply Qle_bool_iff in H
         | H : negb (Qle_bool _ _) = false |- _ => apply negb_false_iff in H
         | H : negb (Qle_bool _ _) = true |- _ => apply negb_true_iff in H
         | H : Qle_bool _ _ = false |- _ => apply Qle_bool_false in H
         end;
  try (apply negb_false_iff); try (apply negb_true_iff);
  try (apply Qle_bool_iff; Lqa.lra);
  try (apply Qle_bool_false; Lqa.lra).

Lemma flt_ltb_false_le_r (b d d' : flt) :
  flt_leb d' d = true -> flt_ltb b d = false -> flt_ltb b d' = false.
Proof. revert b d d'. intros b d d'. flt_order. Qed.

Lemma flt_ltb_false_le_l (b b' d : flt) :
  flt_leb b b' = true -> flt_ltb b d = false -> flt_ltb b' d = false.
Proof. revert b b' d. intros b b' d. flt_order. Qed.

Lemma flt_ltb_inf (d : flt) : flt_ltb (Finf false) d = false.
Proof. destruct d as [|[|]|?]; reflexivity. Qed.

(** A floating-point value above zero: a positive number or the positive
    infinity. *)
Lemma flt_above_pos (a : flt) (p : Q) :
  0 < p -> flt_leb (Fnum p) a = true ->
  (exists q, a = Fnum q /\ 0 < q) \/ a = Finf false.
Proof.
  intros Hp H. destruct a as [|[|]|q]; cbn in H; try discriminate.
  - right. reflexivity.
  - left. exists q. split; [reflexivity|]. apply Qle_bool_iff in H. Lqa.lra.
Qed.

Lemma flt_above_nonneg (a : flt) :
  flt_leb (Fnum 0) a = true ->
  (exists q, a = Fnum q /\ 0 <= q) \/ a = Finf false.
Proof.
  intros H. destruct a as [|[|]|q]; cbn in H; try discriminate.
  - right. reflexivity.
  - left. exists q. split; [reflexivity|]. apply Qle_bool_iff in H. exact H.
Qed.

Lemma binary64_0 : binary64 0 = Fnum 0.
Proof. reflexivity. Qed.

Lemma binary64_min : binary64 (pow2 (-1074)) = Fnum (pow2 (-1074)).
Proof. vm_compute. reflexivity. Qed.

Lemma binary64_zero (q : Q) : q == 0 -> binary64 q = Fnum 0.
Proof.
  intros H. unfold binary64, to_format. rewrite (round_to_zero _ _ q H). reflexivity.
Qed.

Lemma binary64_1 : binary64 1 = Fnum 1.
Proof. vm_compute. reflexivity. Qed.

(** A float that is at most a number: a number or the negative infinity. *)
Lemma flt_below (a : flt) (p : Q) :
  a <> Fnan -> flt_leb a (Fnum p) = true ->
  (exists q, a = Fnum q /\ q <= p) \/ a = Finf true.
Proof.
  intros Hn H. destruct a as [|[|]|q]; cbn [flt_leb] in H; try discriminate.
  - right. reflexivity.
  - left. exists q. split; [reflexivity|]. apply Qle_bool_iff. exact H.
Qed.

Lemma flt_leb_inf (a : flt) : a <> Fnan -> flt_leb a (Finf false) = true.
Proof. destruct a as [|[|]|?]; intros H; try reflexivity. congruence. Qed.

Lemma flt_leb_ninf (a : flt) : a <> Fnan -> flt_leb (Finf true) a = true.
Proof. destruct a as [|[|]|?]; intros H; try reflexivity. congruence. Qed.

Lemma binary32_mono (x y : Q) : x <= y -> flt_leb (binary32 x) (binary32 y) = true.
Proof. apply to_format_mono. lia. Qed.

Lemma binary32_not_nan (q : Q) : binary32 q <> Fnan.
Proof. apply to_format_not_nan. Qed.

(** The conversion to float32 keeps the order. *)
Lemma to_f32_mono (a b : flt) :
  flt_leb a b = true -> flt_leb (to_f32 a) (to_f32 b) = true.
Proof.
  destruct a as [|[|]|x], b as [|[|]|y]; cbn [flt_leb to_f32 negb]; intros H;
    try discriminate; try reflexivity.
  - apply flt_leb_ninf, binary32_not_nan.
  - apply flt_leb_inf, binary32_not_nan.
  - apply binary32_mono. apply Qle_bool_iff. exact H.
Qed.

(** No number lies at or above a bound and strictly below a smaller one. *)
Lemma flt_band_empty (lo hi : flt) (f : Q) :
  flt_leb hi lo = true -> flt_leb lo (Fnum f) && flt_ltb (Fnum f) hi = false.
Proof.
  intros H. destruct (flt_leb lo (Fnum f)) eqn:E1; [|reflexivity]. cbn [andb].
  revert H E1. generalize (Fnum f). intros b. revert lo hi b. intros lo hi b. flt_order.
Qed.
(** ** The spatial Nyquist gate *)

Lemma nyquist_check_bound (self : SRP) (bound : flt) :
  nyquist_bound self = inr bound ->
  spatial_nyquist_check self
  = if flt_ltb bound (binary64 (d_inter self))
    then inl (ValueError nyquist_msg) else inr tt.
Proof.
  intros H. unfold spatial_nyquist_check. rewrite H. reflexivity.
Qed.

Lemma nyquist_check_error (self : SRP) (e : exn) :
  nyquist_bound self = inl e -> spatial_nyquist_check self = inl e.
Proof.
  intros H. unfold spatial_nyquist_check. rewrite H. reflexivity.
Qed.

Lemma nyquist_raises (self : SRP) (bound : flt) :
  nyquist_bound self = inr bound ->
  flt_ltb bound (binary64 (d_inter self)) = true ->
  spatial_nyquist_check self = inl (ValueError nyquist_msg).
Proof.
  intros H Hd. rewrite (nyquist_check_bound self bound H), Hd. reflexivity.
Qed.

Lemma nyquist_passes (self : SRP) (bound : flt) :
  nyquist_bound self = inr bound ->
  flt_ltb bound (binary64 (d_inter self)) = false ->
  spatial_nyquist_check self = inr tt.
Proof.
  intros H Hd. rewrite (nyquist_check_bound self bound H), Hd. reflexivity.
Qed.

Lemma forward_after_check torch_stft linspace_f32 self x :
  spatial_nyquist_check self = inr tt ->
  exists rest,
    entered (forward torch_stft linspace_f32 self x) = NyquistCheck :: Transform :: rest.
Proof.
  intros H. unfold forward. rewrite H. cbn [call].
  destruct (multi_channel_stft torch_stft linspace_f32 self x) as [e|Xf]; cbn; eauto.
Qed.

Lemma flt_ltb_num (x y : Q) : flt_ltb (Fnum x) (Fnum y) = true <-> x < y.
Proof.
  cbn. destruct (Qle_bool y x) eqn:E; cbn.
  - apply Qle_bool_iff in E. split; [discriminate|].
    intros H. exfalso. apply (Qlt_not_le _ _ H E).
  - split; [intros _|reflexivity].
    apply Qnot_le_lt. intros H. apply Qle_bool_iff in H. congruence.
Qed.

(** C4, the claim at a rounding boundary.  With [d_inter = 0.2], [c = 0.6]
    and [f_high = 1.5] the spacing equals [c / (2 * f_high)], and the check
    raises: the quotient of line 41 is rounded down to
    0.19999999999999998.  With [d_inter = 1.6666666666666667], [c = 5] and
    [f_high = 1.5] the spacing is above [c / (2 * f_high)], and the check
    passes: the quotient is rounded up to the float of the spacing. *)
Lemma nyquist_bound_rounded :
  (d_inter boundary_srp == c boundary_srp / (2 * f_high boundary_srp)
   /\ spatial_nyquist_check boundary_srp = inl (ValueError nyquist_msg))
  /\ (c above_bound_srp / (2 * f_high above_bound_srp) < d_inter above_bound_srp
      /\ spatial_nyquist_check above_bound_srp = inr tt).
Proof.
  split; split.
  - reflexivity.
  - unfold spatial_nyquist_check, nyquist_bound, boundary_srp.
    cbn [c f_high d_inter]. vm_compute. reflexivity.
  - reflexivity.
  - unfold spatial_nyquist_check, nyquist_bound, above_bound_srp.
    cbn [c f_high d_inter]. vm_compute. reflexivity.
Qed.

(** C4, amended.  Let [bound] be the value line 41 computes for
    [c / (2 * f_high)], product and quotient rounded to binary64.  The check
    raises its [ValueError] exactly when [bound] is below the binary64 value
    of [d_inter]; a run of [forward] ends in that error, with neither the
    transform nor the sweep entered, exactly in that case, and otherwise
    goes on into the transform; a spacing whose binary64 value is above
    [bound] by any [eps > 0] is refused, one below it by [eps] is
    accepted. *)
Theorem nyquist_gate torch_stft linspace_f32 (self : SRP) (x : tensor2) (bound : flt) :
  py_div (binary64 (c self)) (py_mul (Fnum 2) (binary64 (f_high self))) = inr bound ->
  (spatial_nyquist_check self = inl (ValueError nyquist_msg)
     <-> flt_ltb bound (binary64 (d_inter self)) = true)
  /\ (forward torch_stft linspace_f32 self x
        = mkRun [NyquistCheck] (inl (ValueError nyquist_msg))
      <-> flt_ltb bound (binary64 (d_inter self)) = true)
  /\ (flt_ltb bound (binary64 (d_inter self)) = false ->
      spatial_nyquist_check self = inr tt
      /\ In Transform (entered (forward torch_stft linspace_f32 self x)))
  /\ (forall b d eps,
        bound = Fnum b -> binary64 (d_inter self) = Fnum d -> 0 < eps ->
        (d == b + eps -> spatial_nyquist_check self = inl (ValueError nyquist_msg))
        /\ (d == b - eps -> spatial_nyquist_check self = inr tt)).
Proof.
  intros Hb.
  pose proof (nyquist_check_bound self bound Hb) as Hc.
  split; [|split; [|split]].
  - rewrite Hc. destruct (flt_ltb bound (binary64 (d_inter self)));
      split; intros H; try reflexivity; discriminate.
  - unfold forward. rewrite Hc.
    destruct (flt_ltb bound (binary64 (d_inter self))); cbn [call].
    + split; reflexivity.
    + split; [|discriminate]. intros H.
      destruct (multi_channel_stft torch_stft linspace_f32 self x); discriminate.
  - intros Hd. split.
    + apply (nyquist_passes self bound Hb Hd).
    + destruct (forward_after_check torch_stft linspace_f32 self x
                  (nyquist_passes self bound Hb Hd)) as [rest Hr].
      rewrite Hr. right. left. reflexivity.
  - intros b d eps -> Hd Heps. split; intros E.
    + apply (nyquist_raises self (Fnum b) Hb). rewrite Hd.
      apply flt_ltb_num. rewrite E.
      rewrite <- (Qplus_0_r b) at 1. apply Qplus_lt_r. exact Heps.
    + apply (nyquist_passes self (Fnum b) Hb). rewrite Hd.
      destruct (flt_ltb (Fnum b) (Fnum d)) eqn:F; [|reflexivity].
      apply flt_ltb_num in F. exfalso. rewrite E in F.
      apply (Qlt_irrefl b). apply (Qlt_trans _ _ _ F).
      unfold Qminus. rewrite <- (Qplus_0_r b) at 2. apply Qplus_lt_r.
      apply Qopp_lt_compat in Heps. exact Heps.
Qed.

Lemma nyquist_gate_witness :
  exists bound,
    nyquist_bound default_srp = inr bound
    /\ spatial_nyquist_check default_srp = inr tt
    /\ In Transform (entered (forward silent_stft exact_linspace default_srp (silence 512 4))).
Proof.
  assert (Hb : { bound | nyquist_bound default_srp = inr bound }).
  { unfold nyquist_bound, default_srp. cbn [c f_high].
    eexists. vm_compute. reflexivity. }
  destruct Hb as [bound Hb]. exists bound. split; [exact Hb|].
  apply (nyquist_gate silent_stft exact_linspace default_srp (silence 512 4) bound Hb).
  revert Hb. unfold nyquist_bound, default_srp. cbn [c f_high d_inter].
  vm_compute. intros Hb. injection Hb as <-. reflexivity.
Defined.

(** ** The transform stage: frequency axis and band mask *)

Lemma flt_leb_num (x y : Q) : flt_leb (Fnum x) (Fnum y) = true <-> x <= y.
Proof. cbn. apply Qle_bool_iff. Qed.

Lemma in_band_spec (self : SRP) (f : Q) :
  in_band self f = true
  <-> flt_leb (to_f32 (binary64 (f_low self))) (Fnum f) = true
      /\ flt_ltb (Fnum f) (to_f32 (binary64 (f_high self))) = true.
Proof. unfold in_band. apply andb_true_iff. Qed.

Lemma in_band_num (self : SRP) (lo hi f : Q) :
  to_f32 (binary64 (f_low self)) = Fnum lo ->
  to_f32 (binary64 (f_high self)) = Fnum hi ->
  in_band self f = true <-> lo <= f /\ f < hi.
Proof.
  intros Hlo Hhi. rewrite in_band_spec, Hlo, Hhi, flt_leb_num, flt_ltb_num. reflexivity.
Qed.

Lemma in_band_exact (self : SRP) (f : Q) :
  flt_is (to_f32 (binary64 (f_low self))) (f_low self) ->
  flt_is (to_f32 (binary64 (f_high self))) (f_high self) ->
  in_band self f = true <-> f_low self <= f /\ f < f_high self.
Proof.
  intros Hlo Hhi.
  destruct (to_f32 (binary64 (f_low self))) as [| |lo] eqn:Elo; try contradiction.
  destruct (to_f32 (binary64 (f_high self))) as [| |hi] eqn:Ehi; try contradiction.
  cbn [flt_is] in Hlo, Hhi.
  rewrite (in_band_num self lo hi f Elo Ehi), Hlo, Hhi. reflexivity.
Qed.

Lemma torch_linspace_length start stop steps l :
  torch_linspace start stop steps = inr l -> length l = Z.to_nat steps.
Proof.
  unfold torch_linspace.
  destruct (steps <? 0)%Z; [discriminate|].
  destruct (steps =? 1)%Z eqn:E1; intros H; inversion H; subst; clear H.
  - apply Z.eqb_eq in E1. subst. reflexivity.
  - rewrite length_map, length_seq. reflexivity.
Qed.

Lemma torch_linspace_nth start stop steps l i :
  torch_linspace start stop steps = inr l ->
  (i < length l)%nat ->
  nth i l 0 == start + inject_Z (Z.of_nat i) * ((stop - start) / inject_Z (steps - 1)).
Proof.
  unfold torch_linspace.
  destruct (steps <? 0)%Z; [discriminate|].
  destruct (steps =? 1)%Z eqn:E1; intros H; inversion H; subst; clear H.
  - cbn [length]. intros Hi. assert (i = 0%nat) by lia. subst i. cbn [nth].
    cbn [Z.of_nat]. setoid_replace (inject_Z 0) with 0 by reflexivity. ring.
  - rewrite length_map, length_seq. intros Hi.
    rewrite (nth_indep _ 0 (start + inject_Z (Z.of_nat 0) * ((stop - start) / inject_Z (steps - 1))))
      by (rewrite length_map, length_seq; exact Hi).
    rewrite (map_nth (fun i : nat => start + inject_Z (Z.of_nat i) * ((stop - start) / inject_Z (steps - 1)))).
    rewrite seq_nth by exact Hi. reflexivity.
Qed.

(** The positions kept by a mask: increasing, below the mask's length, and
    exactly those where the mask holds. *)
Lemma true_indices_bounds mask i j :
  In j (true_indices mask i) -> (i <= j < i + length mask)%nat.
Proof.
  revert i. induction mask as [|b mask IH]; intros i; cbn; [tauto|].
  destruct b; cbn; intros H.
  - destruct H as [<-|H]; [lia|]. apply IH in H. lia.
  - apply IH in H. lia.
Qed.

Lemma true_indices_sorted mask i : StronglySorted lt (true_indices mask i).
Proof.
  revert i. induction mask as [|b mask IH]; intros i; cbn; [constructor|].
  destruct b; [|apply IH].
  constructor; [apply IH|].
  apply Forall_forall. intros j Hj. apply true_indices_bounds in Hj. lia.
Qed.

Lemma true_indices_In mask i j :
  In j (true_indices mask i) <->
  (i <= j < i + length mask)%nat /\ nth (j - i) mask false = true.
Proof.
  revert i. induction mask as [|b mask IH]; intros i; cbn [true_indices length].
  - cbn. split; [tauto|]. intros [H _]. lia.
  - destruct b; cbn [In]; rewrite IH; split.
    + intros [<-|[Hb Hn]].
      * split; [lia|]. rewrite Nat.sub_diag. reflexivity.
      * split; [lia|]. replace (j - i)%nat with (S (j - S i)) by lia. exact Hn.
    + intros [Hb Hn]. destruct (Nat.eq_dec i j) as [->|Hne]; [left; reflexivity|].
      right. split; [lia|]. replace (j - i)%nat with (S (j - S i)) in Hn by lia. exact Hn.
    + intros [Hb Hn]. split; [lia|].
      replace (j - i)%nat with (S (j - S i)) by lia. exact Hn.
    + intros [Hb Hn]. destruct (Nat.eq_dec i j) as [->|Hne].
      * rewrite Nat.sub_diag in Hn. discriminate.
      * split; [lia|]. replace (j - i)%nat with (S (j - S i)) in Hn by lia. exact Hn.
Qed.

(** Indexing by the mask of a predicate is filtering by it. *)
Lemma index_mask_filter_gen (p : Q -> bool) (pre l : list Q) :
  map (fun i => nth i (pre ++ l) 0) (true_indices (map p l) (length pre)) = filter p l.
Proof.
  revert pre. induction l as [|a l IH]; intros pre; [reflexivity|].
  cbn [map true_indices filter].
  assert (Hstep : map (fun i => nth i (pre ++ a :: l) 0)
                      (true_indices (map p l) (S (length pre))) = filter p l).
  { specialize (IH (pre ++ [a])). rewrite <- app_assoc in IH. cbn [app] in IH.
    rewrite length_app in IH. cbn [length] in IH. rewrite Nat.add_1_r in IH. exact IH. }
  destruct (p a); cbn [map]; rewrite Hstep; [|reflexivity].
  rewrite nth_middle. reflexivity.
Qed.

Lemma index_mask_filter (p : Q -> bool) (l : list Q) :
  index_mask l (map p l) = filter p l.
Proof. exact (index_mask_filter_gen p [] l). Qed.

(** C5, the claim at a rounded band edge.  With [f_low = 2000.00001] the
    bin at 2000 Hz is below [f_low], and it is kept: line 64 compares in
    float32, where 2000.00001 is 2000. *)
Lemma band_edge_rounded :
  ~ f_low band_edge_srp <= 2000
  /\ in_band band_edge_srp 2000 = true
  /\ exists X',
       multi_channel_stft silent_stft exact_linspace band_edge_srp (silence 8 2)
       = inr (X', [2000; 4000]).
Proof.
  split; [|split].
  - intros H. apply Qle_bool_iff in H. discriminate.
  - unfold in_band, band_edge_srp. cbn [f_low f_high]. vm_compute. reflexivity.
  - eexists. lazy. reflexivity.
Qed.

(** C5, amended.  When the transform stage returns, the raw axis is what
    [torch.linspace] gives for 0, the binary64 value of [fs / 2] and
    [n_fft // 2 + 1] steps, and it has one entry per bin of the spectrum;
    the returned axis is its filter by the band predicate, which holds of a
    bin [f] exactly when [lo <= f < hi] for the float32 values [lo], [hi] of
    [f_low], [f_high] (so by [f_low <= f < f_high] itself when the two are
    float32 numbers); and one increasing list of raw bin positions, exactly
    those in the band, selects both the returned axis and the returned
    spectrum's frequency dimension. *)
Theorem transform_band_alignment torch_stft linspace_f32 (self : SRP) (x : tensor2)
    (X' : tensor3) (f' : list Q) :
  multi_channel_stft torch_stft linspace_f32 self x = inr (X', f') ->
  exists (X : tensor3) (stop : flt) (f_raw : list Q) (idx : list nat),
    torch_stft self x = inr X
    /\ py_div (binary64 (fs self)) (Fnum 2) = inr stop
    /\ linspace_f32 (Fnum 0) stop (n_fft self / 2 + 1)%Z = inr f_raw
    /\ length f_raw = dim1 X
    /\ (forall lo hi f,
          to_f32 (binary64 (f_low self)) = Fnum lo ->
          to_f32 (binary64 (f_high self)) = Fnum hi ->
          (in_band self f = true <-> lo <= f /\ f < hi))
    /\ (flt_is (to_f32 (binary64 (f_low self))) (f_low self) ->
        flt_is (to_f32 (binary64 (f_high self))) (f_high self) ->
        forall f, in_band self f = true <-> f_low self <= f /\ f < f_high self)
    /\ f' = filter (in_band self) f_raw
    /\ StronglySorted lt idx
    /\ (forall i, In i idx <->
          (i < length f_raw)%nat /\ in_band self (nth i f_raw 0) = true)
    /\ length idx = length f'
    /\ dim0 X' = dim0 X /\ dim1 X' = length f' /\ dim2 X' = dim2 X
    /\ (forall k, (k < length f')%nat ->
          nth k f' 0 = nth (nth k idx 0%nat) f_raw 0
          /\ forall ch t, at3 X' ch k t = at3 X ch (nth k idx 0%nat) t).
Proof.
  unfold multi_channel_stft. intros H.
  destruct (torch_stft self x) as [e|X] eqn:EX; [discriminate|]. cbn [bind] in H.
  destruct (raw_axis linspace_f32 self) as [e|f_raw] eqn:Eraw; [discriminate|].
  cbn [bind] in H.
  unfold index_mask_dim1 in H.
  destruct (Nat.eqb _ _) eqn:Elen; [|discriminate]. cbn [bind] in H.
  inversion H; subst; clear H. cbn [dim0 dim1 dim2 at3].
  unfold raw_axis in Eraw.
  destruct (py_div (binary64 (fs self)) (Fnum 2)) as [e|stop] eqn:Estop; [discriminate|].
  cbn [bind] in Eraw.
  set (idx := true_indices (map (in_band self) f_raw) 0).
  assert (Hf' : index_mask f_raw (map (in_band self) f_raw) = filter (in_band self) f_raw)
    by apply index_mask_filter.
  assert (Hlen : length idx = length (filter (in_band self) f_raw)).
  { rewrite <- Hf'. unfold index_mask. rewrite length_map. reflexivity. }
  exists X, stop, f_raw, idx.
  split; [reflexivity|].
  split; [reflexivity|].
  split; [exact Eraw|].
  split; [apply Nat.eqb_eq in Elen; rewrite length_map in Elen; exact Elen|].
  split; [intros lo hi f Hlo Hhi; apply in_band_num; assumption|].
  split; [intros Hlo Hhi f; apply in_band_exact; assumption|].
  split; [exact Hf'|].
  split; [apply true_indices_sorted|].
  split.
  { intros i. unfold idx. rewrite true_indices_In, length_map, Nat.sub_0_r.
    split.
    - intros [Hb Hn]. split; [lia|].
      rewrite (nth_indep _ false (in_band self 0)) in Hn by (rewrite length_map; lia).
      rewrite map_nth in Hn. exact Hn.
    - intros [Hi Hb]. split; [lia|].
      rewrite (nth_indep _ false (in_band self 0)) by (rewrite length_map; lia).
      rewrite map_nth. exact Hb. }
  split; [rewrite Hf'; exact Hlen|].
  split; [reflexivity|].
  split; [rewrite Hf'; exact Hlen|].
  split; [reflexivity|].
  rewrite Hf'. intros k Hk. split; [|reflexivity].
  rewrite <- Hf'. unfold index_mask. fold idx.
  rewrite (nth_indep _ 0 (nth 0%nat f_raw 0)) by (rewrite length_map, Hlen; exact Hk).
  rewrite (map_nth (fun i => nth i f_raw 0)). reflexivity.
Qed.

(** The transform stage on [small_srp] and a silent waveform. *)
Lemma small_transform_run :
  exists X', multi_channel_stft silent_stft exact_linspace small_srp (silence 8 2)
             = inr (X', [2000; 4000]).
Proof. eexists. lazy. reflexivity. Qed.

Lemma transform_band_alignment_witness :
  match multi_channel_stft silent_stft exact_linspace small_srp (silence 8 2) with
  | inr (X', f') => dim1 X' = length f' /\ f' = [2000; 4000]
  | inl _ => False
  end.
Proof.
  destruct (multi_channel_stft silent_stft exact_linspace small_srp (silence 8 2))
    as [e|[X' f']] eqn:E.
  - lazy in E. discriminate.
  - destruct (transform_band_alignment silent_stft exact_linspace small_srp (silence 8 2)
                X' f' E)
      as (X & stop & f_raw & idx & _ & _ & _ & _ & _ & _ & _ & _ & _ & _ & _ & Hd & _).
    split; [exact Hd|].
    lazy in E. inversion E. reflexivity.
Defined.

(** With the default configuration the raw axis has 257 bins, 31.25 Hz
    apart, and the band from 400 Hz to 1000 Hz keeps the 19 bins from
    406.25 Hz to 968.75 Hz; the bin at 1000 Hz is left out. *)
Example default_band :
  exists f_raw,
    raw_axis exact_linspace default_srp = inr f_raw
    /\ length f_raw = 257%nat
    /\ length (filter (in_band default_srp) f_raw) = 19%nat
    /\ nth 32 f_raw 0 = 1000
    /\ in_band default_srp (nth 32 f_raw 0) = false
    /\ in_band default_srp (nth 31 f_raw 0) = true.
Proof.
  assert (H : { f_raw | raw_axis exact_linspace default_srp = inr f_raw }).
  { unfold raw_axis, default_srp. cbn [fs n_fft]. eexists. vm_compute. reflexivity. }
  destruct H as [f_raw H]. exists f_raw. split; [exact H|].
  revert H. unfold raw_axis, in_band, default_srp. cbn [fs n_fft f_low f_high].
  vm_compute. intros H. injection H as <-. repeat split; reflexivity.
Qed.

(** ** Aggregation and decision *)

Lemma fold_fadd_Fin (l : list R) (a : R) :
  fold_left fadd (map Fin l) (Fin a) = Fin (a + Rsum l).
Proof.
  unfold Rsum. revert a. induction l as [|x l IH]; intros a; cbn.
  - f_equal. lra.
  - rewrite IH. f_equal. lra.
Qed.

Lemma fsum_Fin (l : list R) : fsum (map Fin l) = Fin (Rsum l).
Proof. unfold fsum. rewrite fold_fadd_Fin. f_equal. lra. Qed.

Lemma torch_mean_Fin (l : list R) :
  l <> [] -> torch_mean (map Fin l) = Fin (Rmean l).
Proof.
  destruct l as [|x l]; [congruence|]. intros _.
  unfold torch_mean. cbn [map]. change (Fin x :: map Fin l) with (map Fin (x :: l)).
  rewrite fsum_Fin, length_map. reflexivity.
Qed.

Lemma mean_dim0_Fin (A : nat) (g : list (list R)) :
  g <> [] ->
  mean_dim0 torch_mean A (map (map Fin) g) =
  map Fin (map (fun j => Rmean (map (fun row => nth j row 0%R) g)) (seq 0 A)).
Proof.
  intros Hg. unfold mean_dim0. rewrite map_map. apply map_ext. intros j.
  rewrite map_map.
  rewrite (map_ext (fun row => nth j (map Fin row) (Fin 0))
                   (fun row => Fin (nth j row 0%R)))
    by (intros row; apply (map_nth Fin)).
  rewrite <- (map_map (fun row => nth j row 0%R) Fin).
  apply torch_mean_Fin. destruct g; [congruence|discriminate].
Qed.

(** [beats] is the strict part of a total preorder with [NaN] on top. *)
Lemma beats_irrefl (a : fval) : beats a a = false.
Proof.
  destruct a as [|x]; cbn; [reflexivity|].
  destruct (Rlt_dec x x); [exfalso; lra|reflexivity].
Qed.

Lemma beats_asym (a b : fval) : beats a b = true -> beats b a = false.
Proof.
  destruct a as [|x], b as [|y]; cbn; try reflexivity; try discriminate.
  destruct (Rlt_dec y x), (Rlt_dec x y); try reflexivity; try discriminate.
  exfalso; lra.
Qed.

Lemma beats_le_lt (x b v : fval) :
  beats x b = false -> beats v b = true -> beats v x = true.
Proof.
  destruct x as [|x], b as [|b], v as [|v]; cbn; try reflexivity; try discriminate.
  destruct (Rlt_dec b x), (Rlt_dec b v), (Rlt_dec x v);
    try reflexivity; try discriminate.
  exfalso; lra.
Qed.

Lemma beats_le_trans (x b v : fval) :
  beats x b = false -> beats b v = false -> beats x v = false.
Proof.
  destruct x as [|x], b as [|b], v as [|v]; cbn; try reflexivity; try discriminate.
  destruct (Rlt_dec b x), (Rlt_dec v b), (Rlt_dec v x);
    try reflexivity; try discriminate.
  exfalso; lra.
Qed.

Lemma beats_Fin (x y : R) : beats (Fin x) (Fin y) = true <-> (y < x)%R.
Proof.
  cbn. destruct (Rlt_dec y x); split; try reflexivity; try discriminate; tauto.
Qed.

(** The scan of [torch.argmax]: nothing seen beats the value it settles on,
    and that value beats every entry seen before it. *)
Lemma argmax_from_spec (xs : list fval) : forall (i bi : nat) (b : fval),
  (bi < i)%nat ->
  let r := argmax_from xs i bi b in
  let v := if Nat.eqb r bi then b else nth (r - i) xs NaN in
  (r = bi \/ (i <= r < i + length xs)%nat)
  /\ beats b v = false
  /\ (forall k, (k < length xs)%nat -> beats (nth k xs NaN) v = false)
  /\ (r <> bi -> beats v b = true
               /\ forall k, (k < r - i)%nat -> beats v (nth k xs NaN) = true).
Proof.
  induction xs as [|x xs IH]; intros i bi b Hbi.
  - cbn. rewrite Nat.eqb_refl.
    split; [left; reflexivity|]. split; [apply beats_irrefl|].
    split; [intros k Hk; lia|]. intros H; congruence.
  - cbn [argmax_from length].
    destruct (beats x b) eqn:Hxb.
    + specialize (IH (S i) i x (Nat.lt_succ_diag_r i)).
      cbv zeta in IH |- *.
      set (r := argmax_from xs (S i) i x) in *.
      destruct IH as (Hr & Hx & Hall & Hstrict).
      assert (Hrbi : Nat.eqb r bi = false) by (apply Nat.eqb_neq; lia).
      rewrite Hrbi.
      assert (Hv : nth (r - i) (x :: xs) NaN
                   = if Nat.eqb r i then x else nth (r - S i) xs NaN).
      { destruct (Nat.eqb r i) eqn:E.
        - apply Nat.eqb_eq in E. rewrite E, Nat.sub_diag. reflexivity.
        - apply Nat.eqb_neq in E. replace (r - i)%nat with (S (r - S i)) by lia.
          reflexivity. }
      rewrite Hv.
      set (v := if Nat.eqb r i then x else nth (r - S i) xs NaN) in *.
      assert (Hbv : beats b v = false).
      { apply (beats_le_trans b x v); [apply beats_asym; exact Hxb|exact Hx]. }
      split; [right; lia|]. split; [exact Hbv|]. split.
      * intros [|k] Hk; cbn [nth]; [exact Hx|]. apply Hall. lia.
      * intros _. split.
        -- destruct (Nat.eq_dec r i) as [E|E].
           ++ unfold v. rewrite (proj2 (Nat.eqb_eq r i) E). exact Hxb.
           ++ destruct (Hstrict E) as [Hxv _].
              apply (beats_le_lt b x v); [apply beats_asym; exact Hxb|exact Hxv].
        -- intros k Hk. destruct (Nat.eq_dec r i) as [E|E]; [lia|].
           destruct (Hstrict E) as [Hxv Hbefore].
           destruct k as [|k]; cbn [nth]; [exact Hxv|]. apply Hbefore. lia.
    + specialize (IH (S i) bi b (Nat.lt_lt_succ_r _ _ Hbi)).
      cbv zeta in IH |- *.
      set (r := argmax_from xs (S i) bi b) in *.
      destruct IH as (Hr & Hb & Hall & Hstrict).
      assert (Hv : (if Nat.eqb r bi then b else nth (r - i) (x :: xs) NaN)
                   = if Nat.eqb r bi then b else nth (r - S i) xs NaN).
      { destruct (Nat.eqb r bi) eqn:E; [reflexivity|].
        apply Nat.eqb_neq in E. replace (r - i)%nat with (S (r - S i)) by lia.
        reflexivity. }
      rewrite Hv.
      set (v := if Nat.eqb r bi then b else nth (r - S i) xs NaN) in *.
      split; [destruct Hr; [left; assumption|right; lia]|].
      split; [exact Hb|]. split.
      * intros [|k] Hk; cbn [nth]; [|apply Hall; lia].
        apply (beats_le_trans x b v); assumption.
      * intros E. destruct (Hstrict E) as [Hbv Hbefore]. split; [exact Hbv|].
        intros [|k] Hk; cbn [nth]; [|apply Hbefore; lia].
        apply (beats_le_lt x b v); assumption.
Qed.

Lemma torch_argmax_spec (x0 : fval) (xs : list fval) :
  exists idx,
    torch_argmax (x0 :: xs) = inr idx
    /\ (idx < length (x0 :: xs))%nat
    /\ (forall i, (i < length (x0 :: xs))%nat ->
          beats (nth i (x0 :: xs) NaN) (nth idx (x0 :: xs) NaN) = false)
    /\ (forall i, (i < idx)%nat ->
          beats (nth idx (x0 :: xs) NaN) (nth i (x0 :: xs) NaN) = true).
Proof.
  cbn [torch_argmax].
  pose proof (argmax_from_spec xs 1 0 x0 Nat.lt_0_1) as H. cbv zeta in H.
  set (r := argmax_from xs 1 0 x0) in *.
  destruct H as (Hr & Hb & Hall & Hstrict).
  assert (Hv : (if Nat.eqb r 0 then x0 else nth (r - 1) xs NaN) = nth r (x0 :: xs) NaN).
  { destruct r as [|r]; [reflexivity|]. cbn [Nat.eqb nth]. rewrite Nat.sub_succ, Nat.sub_0_r.
    reflexivity. }
  rewrite Hv in *.
  exists r. split; [reflexivity|]. split; [cbn [length]; lia|]. split.
  - intros [|i] Hi; cbn [nth]; [cbn [nth] in Hb; exact Hb|].
    cbn [length] in Hi. apply Hall. lia.
  - intros i Hi. assert (E : r <> 0%nat) by lia.
    destruct (Hstrict E) as [Hbv Hbefore].
    destruct i as [|i]; cbn [nth]; [exact Hbv|]. apply Hbefore. lia.
Qed.

Lemma mean_dim0_length mean A pm : length (mean_dim0 mean A pm) = A.
Proof. unfold mean_dim0. rewrite length_map, length_seq. reflexivity. Qed.

Lemma mean_dim0_nth mean A pm j :
  (j < A)%nat ->
  nth j (mean_dim0 mean A pm) NaN = mean (map (fun row => nth j row (Fin 0)) pm).
Proof.
  intros Hj. unfold mean_dim0.
  rewrite (nth_indep _ NaN (mean (map (fun row => nth 0%nat row (Fin 0)) pm)))
    by (rewrite length_map, length_seq; exact Hj).
  rewrite (map_nth (fun j => mean (map (fun row => nth j row (Fin 0)) pm))).
  rewrite seq_nth by exact Hj. reflexivity.
Qed.

(** Lines 92 to 95 on a grid with at least one angle column. *)
Lemma aggregate_spec (mean : list fval -> fval) (res : Q) (A : nat)
    (power_map : list (list fval)) :
  (0 < A)%nat ->
  exists idx,
    aggregate mean res A power_map
      = inr (index_to_deg idx res, mean_dim0 mean A power_map)
    /\ (idx < A)%nat
    /\ (forall i, (i < A)%nat ->
          beats (nth i (mean_dim0 mean A power_map) NaN)
                (nth idx (mean_dim0 mean A power_map) NaN) = false)
    /\ (forall i, (i < idx)%nat ->
          beats (nth idx (mean_dim0 mean A power_map) NaN)
                (nth i (mean_dim0 mean A power_map) NaN) = true).
Proof.
  intros HA. unfold aggregate.
  pose proof (mean_dim0_length mean A power_map) as Hlen.
  destruct (mean_dim0 mean A power_map) as [|x0 xs] eqn:Ec; [cbn in Hlen; lia|].
  destruct (torch_argmax_spec x0 xs) as (idx & Harg & Hidx & Hmax & Hfirst).
  exists idx. rewrite Harg. cbn [bind].
  split; [reflexivity|]. rewrite <- Hlen. split; [exact Hidx|].
  split; [exact Hmax|exact Hfirst].
Qed.

(** C3. On a power grid with at least one angle column the aggregation
    returns the curve whose entry [j] is the reduction [mean] of column [j]
    of the grid over the frequency rows (one entry per angle; with the mean
    of the reals on a grid of numbers with at least one row, their
    unweighted arithmetic mean), the first index at which that curve is
    maximal (no entry is above the entry there, and that entry is above
    every earlier one; an undefined entry counts as the largest), and for
    that index the float32 value of [index * resolution - 90]. *)
Theorem aggregation_decision (mean : list fval -> fval) (res : Q) (A : nat)
    (power_map : list (list fval)) :
  (0 < A)%nat ->
  exists (idx : nat) (curve : list fval),
    aggregate mean res A power_map
      = inr (flt_sub binary32
               (flt_mul binary32 (binary32 (inject_Z (Z.of_nat idx)))
                        (to_f32 (binary64 res)))
               (Fnum 90),
             curve)
    /\ length curve = A
    /\ (forall j, (j < A)%nat ->
          nth j curve NaN = mean (map (fun row => nth j row (Fin 0)) power_map))
    /\ (forall g : list (list R),
          mean = torch_mean -> g <> [] -> power_map = map (map Fin) g ->
          forall j, (j < A)%nat ->
            nth j curve NaN = Fin (Rmean (map (fun row => nth j row 0%R) g)))
    /\ (idx < A)%nat
    /\ (forall i, (i < A)%nat -> beats (nth i curve NaN) (nth idx curve NaN) = false)
    /\ (forall i, (i < idx)%nat -> beats (nth idx curve NaN) (nth i curve NaN) = true)
    /\ (forall xs : list R, curve = map Fin xs ->
          (forall i, (i < A)%nat -> (nth i xs 0 <= nth idx xs 0)%R)
          /\ (forall i, (i < idx)%nat -> (nth i xs 0 < nth idx xs 0)%R)).
Proof.
  intros HA.
  destruct (aggregate_spec mean res A power_map HA) as (idx & Hagg & Hidx & Hmax & Hfirst).
  exists idx, (mean_dim0 mean A power_map).
  split; [exact Hagg|].
  split; [apply mean_dim0_length|].
  split; [intros j Hj; apply mean_dim0_nth; exact Hj|].
  split.
  { intros g -> Hg -> j Hj. rewrite (mean_dim0_Fin A g Hg).
    rewrite (nth_indep _ NaN (Fin 0)) by (rewrite !length_map, length_seq; exact Hj).
    rewrite (map_nth Fin).
    rewrite (nth_indep _ 0%R (Rmean (map (fun row => nth 0%nat row 0%R) g)))
      by (rewrite length_map, length_seq; exact Hj).
    rewrite (map_nth (fun j => Rmean (map (fun row => nth j row 0%R) g))).
    rewrite seq_nth by exact Hj. reflexivity. }
  split; [exact Hidx|]. split; [exact Hmax|]. split; [exact Hfirst|].
  intros xs Hxs.
  assert (Hlen : length xs = A).
  { rewrite <- (mean_dim0_length mean A power_map), Hxs, length_map. reflexivity. }
  assert (Hn : forall i, (i < A)%nat ->
                 nth i (mean_dim0 mean A power_map) NaN = Fin (nth i xs 0%R)).
  { intros i Hi. rewrite Hxs.
    rewrite (nth_indep _ NaN (Fin 0)) by (rewrite length_map, Hlen; exact Hi).
    apply (map_nth Fin). }
  split.
  - intros i Hi. specialize (Hmax i Hi). rewrite (Hn i Hi), (Hn idx Hidx) in Hmax.
    destruct (Rle_dec (nth i xs 0%R) (nth idx xs 0%R)) as [H|H]; [exact H|].
    exfalso. assert (Hb : beats (Fin (nth i xs 0%R)) (Fin (nth idx xs 0%R)) = true)
      by (apply beats_Fin; lra).
    congruence.
  - intros i Hi. specialize (Hfirst i Hi).
    rewrite (Hn i (Nat.lt_trans _ _ _ Hi Hidx)), (Hn idx Hidx) in Hfirst.
    apply beats_Fin. exact Hfirst.
Qed.

Lemma aggregation_decision_witness :
  exists (curve : list fval),
    aggregate torch_mean (1 # 2) 3 (map (map Fin) [[1; 3; 3]; [3; 5; 5]]%R)
      = inr (Fnum (- 179 # 2), curve)
    /\ curve = [Fin (Rmean [1; 3]); Fin (Rmean [3; 5]); Fin (Rmean [3; 5])]%R.
Proof.
  destruct (aggregation_decision torch_mean (1 # 2) 3
              (map (map Fin) [[1; 3; 3]; [3; 5; 5]]%R) ltac:(lia))
    as (idx & curve & Hagg & Hlen & _ & Hmean & Hidx & Hmax & Hfirst & _).
  specialize (Hmean [[1; 3; 3]; [3; 5; 5]]%R eq_refl ltac:(discriminate) eq_refl).
  assert (Hc : curve = [Fin (Rmean [1; 3]); Fin (Rmean [3; 5]); Fin (Rmean [3; 5])]%R).
  { destruct curve as [|c0 [|c1 [|c2 [|c3 curve]]]]; try discriminate Hlen.
    pose proof (Hmean 0%nat ltac:(lia)) as H0.
    pose proof (Hmean 1%nat ltac:(lia)) as H1.
    pose proof (Hmean 2%nat ltac:(lia)) as H2.
    cbn in H0, H1, H2. subst. reflexivity. }
  exists curve. split; [|exact Hc].
  assert (Hi : idx = 1%nat).
  { subst curve.
    assert (H01 : beats (Fin (Rmean [1; 3]%R)) (Fin (Rmean [3; 5]%R)) = false).
    { destruct (beats _ _) eqn:E; [|reflexivity]. apply beats_Fin in E.
      unfold Rmean, Rsum in E. cbn in E. lra. }
    assert (H10 : beats (Fin (Rmean [3; 5]%R)) (Fin (Rmean [1; 3]%R)) = true).
    { apply beats_Fin. unfold Rmean, Rsum. cbn. lra. }
    destruct idx as [|[|[|idx]]]; [| reflexivity | | lia].
    - specialize (Hmax 1%nat ltac:(lia)). cbn [nth] in Hmax. congruence.
    - specialize (Hfirst 1%nat ltac:(lia)). cbn [nth] in Hfirst.
      rewrite beats_irrefl in Hfirst. discriminate. }
  subst idx. rewrite Hagg. reflexivity.
Defined.

(** On a tie the earlier index wins: the curve 1, 3, 3 has its arg-max at
    index 1. *)
Example argmax_tie : torch_argmax [Fin 1; Fin 3; Fin 3] = inr 1%nat.
Proof.
  cbn [torch_argmax argmax_from beats].
  destruct (Rlt_dec 1 3) as [_|H]; [|exfalso; lra].
  cbn [argmax_from beats].
  destruct (Rlt_dec 3 3) as [H|_]; [exfalso; lra|]. reflexivity.
Qed.

(** The selection is made on the curve as the reduction returns it: on the
    grid with the rows 1, 1 and 1, 1 + 2^-23 a float32 mean returns 1 for
    both columns (the sum 2 + 2^-23 is rounded to 2), and index 0 is
    selected. *)
Example aggregation_rounded_tie (mean : list fval -> fval) (res : Q) :
  mean [Fin 1; Fin 1] = Fin 1 ->
  mean [Fin 1; Fin (1 + / 8388608)] = Fin 1 ->
  aggregate mean res 2 [[Fin 1; Fin 1]; [Fin 1; Fin (1 + / 8388608)]]
  = inr (index_to_deg 0 res, [Fin 1; Fin 1]).
Proof.
  intros H0 H1. unfold aggregate, mean_dim0. cbn [seq map nth bind].
  rewrite H0, H1. cbn [torch_argmax argmax_from]. rewrite beats_irrefl. reflexivity.
Qed.

(** The angle is a float32 number: with the default resolution of 0.5 and
    the last index 360 it is 90, with a resolution of 0.1 and index 1789 it
    is 88.90000915527344, and with a resolution of 180/81 and the last index
    81 it is 90.00001525878906. *)
Example index_to_deg_values :
  index_to_deg 360 (1 # 2) = Fnum 90
  /\ index_to_deg 1789 (1 # 10) = Fnum (5826151 # 65536)
  /\ index_to_deg 81 (180 # 81) = Fnum (5898241 # 65536)
  /\ index_to_deg 0 (1 # 2) = Fnum (-90).
Proof. vm_compute. repeat split; reflexivity. Qed.

(** ** The steering vector *)

Lemma Q2R_nat (n : nat) : Q2R (inject_Z (Z.of_nat n)) = INR n.
Proof.
  unfold Q2R. cbn [Qnum Qden inject_Z]. rewrite INR_IZR_INZ. field.
Qed.

Lemma Q2R_neq_0 (q : Q) : ~ q == 0 -> Q2R q <> 0%R.
Proof.
  intros Hq H. apply Hq. apply eqR_Qeq. rewrite H. unfold Q2R. cbn. lra.
Qed.

(** [torch.linspace(0, M - 1, M)] is the ramp 0, 1, ..., M - 1. *)
Lemma ramp_length (M : nat) (ramp : list Q) :
  torch_linspace 0 (inject_Z (Z.of_nat M) - 1) (Z.of_nat M) = inr ramp ->
  length ramp = M.
Proof.
  intros H. rewrite (torch_linspace_length _ _ _ _ H). apply Nat2Z.id.
Qed.

Lemma ramp_nth (M : nat) (ramp : list Q) (m : nat) :
  torch_linspace 0 (inject_Z (Z.of_nat M) - 1) (Z.of_nat M) = inr ramp ->
  (m < M)%nat ->
  Q2R (nth m ramp 0) = INR m.
Proof.
  intros H Hm. rewrite <- Q2R_nat. apply Qeq_eqR.
  rewrite (torch_linspace_nth _ _ _ _ m H) by (rewrite (ramp_length M ramp H); exact Hm).
  destruct (Nat.eq_dec M 1) as [->|HM].
  - assert (m = 0%nat) by lia. subst m. cbn [Z.of_nat].
    setoid_replace (inject_Z 0) with 0 by reflexivity. ring.
  - assert (Hne : ~ inject_Z (Z.of_nat M) - 1 == 0).
    { intros E. apply HM.
      assert (E' : inject_Z (Z.of_nat M) == inject_Z 1).
      { setoid_replace (inject_Z 1) with 1 by reflexivity.
        setoid_replace (inject_Z (Z.of_nat M)) with (inject_Z (Z.of_nat M) - 1 + 1) by ring.
        rewrite E. ring. }
      unfold Qeq in E'. cbn [inject_Z Qnum Qden] in E'. lia. }
    unfold Zminus. rewrite inject_Z_plus.
    setoid_replace (inject_Z (-1)) with (- (1)) by reflexivity.
    field. exact Hne.
Qed.

Lemma Cexp_neg_j (p : R) : Cexp (Cmul (0, -1) (p, 0))%R = Cexp (0, - p)%R.
Proof.
  unfold Cmul. cbn [fst snd]. f_equal. f_equal; ring.
Qed.

Lemma steering_polar (self : SRP) (theta_deg f : Q) (m : nat) :
  steering self theta_deg f m =
  (cos (steering_phase self theta_deg f m), - sin (steering_phase self theta_deg f m))%R.
Proof.
  unfold steering, Cexp. cbn [fst snd]. rewrite exp_0, cos_neg, sin_neg. f_equal; ring.
Qed.

Lemma steer_vec_row (self : SRP) (ts : R) (f_analog ramp : list Q) (k : nat) :
  (k < length f_analog)%nat ->
  nth k (steer_vec self ts f_analog ramp) []
  = map (fun m => steer_entry self ts (nth k f_analog 0) m) ramp.
Proof.
  intros Hk. unfold steer_vec.
  rewrite (nth_indep _ [] (map (fun m => steer_entry self ts 0 m) ramp))
    by (rewrite length_map; exact Hk).
  apply (map_nth (fun f => map (fun m => steer_entry self ts f m) ramp)).
Qed.

Lemma theta_sin_nth (theta : list Q) (j : nat) :
  (j < length theta)%nat ->
  nth j (map (fun q => sin (deg2rad (Q2R q))) theta) 0%R
  = sin (Q2R (nth j theta 0) * (PI / 180)).
Proof.
  intros Hj.
  rewrite (nth_indep _ 0%R (sin (deg2rad (Q2R 0)))) by (rewrite length_map; exact Hj).
  rewrite (map_nth (fun q => sin (deg2rad (Q2R q)))). reflexivity.
Qed.

Lemma steer_entry_steering (self : SRP) (theta_deg f q : Q) (m : nat) :
  ~ c self == 0 ->
  Q2R q = INR m ->
  steer_entry self (sin (Q2R theta_deg * (PI / 180))) f q
  = CFin (steering self theta_deg f m).
Proof.
  intros Hc Hq. unfold steer_entry, phase.
  destruct (Qeq_bool (c self) 0) eqn:E; [apply Qeq_bool_iff in E; contradiction|].
  rewrite Cexp_neg_j. unfold steering, steering_phase.
  rewrite Q2R_mult, Hq. do 3 f_equal. unfold Rdiv. ring.
Qed.

(** The entry of [steer_vec] at angle index [j], frequency row [k] and
    channel [m], for a non-zero [c]. *)
Lemma steer_vec_entry (self : SRP) (M : nat) (theta ramp f_analog : list Q)
    (j k m : nat) :
  ~ c self == 0 ->
  torch_linspace 0 (inject_Z (Z.of_nat M) - 1) (Z.of_nat M) = inr ramp ->
  (j < length theta)%nat ->
  (k < length f_analog)%nat ->
  (m < M)%nat ->
  nth m (nth k (steer_vec self
                  (nth j (map (fun q => sin (deg2rad (Q2R q))) theta) 0%R)
                  f_analog ramp) []) CNaN
  = CFin (steering self (nth j theta 0) (nth k f_analog 0) m).
Proof.
  intros Hc Hramp Hj Hk Hm.
  rewrite steer_vec_row by exact Hk. rewrite theta_sin_nth by exact Hj.
  rewrite (nth_indep _ CNaN
             (steer_entry self (sin (Q2R (nth j theta 0) * (PI / 180))) (nth k f_analog 0) 0))
    by (rewrite length_map, (ramp_length M ramp Hramp); exact Hm).
  rewrite (map_nth (fun m => steer_entry self _ (nth k f_analog 0) m)).
  apply steer_entry_steering; [exact Hc|].
  apply (ramp_nth M ramp m Hramp Hm).
Qed.

(** ** The power grid *)

Lemma length_set_nth {X : Type} (j : nat) (v : X) (l : list X) :
  length (set_nth j v l) = length l.
Proof.
  revert j. induction l as [|x l IH]; intros [|j]; cbn; try reflexivity.
  rewrite IH. reflexivity.
Qed.

Lemma nth_set_nth_same {X : Type} (j : nat) (v d : X) (l : list X) :
  (j < length l)%nat -> nth j (set_nth j v l) d = v.
Proof.
  revert j. induction l as [|x l IH]; intros [|j] Hj; cbn in *; try lia; try reflexivity.
  apply IH. lia.
Qed.

Lemma nth_set_nth_other {X : Type} (i j : nat) (v d : X) (l : list X) :
  i <> j -> nth i (set_nth j v l) d = nth i l d.
Proof.
  revert i j. induction l as [|x l IH]; intros [|i] [|j] Hij; cbn; try reflexivity; try lia.
  apply IH. lia.
Qed.

Lemma length_set_column (j : nat) (col : list fval) (pm : list (list fval)) :
  length col = length pm -> length (set_column j col pm) = length pm.
Proof.
  intros H. unfold set_column. rewrite length_map, length_combine, H. apply Nat.min_id.
Qed.

Lemma nth_set_column (j k : nat) (col : list fval) (pm : list (list fval)) :
  length col = length pm ->
  (k < length pm)%nat ->
  nth k (set_column j col pm) [] = set_nth j (nth k col (Fin 0)) (nth k pm []).
Proof.
  intros Hlen Hk. unfold set_column.
  rewrite (nth_indep _ [] ((fun rv => set_nth j (snd rv) (fst rv)) ([], Fin 0)))
    by (rewrite length_map, length_combine, Hlen, Nat.min_id; exact Hk).
  rewrite (map_nth (fun rv : list fval * fval => set_nth j (snd rv) (fst rv))).
  rewrite combine_nth by (symmetry; exact Hlen). reflexivity.
Qed.

Lemma zeros_shape (F A : nat) :
  length (zeros F A) = F /\ rows_of_length A (zeros F A).
Proof.
  unfold zeros, rows_of_length. rewrite repeat_length. split; [reflexivity|].
  intros k Hk. rewrite nth_repeat_lt by exact Hk. apply repeat_length.
Qed.

(** Invariant of the column loop: after the columns [0 .. n-1] are written,
    those columns hold what was written and the others are untouched. *)
Lemma column_loop (col : nat -> list fval) (F A : nat) (pm0 : list (list fval)) :
  length pm0 = F ->
  rows_of_length A pm0 ->
  (forall j, length (col j) = F) ->
  forall n, (n <= A)%nat ->
  let pm := fold_left (fun pm j => set_column j (col j) pm) (seq 0 n) pm0 in
  length pm = F
  /\ rows_of_length A pm
  /\ forall k j, (k < F)%nat ->
       nth j (nth k pm []) (Fin 0)
       = if Nat.ltb j n then nth k (col j) (Fin 0) else nth j (nth k pm0 []) (Fin 0).
Proof.
  intros HF HA Hcol n. induction n as [|n IH]; intros Hn; cbv zeta.
  - cbn [seq fold_left]. split; [exact HF|]. split; [exact HA|]. reflexivity.
  - rewrite seq_S, fold_left_app. cbn [fold_left Nat.add].
    destruct (IH (Nat.lt_le_incl _ _ Hn)) as (HF' & HA' & Hent). cbv zeta in *.
    set (pm := fold_left (fun pm j => set_column j (col j) pm) (seq 0 n) pm0) in *.
    assert (Hc : length (col n) = length pm) by (rewrite HF'; apply Hcol).
    split; [rewrite length_set_column; assumption|]. split.
    + intros k Hk. rewrite length_set_column in Hk by exact Hc.
      rewrite nth_set_column by assumption. rewrite length_set_nth. apply HA'. exact Hk.
    + intros k j Hk. rewrite nth_set_column by (try assumption; rewrite HF'; exact Hk).
      destruct (Nat.eq_dec j n) as [->|Hjn].
      * rewrite nth_set_nth_same by (rewrite HA'; [lia|rewrite HF'; exact Hk]).
        replace (Nat.ltb n (S n)) with true by (symmetry; apply Nat.ltb_lt; lia).
        reflexivity.
      * rewrite nth_set_nth_other by exact Hjn. rewrite Hent by exact Hk.
        destruct (Nat.ltb j n) eqn:E1; destruct (Nat.ltb j (S n)) eqn:E2; try reflexivity.
        -- apply Nat.ltb_lt in E1. apply Nat.ltb_ge in E2. lia.
        -- apply Nat.ltb_ge in E1. apply Nat.ltb_lt in E2. lia.
Qed.

Lemma length_steer_vec (self : SRP) (ts : R) (f_analog ramp : list Q) :
  length (steer_vec self ts f_analog ramp) = length f_analog.
Proof. unfold steer_vec. apply length_map. Qed.

Lemma length_power_column (self : SRP) (sig_stft : tensor3) (f_analog ramp : list Q) (ts : R) :
  length (power_column self sig_stft f_analog ramp ts) = length f_analog.
Proof.
  unfold power_column.
  rewrite length_map, length_combine, length_seq, length_steer_vec. apply Nat.min_id.
Qed.

Lemma nth_power_column (self : SRP) (sig_stft : tensor3) (f_analog ramp : list Q) (ts : R)
    (k : nat) :
  (k < length f_analog)%nat ->
  nth k (power_column self sig_stft f_analog ramp ts) (Fin 0)
  = fsquare (response_norm sig_stft (nth k (steer_vec self ts f_analog ramp) []) k).
Proof.
  intros Hk. unfold power_column.
  set (g := fun ks : nat * list cval => fsquare (response_norm sig_stft (snd ks) (fst ks))).
  rewrite (nth_indep _ (Fin 0) (g (0%nat, [])))
    by (rewrite length_map, length_combine, length_seq, length_steer_vec, Nat.min_id; exact Hk).
  rewrite (map_nth g).
  rewrite combine_nth by (rewrite length_seq, length_steer_vec; reflexivity).
  rewrite seq_nth by exact Hk. reflexivity.
Qed.

(** Every entry of the grid after the sweep, in terms of the tensor
    operations of the loop body. *)
Lemma sweep_entry (self : SRP) (sig_stft : tensor3) (f_analog ramp : list Q)
    (theta_sin : list R) (j k : nat) :
  (j < length theta_sin)%nat ->
  (k < length f_analog)%nat ->
  nth j (nth k (sweep self sig_stft f_analog theta_sin ramp) []) (Fin 0)
  = fsquare (response_norm sig_stft
               (nth k (steer_vec self (nth j theta_sin 0%R) f_analog ramp) []) k).
Proof.
  intros Hj Hk. unfold sweep.
  destruct (zeros_shape (length f_analog) (length theta_sin)) as [HF HA].
  destruct (column_loop
              (fun j => power_column self sig_stft f_analog ramp (nth j theta_sin 0%R))
              (length f_analog) (length theta_sin) _ HF HA
              (fun j => length_power_column self sig_stft f_analog ramp _)
              (length theta_sin) (Nat.le_refl _)) as (_ & _ & Hent).
  cbv zeta in Hent. rewrite Hent by exact Hk.
  replace (Nat.ltb j (length theta_sin)) with true by (symmetry; apply Nat.ltb_lt; exact Hj).
  apply nth_power_column. exact Hk.
Qed.

Lemma sweep_shape (self : SRP) (sig_stft : tensor3) (f_analog ramp : list Q)
    (theta_sin : list R) :
  length (sweep self sig_stft f_analog theta_sin ramp) = length f_analog
  /\ rows_of_length (length theta_sin) (sweep self sig_stft f_analog theta_sin ramp).
Proof.
  unfold sweep.
  destruct (zeros_shape (length f_analog) (length theta_sin)) as [HF HA].
  destruct (column_loop
              (fun j => power_column self sig_stft f_analog ramp (nth j theta_sin 0%R))
              (length f_analog) (length theta_sin) _ HF HA
              (fun j => length_power_column self sig_stft f_analog ramp _)
              (length theta_sin) (Nat.le_refl _)) as (H1 & H2 & _).
  split; assumption.
Qed.

Lemma Cadd_0_r (a : cplx) : Cadd a (0, 0)%R = a.
Proof. destruct a as [x y]. unfold Cadd. cbn [fst snd]. f_equal; lra. Qed.

Lemma Cadd_assoc (a b d : cplx) : Cadd (Cadd a b) d = Cadd a (Cadd b d).
Proof. unfold Cadd. cbn [fst snd]. f_equal; lra. Qed.

Lemma fold_cadd_CFin (zs : list cplx) (a : cplx) :
  fold_left cadd (map CFin zs) (CFin a) = CFin (Cadd a (Csum zs)).
Proof.
  revert a. induction zs as [|z zs IH]; intros a; cbn [map fold_left Csum fold_right].
  - rewrite Cadd_0_r. reflexivity.
  - cbn [cadd]. rewrite IH, Cadd_assoc. reflexivity.
Qed.

Lemma Cadd_0_l (a : cplx) : Cadd (0, 0)%R a = a.
Proof. destruct a as [x y]. unfold Cadd. cbn [fst snd]. f_equal; lra. Qed.

Lemma combine_map_same {X Y Z : Type} (f : X -> Y) (g : X -> Z) (l : list X) :
  combine (map f l) (map g l) = map (fun x => (f x, g x)) l.
Proof. induction l as [|x l IH]; cbn; [reflexivity|]. rewrite IH. reflexivity. Qed.

Lemma map_seq_nth {X : Type} (l : list X) (d : X) :
  l = map (fun i => nth i l d) (seq 0 (length l)).
Proof.
  apply (nth_ext _ _ d d).
  - rewrite length_map, length_seq. reflexivity.
  - intros i Hi.
    rewrite (nth_indep (map _ _) d (nth 0 l d)) by (rewrite length_map, length_seq; exact Hi).
    rewrite (map_nth (fun i => nth i l d)). rewrite seq_nth by exact Hi. reflexivity.
Qed.

(** With a non-zero [c] and aligned frequency dimensions, the matrix product
    of the loop body is the delay-and-sum response. *)
Lemma response_complex_beam (self : SRP) (sig_stft : tensor3) (theta f_analog ramp : list Q)
    (j k t : nat) :
  ~ c self == 0 ->
  torch_linspace 0 (inject_Z (Z.of_nat (dim0 sig_stft)) - 1) (Z.of_nat (dim0 sig_stft))
    = inr ramp ->
  dim1 sig_stft = length f_analog ->
  (j < length theta)%nat ->
  (k < length f_analog)%nat ->
  response_complex sig_stft
    (nth k (steer_vec self (nth j (map (fun q => sin (deg2rad (Q2R q))) theta) 0%R)
                      f_analog ramp) []) k t
  = CFin (beam self sig_stft (nth j theta 0) (nth k f_analog 0) k t).
Proof.
  intros Hc Hramp Hdim Hj Hk.
  unfold response_complex, dot, sig_row.
  assert (Hk' : (if Nat.eqb (dim1 sig_stft) 1 then 0%nat else k) = k).
  { destruct (Nat.eqb (dim1 sig_stft) 1) eqn:E; [|reflexivity].
    apply Nat.eqb_eq in E. lia. }
  rewrite Hk'.
  set (row := nth k (steer_vec self _ f_analog ramp) []).
  assert (Hrow : row = map (fun m => CFin (steering self (nth j theta 0) (nth k f_analog 0) m))
                           (seq 0 (dim0 sig_stft))).
  { assert (Hlen : length row = dim0 sig_stft).
    { unfold row. rewrite steer_vec_row by exact Hk.
      rewrite length_map. apply (ramp_length _ _ Hramp). }
    rewrite (map_seq_nth row CNaN), Hlen. apply map_ext_in. intros m Hm.
    apply in_seq in Hm. unfold row.
    apply (steer_vec_entry self (dim0 sig_stft) theta ramp f_analog j k m);
      try assumption. lia. }
  rewrite Hrow, combine_map_same, map_map. cbn [fst snd cmul].
  rewrite <- (map_map (fun m => Cmul (at3 sig_stft m k t)
                                   (steering self (nth j theta 0) (nth k f_analog 0) m)) CFin).
  rewrite fold_cadd_CFin, Cadd_0_l. reflexivity.
Qed.

Lemma power_entry_finite (self : SRP) (sig_stft : tensor3) (theta f_analog ramp : list Q)
    (j k : nat) :
  ~ c self == 0 ->
  torch_linspace 0 (inject_Z (Z.of_nat (dim0 sig_stft)) - 1) (Z.of_nat (dim0 sig_stft))
    = inr ramp ->
  dim1 sig_stft = length f_analog ->
  (0 < dim2 sig_stft)%nat ->
  (j < length theta)%nat ->
  (k < length f_analog)%nat ->
  nth j (nth k (sweep self sig_stft f_analog
                  (map (fun q => sin (deg2rad (Q2R q))) theta) ramp) []) (Fin 0)
  = Fin (Rsqr (Rmean (map (fun t => Cabs (beam self sig_stft (nth j theta 0)
                                                (nth k f_analog 0) k t))
                          (seq 0 (dim2 sig_stft))))).
Proof.
  intros Hc Hramp Hdim HT Hj Hk.
  rewrite sweep_entry by (try exact Hk; rewrite length_map; exact Hj).
  unfold response_norm.
  rewrite (map_ext _ (fun t => Fin (Cabs (beam self sig_stft (nth j theta 0)
                                               (nth k f_analog 0) k t)))).
  2:{ intros t. rewrite (response_complex_beam self sig_stft theta f_analog ramp j k t)
        by assumption. reflexivity. }
  rewrite <- (map_map (fun t => Cabs (beam self sig_stft (nth j theta 0)
                                          (nth k f_analog 0) k t)) Fin).
  rewrite torch_mean_Fin.
  - reflexivity.
  - destruct (dim2 sig_stft); [lia|]. cbn. discriminate.
Qed.

(** On [two_frames], at angle 0, the magnitudes of the response are 0 and 2:
    the square of their mean is 1, the mean of their squares is 2. *)
Lemma two_frames_magnitudes (t : nat) :
  Cabs (beam small_srp two_frames 0 2000 0 t) = match t with O => 0%R | S _ => 2%R end.
Proof.
  unfold beam. cbn [dim0 two_frames seq map Csum fold_right at3].
  rewrite steering_polar. unfold steering_phase. cbn [INR].
  replace (2 * PI * sin (Q2R 0 * (PI / 180)) * Q2R (d_inter small_srp) * Q2R 2000 * 0
           / Q2R (c small_srp))%R with 0%R by (unfold Rdiv; ring).
  rewrite cos_0, sin_0. unfold Cabs, Cadd, Cmul. destruct t as [|t]; cbn [fst snd].
  - replace ((0 * 1 - 0 * - 0 + 0) * (0 * 1 - 0 * - 0 + 0)
             + (0 * - 0 + 0 * 1 + 0) * (0 * - 0 + 0 * 1 + 0))%R with 0%R by ring.
    apply sqrt_0.
  - replace ((2 * 1 - 0 * - 0 + 0) * (2 * 1 - 0 * - 0 + 0)
             + (2 * - 0 + 0 * 1 + 0) * (2 * - 0 + 0 * 1 + 0))%R with (2 * 2)%R by ring.
    apply sqrt_square. lra.
Qed.

Lemma square_of_mean_is_not_mean_of_squares :
  nth 0 (nth 0 (sweep small_srp two_frames [2000]
                  (map (fun q => sin (deg2rad (Q2R q))) [0]) [0]) []) (Fin 0)
  <> Fin (Rmean (map (fun t => Rsqr (Cabs (beam small_srp two_frames 0 2000 0 t)))
                     (seq 0 (dim2 two_frames)))).
Proof.
  rewrite (power_entry_finite small_srp two_frames [0] [2000] [0] 0 0);
    [| cbn; discriminate | reflexivity | reflexivity | cbn; lia | cbn; lia | cbn; lia].
  cbn [nth dim2 two_frames seq map]. rewrite !two_frames_magnitudes.
  unfold Rmean, Rsum, Rsqr. cbn [fold_right length INR].
  intros H. injection H as H. lra.
Qed.

(** C1. After the sweep, the grid entry at frequency row [k] and angle index
    [j] is the square of the mean over the time frames of the magnitude of
    the loop body's response; with a non-zero [c], aligned frequency
    dimensions and at least one frame, it is the square of the unweighted
    mean over [t] of the magnitude of the delay-and-sum response, which on
    some input differs from the mean over [t] of the squared magnitudes. *)
Theorem power_grid_entry (self : SRP) (sig_stft : tensor3) (theta f_analog ramp : list Q)
    (j k : nat) :
  (j < length theta)%nat ->
  (k < length f_analog)%nat ->
  let theta_sin := map (fun q => sin (deg2rad (Q2R q))) theta in
  let power_map := sweep self sig_stft f_analog theta_sin ramp in
  nth j (nth k power_map []) (Fin 0)
    = fsquare (torch_mean
                 (map (fun t => cabs (response_complex sig_stft
                                        (nth k (steer_vec self (nth j theta_sin 0%R)
                                                          f_analog ramp) []) k t))
                      (seq 0 (dim2 sig_stft))))
  /\ (~ c self == 0 ->
      torch_linspace 0 (inject_Z (Z.of_nat (dim0 sig_stft)) - 1) (Z.of_nat (dim0 sig_stft))
        = inr ramp ->
      dim1 sig_stft = length f_analog ->
      (0 < dim2 sig_stft)%nat ->
      nth j (nth k power_map []) (Fin 0)
        = Fin (Rsqr (Rmean (map (fun t => Cabs (beam self sig_stft (nth j theta 0)
                                                     (nth k f_analog 0) k t))
                                (seq 0 (dim2 sig_stft))))))
  /\ (exists self' sig' theta' f' ramp',
        nth 0 (nth 0 (sweep self' sig' f'
                        (map (fun q => sin (deg2rad (Q2R q))) theta') ramp') []) (Fin 0)
        <> Fin (Rmean (map (fun t => Rsqr (Cabs (beam self' sig' (nth 0 theta' 0)
                                                      (nth 0 f' 0) 0 t)))
                           (seq 0 (dim2 sig'))))).
Proof.
  intros Hj Hk theta_sin power_map. split; [|split].
  - unfold power_map. rewrite sweep_entry by (try exact Hk; unfold theta_sin; rewrite length_map; exact Hj).
    reflexivity.
  - intros Hc Hramp Hdim HT. apply power_entry_finite; assumption.
  - exists small_srp, two_frames, [0], [2000], [0].
    exact square_of_mean_is_not_mean_of_squares.
Qed.

Lemma power_grid_entry_witness :
  nth 0 (nth 0 (sweep small_srp two_frames [2000]
                  (map (fun q => sin (deg2rad (Q2R q))) [0]) [0]) []) (Fin 0)
  = Fin (Rsqr (Rmean (map (fun t => Cabs (beam small_srp two_frames 0 2000 0 t))
                          (seq 0 (dim2 two_frames))))).
Proof.
  apply (power_grid_entry small_srp two_frames [0] [2000] [0] 0 0).
  - cbn; lia.
  - cbn; lia.
  - cbn. discriminate.
  - reflexivity.
  - reflexivity.
  - cbn; lia.
Defined.

(** ** How [srp_ula] and [forward] return *)

Lemma torch_linspace_ok (start stop : Q) (steps : Z) :
  (0 <= steps)%Z ->
  exists l, torch_linspace start stop steps = inr l /\ length l = Z.to_nat steps.
Proof.
  intros H. unfold torch_linspace.
  destruct (steps <? 0)%Z eqn:E; [apply Z.ltb_lt in E; lia|].
  destruct (steps =? 1)%Z eqn:E1.
  - apply Z.eqb_eq in E1. subst. eexists. split; reflexivity.
  - eexists. split; [reflexivity|]. rewrite length_map, length_seq. reflexivity.
Qed.

Lemma aggregate_inv mean (res : Q) (A : nat) (pm : list (list fval)) (doa : flt)
    (curve : list fval) :
  aggregate mean res A pm = inr (doa, curve) ->
  curve = mean_dim0 mean A pm
  /\ exists idx, torch_argmax curve = inr idx /\ doa = index_to_deg idx res.
Proof.
  unfold aggregate.
  destruct (torch_argmax (mean_dim0 mean A pm)) as [e|idx] eqn:E; [discriminate|].
  cbn [bind]. intros H. inversion H; subst. split; [reflexivity|].
  exists idx. split; [exact E|reflexivity].
Qed.

(** What a returning call of [srp_ula] went through. *)
Lemma srp_ula_inv (self : SRP) (sig_stft : tensor3) (f_analog : list Q)
    (doa : flt) (curve : list fval) :
  srp_ula self sig_stft f_analog = inr (doa, curve) ->
  exists (n : Z) (theta ramp : list Q),
    angle_count self = inr n
    /\ torch_linspace (-90) 90 n = inr theta
    /\ torch_linspace 0 (inject_Z (Z.of_nat (dim0 sig_stft)) - 1) (Z.of_nat (dim0 sig_stft))
       = inr ramp
    /\ shapes_agree sig_stft f_analog = true
    /\ aggregate torch_mean (resolution self) (length theta)
         (sweep self sig_stft f_analog (map (fun q => sin (deg2rad (Q2R q))) theta) ramp)
       = inr (doa, curve).
Proof.
  unfold srp_ula. intros H.
  destruct (angle_count self) as [e|n] eqn:En; [discriminate|]. cbn [bind] in H.
  destruct (torch_linspace (-90) 90 n) as [e|theta] eqn:Et; [discriminate|]. cbn [bind] in H.
  destruct (torch_linspace 0 _ _) as [e|ramp] eqn:Er; [discriminate|]. cbn [bind] in H.
  destruct (shapes_agree sig_stft f_analog) eqn:Es; [|discriminate].
  exists n, theta, ramp. split; [reflexivity|]. split; [exact Et|].
  split; [reflexivity|]. split; [reflexivity|]. exact H.
Qed.

(** What a returning run of [forward] went through. *)
Lemma forward_inv torch_stft linspace_f32 (self : SRP) (x : tensor2) (doa : flt)
    (curve : list fval) :
  outcome (forward torch_stft linspace_f32 self x) = inr (doa, curve) ->
  spatial_nyquist_check self = inr tt
  /\ exists X' f',
       multi_channel_stft torch_stft linspace_f32 self x = inr (X', f')
       /\ srp_ula self X' f' = inr (doa, curve)
       /\ entered (forward torch_stft linspace_f32 self x)
          = [NyquistCheck; Transform; Sweep].
Proof.
  unfold forward. intros H.
  destruct (spatial_nyquist_check self) as [e|[]]; [discriminate|]. cbn [call] in H |- *.
  destruct (multi_channel_stft torch_stft linspace_f32 self x) as [e|[X' f']];
    [discriminate|].
  cbn [call fst snd outcome entered] in H |- *.
  destruct (srp_ula self X' f') as [e|r] eqn:Es; [discriminate|].
  cbn [call outcome entered finish] in H |- *. inversion H; subst.
  split; [reflexivity|]. exists X', f'. split; [reflexivity|]. split; [exact Es|reflexivity].
Qed.

Lemma forward_returns torch_stft linspace_f32 (self : SRP) (x : tensor2) (X' : tensor3)
    (f' : list Q) (r : flt * list fval) :
  spatial_nyquist_check self = inr tt ->
  multi_channel_stft torch_stft linspace_f32 self x = inr (X', f') ->
  srp_ula self X' f' = inr r ->
  forward torch_stft linspace_f32 self x = mkRun [NyquistCheck; Transform; Sweep] (inr r).
Proof.
  intros H1 H2 H3. unfold forward. rewrite H1. cbn [call]. rewrite H2.
  cbn [call fst snd]. rewrite H3. reflexivity.
Qed.

Lemma multi_channel_stft_returns torch_stft linspace_f32 (self : SRP) (x : tensor2)
    (X : tensor3) (f_raw : list Q) :
  torch_stft self x = inr X ->
  raw_axis linspace_f32 self = inr f_raw ->
  dim1 X = length f_raw ->
  exists X', multi_channel_stft torch_stft linspace_f32 self x
             = inr (X', filter (in_band self) f_raw)
             /\ dim0 X' = dim0 X
             /\ dim1 X' = length (filter (in_band self) f_raw)
             /\ dim2 X' = dim2 X.
Proof.
  intros HX Hraw Hdim. unfold multi_channel_stft. rewrite HX, Hraw. cbn [bind].
  unfold index_mask_dim1. rewrite length_map, <- Hdim, Nat.eqb_refl. cbn [bind].
  rewrite index_mask_filter. eexists. split; [reflexivity|]. cbn [dim0 dim1 dim2].
  split; [reflexivity|]. split; [|reflexivity].
  rewrite <- index_mask_filter. unfold index_mask. rewrite length_map. reflexivity.
Qed.

Lemma torch_argmax_nonempty (l : list fval) :
  l <> [] -> exists idx, torch_argmax l = inr idx.
Proof. destruct l as [|v l]; [congruence|]. intros _. eexists. reflexivity. Qed.

(** [srp_ula] returns whenever the angle grid is not empty and the shapes
    agree. *)
Lemma srp_ula_returns (self : SRP) (sig_stft : tensor3) (f_analog : list Q) (n : Z) :
  angle_count self = inr n ->
  (0 < n)%Z ->
  shapes_agree sig_stft f_analog = true ->
  exists doa curve, srp_ula self sig_stft f_analog = inr (doa, curve)
                    /\ length curve = Z.to_nat n.
Proof.
  intros Hn Hpos Hshape. unfold srp_ula. rewrite Hn. cbn [bind].
  destruct (torch_linspace_ok (-90) 90 n) as (theta & Htheta & Hlen); [lia|].
  rewrite Htheta. cbn [bind].
  destruct (torch_linspace_ok 0 (inject_Z (Z.of_nat (dim0 sig_stft)) - 1)
              (Z.of_nat (dim0 sig_stft))) as (ramp & Hramp & _); [lia|].
  rewrite Hramp. cbn [bind]. rewrite Hshape. unfold aggregate.
  set (pm := sweep _ _ _ _ _).
  destruct (torch_argmax_nonempty (mean_dim0 torch_mean (length theta) pm)) as [idx Hidx].
  { intros E. apply (f_equal (@length fval)) in E. rewrite mean_dim0_length in E.
    cbn in E. lia. }
  rewrite Hidx. cbn [bind]. do 2 eexists. split; [reflexivity|].
  rewrite mean_dim0_length. exact Hlen.
Qed.

Lemma srp_ula_curve_length (self : SRP) (sig_stft : tensor3) (f_analog : list Q)
    (doa : flt) (curve : list fval) :
  srp_ula self sig_stft f_analog = inr (doa, curve) ->
  exists n, angle_count self = inr n /\ (0 < n)%Z /\ length curve = Z.to_nat n.
Proof.
  intros H. destruct (srp_ula_inv _ _ _ _ _ H) as (n & theta & ramp & Hn & Ht & _ & _ & Hagg).
  destruct (aggregate_inv _ _ _ _ _ _ Hagg) as (Hc & idx & Hidx & _).
  pose proof (torch_linspace_length _ _ _ _ Ht) as Hlen.
  assert (Hcl : length curve = Z.to_nat n) by (rewrite Hc, mean_dim0_length; exact Hlen).
  exists n. split; [exact Hn|]. split; [|exact Hcl].
  destruct curve as [|v curve]; [discriminate|]. cbn [length] in Hcl. lia.
Qed.

(** ** The empty band *)

Lemma map_const_seq {X : Type} (v : X) (s n : nat) :
  map (fun _ => v) (seq s n) = repeat v n.
Proof.
  revert s. induction n as [|n IH]; intros s; cbn; [reflexivity|]. rewrite IH. reflexivity.
Qed.

Lemma mean_dim0_nil (A : nat) : mean_dim0 torch_mean A [] = repeat NaN A.
Proof. unfold mean_dim0. cbn [map torch_mean]. apply map_const_seq. Qed.

Lemma argmax_from_all_nan (n i bi : nat) : argmax_from (repeat NaN n) i bi NaN = bi.
Proof.
  revert i. induction n as [|n IH]; intros i; cbn; [reflexivity|]. apply IH.
Qed.

Lemma sweep_no_rows (self : SRP) (sig_stft : tensor3) (theta_sin : list R) (ramp : list Q) :
  sweep self sig_stft [] theta_sin ramp = [].
Proof.
  destruct (sweep_shape self sig_stft [] ramp theta_sin) as [H _].
  destruct (sweep self sig_stft [] theta_sin ramp); [reflexivity|discriminate].
Qed.

(** Rounding zero. *)
Lemma binary32_zero (q : Q) : q == 0 -> binary32 q = Fnum 0.
Proof.
  intros H. unfold binary32, to_format, round_to.
  rewrite (proj2 (Qeq_bool_iff q 0) H). reflexivity.
Qed.

(** The angle of index 0 is -90 degrees for every resolution that float32
    holds as a number. *)
Lemma index_to_deg_0 (res r : Q) :
  to_f32 (binary64 res) = Fnum r -> index_to_deg 0 res = Fnum (-90).
Proof.
  intros H. unfold index_to_deg. rewrite H.
  change (binary32 (inject_Z (Z.of_nat 0))) with (Fnum 0).
  cbn [flt_mul]. rewrite (binary32_zero (0 * r)) by ring.
  reflexivity.
Qed.

(** What a returning call of the transform went through. *)
Lemma multi_channel_stft_inv torch_stft linspace_f32 (self : SRP) (x : tensor2)
    (X' : tensor3) (f' : list Q) :
  multi_channel_stft torch_stft linspace_f32 self x = inr (X', f') ->
  exists X f_raw,
    torch_stft self x = inr X
    /\ raw_axis linspace_f32 self = inr f_raw
    /\ dim1 X = length f_raw
    /\ f' = filter (in_band self) f_raw
    /\ dim0 X' = dim0 X /\ dim1 X' = length f' /\ dim2 X' = dim2 X
    /\ (forall m k t, at3 X' m k t
                      = at3 X m (nth k (true_indices (map (in_band self) f_raw) 0) 0%nat) t).
Proof.
  unfold multi_channel_stft. intros H.
  destruct (torch_stft self x) as [e|X] eqn:EX; [discriminate|]. cbn [bind] in H.
  destruct (raw_axis linspace_f32 self) as [e|f_raw] eqn:Eraw; [discriminate|].
  cbn [bind] in H.
  unfold index_mask_dim1 in H.
  destruct (Nat.eqb _ _) eqn:Elen; [|discriminate]. cbn [bind] in H.
  inversion H; subst; clear H. cbn [dim0 dim1 dim2 at3].
  exists X, f_raw. split; [reflexivity|]. split; [reflexivity|].
  split; [apply Nat.eqb_eq in Elen; rewrite length_map in Elen; symmetry; exact Elen|].
  split; [apply index_mask_filter|].
  split; [reflexivity|]. split; [|split; reflexivity].
  rewrite index_mask_filter. rewrite <- (index_mask_filter (in_band self) f_raw).
  unfold index_mask. rewrite length_map. reflexivity.
Qed.

Lemma filter_none {X : Type} (p : X -> bool) (l : list X) :
  (forall a, In a l -> p a = false) -> filter p l = [].
Proof.
  induction l as [|a l IH]; intros H; [reflexivity|]. cbn [filter].
  rewrite (H a (or_introl eq_refl)). apply IH. intros b Hb. apply H. right. exact Hb.
Qed.

(** With no retained bin, a returning [srp_ula] selected index 0 on an
    undefined curve. *)
Lemma srp_ula_empty_band (self : SRP) (sig_stft : tensor3) (doa : flt) (curve : list fval) :
  srp_ula self sig_stft [] = inr (doa, curve) ->
  curve <> []
  /\ curve = repeat NaN (length curve)
  /\ angle_count self = inr (Z.of_nat (length curve))
  /\ doa = index_to_deg 0 (resolution self).
Proof.
  intros H.
  destruct (srp_ula_curve_length _ _ _ _ _ H) as (n & Hn & Hpos & Hlen).
  destruct (srp_ula_inv _ _ _ _ _ H) as (n' & theta & ramp & Hn' & Ht & _ & _ & Hagg).
  destruct (aggregate_inv _ _ _ _ _ _ Hagg) as (Hc & idx & Hidx & Hdoa).
  rewrite sweep_no_rows, mean_dim0_nil in Hc.
  assert (Hcl : length curve = length theta) by (rewrite Hc, repeat_length; reflexivity).
  split; [intros E; rewrite E in Hlen; cbn in Hlen; lia|].
  split; [rewrite Hcl; exact Hc|].
  split; [rewrite Hn, Hlen, Z2Nat.id by lia; reflexivity|].
  rewrite Hdoa. f_equal.
  rewrite Hc in Hidx. destruct (length theta) as [|a]; [discriminate|].
  cbn [repeat torch_argmax] in Hidx. rewrite argmax_from_all_nan in Hidx.
  inversion Hidx. reflexivity.
Qed.

(** A returning run of [forward] on a configuration whose band holds no raw
    bin. *)
Lemma forward_empty_band torch_stft linspace_f32 (self : SRP) (x : tensor2)
    (f_raw : list Q) (doa : flt) (curve : list fval) :
  raw_axis linspace_f32 self = inr f_raw ->
  (forall f, In f f_raw -> in_band self f = false) ->
  outcome (forward torch_stft linspace_f32 self x) = inr (doa, curve) ->
  entered (forward torch_stft linspace_f32 self x) = [NyquistCheck; Transform; Sweep]
  /\ curve <> []
  /\ curve = repeat NaN (length curve)
  /\ angle_count self = inr (Z.of_nat (length curve))
  /\ doa = index_to_deg 0 (resolution self).
Proof.
  intros Hraw Hband H.
  destruct (forward_inv _ _ _ _ _ _ H) as (_ & X' & f' & Hm & Hs & He).
  destruct (multi_channel_stft_inv _ _ _ _ _ _ Hm) as (X & f_raw' & _ & Hraw' & _ & Hf' & _).
  rewrite Hraw in Hraw'. inversion Hraw'; subst f_raw'.
  rewrite (filter_none _ _ Hband) in Hf'. subst f'.
  split; [exact He|]. apply (srp_ula_empty_band self X'). exact Hs.
Qed.

(** C6, amended.  When the band mask keeps none of the raw bins, nothing is
    raised on that account: a run of [forward] that returns went through
    all three stages and returns index 0, that is the float32 value of
    [0 * resolution - 90] (-90 degrees for every resolution that float32
    holds as a number), with a power curve that has one entry per candidate
    angle, [int(180 / resolution + 1)] of them, all undefined. *)
Theorem empty_band_returns_nan torch_stft linspace_f32 (self : SRP) (x : tensor2)
    (f_raw : list Q) (doa : flt) (curve : list fval) :
  raw_axis linspace_f32 self = inr f_raw ->
  (forall f, In f f_raw -> in_band self f = false) ->
  outcome (forward torch_stft linspace_f32 self x) = inr (doa, curve) ->
  entered (forward torch_stft linspace_f32 self x) = [NyquistCheck; Transform; Sweep]
  /\ curve <> []
  /\ curve = repeat NaN (length curve)
  /\ (q <- py_div (Fnum 180) (binary64 (resolution self)) ;; python_int (py_add q (Fnum 1)))
     = inr (Z.of_nat (length curve))
  /\ doa = flt_sub binary32
             (flt_mul binary32 (Fnum 0) (to_f32 (binary64 (resolution self))))
             (Fnum 90)
  /\ (forall r, to_f32 (binary64 (resolution self)) = Fnum r -> doa = Fnum (-90)).
Proof.
  intros Hraw Hband H.
  destruct (forward_empty_band torch_stft linspace_f32 self x f_raw doa curve Hraw Hband H)
    as (He & Hne & Hc & Hn & Hdoa).
  split; [exact He|]. split; [exact Hne|]. split; [exact Hc|]. split; [exact Hn|].
  split; [exact Hdoa|].
  intros r Hr. rewrite Hdoa. apply (index_to_deg_0 _ r Hr).
Qed.

(** The run of [forward] on [empty_band_srp] and a silent waveform. *)
Lemma empty_band_run :
  forward silent_stft exact_linspace empty_band_srp (silence 8 2)
  = mkRun [NyquistCheck; Transform; Sweep] (inr (Fnum (-90), [NaN; NaN; NaN; NaN; NaN])).
Proof.
  assert (Hny : spatial_nyquist_check empty_band_srp = inr tt).
  { unfold spatial_nyquist_check, nyquist_bound, empty_band_srp. cbn [c f_high d_inter].
    vm_compute. reflexivity. }
  assert (Hm : exists X', multi_channel_stft silent_stft exact_linspace empty_band_srp
                            (silence 8 2) = inr (X', [])).
  { eexists. lazy. reflexivity. }
  destruct Hm as [X' Hm].
  apply (forward_returns _ _ _ _ X' [] _ Hny Hm).
  assert (Hn : angle_count empty_band_srp = inr 5%Z).
  { unfold angle_count, empty_band_srp. cbn [resolution]. vm_compute. reflexivity. }
  destruct (srp_ula_returns empty_band_srp X' [] 5 Hn) as (doa & curve & Hs & Hlen).
  - lia.
  - assert (Hd : dim1 X' = 0%nat).
    { destruct (multi_channel_stft_inv _ _ _ _ _ _ Hm) as (_ & _ & _ & _ & _ & _ & _ & Hd & _).
      exact Hd. }
    unfold shapes_agree. rewrite Hd. reflexivity.
  - destruct (srp_ula_empty_band _ _ _ _ Hs) as (_ & Hc & _ & Hdoa).
    rewrite Hs. f_equal. f_equal.
    + rewrite Hdoa. unfold empty_band_srp. cbn [resolution]. vm_compute. reflexivity.
    + rewrite Hc, Hlen. reflexivity.
Qed.

Lemma empty_band_raw_axis :
  exists f_raw,
    raw_axis exact_linspace empty_band_srp = inr f_raw
    /\ forall f, In f f_raw -> in_band empty_band_srp f = false.
Proof.
  exists [0; 2000; 4000; 6000; 8000]. split.
  - unfold raw_axis, empty_band_srp. cbn [fs n_fft]. vm_compute. reflexivity.
  - intros f Hf. unfold in_band, empty_band_srp. cbn [f_low f_high].
    cbn [In] in Hf.
    destruct Hf as [<-|[<-|[<-|[<-|[<-|[]]]]]]; vm_compute; reflexivity.
Qed.

Lemma empty_band_returns_nan_witness :
  (exists f_raw, raw_axis exact_linspace empty_band_srp = inr f_raw
                 /\ forall f, In f f_raw -> in_band empty_band_srp f = false)
  /\ outcome (forward silent_stft exact_linspace empty_band_srp (silence 8 2))
     = inr (Fnum (-90), [NaN; NaN; NaN; NaN; NaN])
  /\ entered (forward silent_stft exact_linspace empty_band_srp (silence 8 2))
     = [NyquistCheck; Transform; Sweep]
  /\ (q <- py_div (Fnum 180) (binary64 (resolution empty_band_srp)) ;;
      python_int (py_add q (Fnum 1))) = inr 5%Z.
Proof.
  split; [exact empty_band_raw_axis|].
  assert (Hout : outcome (forward silent_stft exact_linspace empty_band_srp (silence 8 2))
                 = inr (Fnum (-90), [NaN; NaN; NaN; NaN; NaN]))
    by (rewrite empty_band_run; reflexivity).
  split; [exact Hout|].
  destruct empty_band_raw_axis as (f_raw & Hraw & Hband).
  destruct (empty_band_returns_nan silent_stft exact_linspace empty_band_srp (silence 8 2)
              f_raw (Fnum (-90)) [NaN; NaN; NaN; NaN; NaN] Hraw Hband Hout)
    as (He & _ & _ & Hn & _).
  split; [exact He|exact Hn].
Defined.

(** C6, counterexample: a configuration whose band holds no bin, on which
    [forward] returns instead of raising. *)
Lemma empty_band_not_rejected :
  (exists f_raw, raw_axis exact_linspace empty_band_srp = inr f_raw
                 /\ forall f, In f f_raw -> in_band empty_band_srp f = false)
  /\ outcome (forward silent_stft exact_linspace empty_band_srp (silence 8 2))
     = inr (Fnum (-90), [NaN; NaN; NaN; NaN; NaN]).
Proof.
  split; [exact empty_band_raw_axis|]. rewrite empty_band_run. reflexivity.
Qed.

(** ** The angle grid and the resolution *)

(** A run of [forward] that meets no error. *)
Lemma forward_runs torch_stft linspace_f32 (self : SRP) (x : tensor2) (X : tensor3)
    (f_raw : list Q) (n : Z) :
  spatial_nyquist_check self = inr tt ->
  torch_stft self x = inr X ->
  raw_axis linspace_f32 self = inr f_raw ->
  dim1 X = length f_raw ->
  angle_count self = inr n ->
  (0 < n)%Z ->
  exists doa curve,
    forward torch_stft linspace_f32 self x
    = mkRun [NyquistCheck; Transform; Sweep] (inr (doa, curve))
    /\ length curve = Z.to_nat n.
Proof.
  intros Hny HX Hraw Hdim Hn Hpos.
  destruct (multi_channel_stft_returns torch_stft linspace_f32 self x X f_raw HX Hraw Hdim)
    as (X' & HX' & _ & Hd1 & _).
  destruct (srp_ula_returns self X' (filter (in_band self) f_raw) n Hn Hpos)
    as (doa & curve & Hs & Hlen).
  { unfold shapes_agree. rewrite Hd1, Nat.eqb_refl. reflexivity. }
  exists doa, curve. split; [|exact Hlen].
  apply (forward_returns torch_stft linspace_f32 self x X' _ _ Hny HX' Hs).
Qed.

Lemma forward_curve_length torch_stft linspace_f32 (self : SRP) (x : tensor2) (doa : flt)
    (curve : list fval) :
  outcome (forward torch_stft linspace_f32 self x) = inr (doa, curve) ->
  angle_count self = inr (Z.of_nat (length curve)) /\ (1 <= length curve)%nat.
Proof.
  intros H. destruct (forward_inv _ _ _ _ _ _ H) as (_ & X' & f' & _ & Hs & _).
  destruct (srp_ula_curve_length _ _ _ _ _ Hs) as (n & Hn & Hpos & Hlen).
  split; [|lia]. rewrite Hn, Hlen, Z2Nat.id by lia. reflexivity.
Qed.

Lemma angle_count_resolution (self self' : SRP) :
  resolution self = resolution self' -> angle_count self = angle_count self'.
Proof. unfold angle_count. intros ->. reflexivity. Qed.

Lemma angle_count_divisors (self : SRP) (k : Z) :
  In k divisors_of_180 ->
  resolution self = inject_Z k ->
  angle_count self = inr (180 / k + 1)%Z.
Proof.
  intros Hk Hr. unfold angle_count. rewrite Hr. clear Hr.
  unfold divisors_of_180 in Hk. cbn [In] in Hk.
  repeat (destruct Hk as [<-|Hk]; [vm_compute; reflexivity|]).
  destruct Hk.
Qed.

(** Line 75 in binary64: 0.01152 goes 15625 times into 180, and the grid
    has 15625 angles, not 15626 (the quotient is 15624.999999999998); with
    a resolution of -10^19 the sum [180 / resolution + 1] is rounded to 1
    and the grid has one angle. *)
Lemma angle_count_rounded (self : SRP) :
  (resolution self = 1152 # 100000 ->
   180 == inject_Z 15625 * resolution self /\ angle_count self = inr 15625%Z)
  /\ (resolution self = - 10000000000000000000 -> angle_count self = inr 1%Z).
Proof.
  split; intros Hr.
  - split; [rewrite Hr; reflexivity|].
    unfold angle_count. rewrite Hr. vm_compute. reflexivity.
  - unfold angle_count. rewrite Hr. vm_compute. reflexivity.
Qed.

(** C7, amended.  Construction validates nothing about the resolution: it
    succeeds for every resolution and stores it as given.  When a run of
    [forward] returns, its power curve has [int(180 / resolution + 1)]
    entries, quotient and sum rounded to binary64 and the result truncated
    toward zero.  That is [180 / resolution + 1] for every integer
    resolution that goes into 180; for the resolution 0.01152, which goes
    15625 times into 180, it is 15625. *)
Theorem resolution_and_curve_length torch_stft linspace_f32 (self : SRP) (x : tensor2)
    (doa : flt) (curve : list fval) (d_inter c : Q) (n_fft hop_length window_length : Z)
    (fs f_low f_high res : Q) :
  ((0 <= window_length)%Z ->
   exists s, SRP_init d_inter c n_fft hop_length window_length fs f_low f_high res = inr s
             /\ resolution s = res)
  /\ (outcome (forward torch_stft linspace_f32 self x) = inr (doa, curve) ->
      (q <- py_div (Fnum 180) (binary64 (resolution self)) ;; python_int (py_add q (Fnum 1)))
      = inr (Z.of_nat (length curve))
      /\ (1 <= length curve)%nat
      /\ (forall k : Z, In k divisors_of_180 -> resolution self = inject_Z k ->
            inject_Z (Z.of_nat (length curve)) == 180 / resolution self + 1)
      /\ (resolution self = 1152 # 100000 ->
          Z.of_nat (length curve) = 15625%Z
          /\ 180 / resolution self + 1 == 15626)).
Proof.
  split.
  - intros Hw. unfold SRP_init, hann_window_sqrt.
    destruct (window_length <? 0)%Z eqn:E; [apply Z.ltb_lt in E; lia|].
    cbn [bind]. eexists. split; reflexivity.
  - intros H. destruct (forward_curve_length _ _ _ _ _ _ H) as (Hn & Hpos).
    split; [exact Hn|]. split; [exact Hpos|]. split.
    + intros k Hk Hr. pose proof (angle_count_divisors self k Hk Hr) as Hn'.
      rewrite Hn in Hn'. inversion Hn' as [Hl]. rewrite Hl, Hr.
      unfold divisors_of_180 in Hk. cbn [In] in Hk.
      repeat (destruct Hk as [<-|Hk]; [reflexivity|]). destruct Hk.
    + intros Hr. destruct (proj1 (angle_count_rounded self) Hr) as [_ Hn'].
      rewrite Hn in Hn'. inversion Hn' as [Hl]. split; [reflexivity|].
      rewrite Hr. reflexivity.
Qed.

Lemma small_config :
  spatial_nyquist_check small_srp = inr tt
  /\ silent_stft small_srp (silence 8 2) = inr (mkT3 2 5 3 (fun _ _ _ => (0, 0)%R))
  /\ raw_axis exact_linspace small_srp = inr [0; 2000; 4000; 6000; 8000]
  /\ angle_count small_srp = inr 5%Z.
Proof.
  split; [|split; [|split]].
  - unfold spatial_nyquist_check, nyquist_bound, small_srp. cbn [c f_high d_inter].
    vm_compute. reflexivity.
  - reflexivity.
  - unfold raw_axis, small_srp. cbn [fs n_fft]. vm_compute. reflexivity.
  - unfold angle_count, small_srp. cbn [resolution]. vm_compute. reflexivity.
Qed.

Lemma resolution_and_curve_length_witness :
  exists doa curve,
    outcome (forward silent_stft exact_linspace small_srp (silence 8 2)) = inr (doa, curve)
    /\ inject_Z (Z.of_nat (length curve)) == 180 / 45 + 1.
Proof.
  destruct small_config as (Hny & HX & Hraw & Hn).
  destruct (forward_runs silent_stft exact_linspace small_srp (silence 8 2) _ _ 5
              Hny HX Hraw eq_refl Hn eq_refl) as (doa & curve & Hf & _).
  exists doa, curve.
  assert (Hout : outcome (forward silent_stft exact_linspace small_srp (silence 8 2))
                 = inr (doa, curve))
    by (rewrite Hf; reflexivity).
  split; [exact Hout|].
  destruct (proj2 (resolution_and_curve_length silent_stft exact_linspace small_srp
                     (silence 8 2) doa curve 0 0 0 0 0 0 0 0 0) Hout)
    as (_ & _ & Hdiv & _).
  apply (Hdiv 45%Z); [|reflexivity].
  unfold divisors_of_180. cbn [In]. tauto.
Defined.

(** C7, counterexample: a resolution of 7 degrees does not go into 180, yet
    construction succeeds and [forward] returns, with a curve of
    [int(180 / 7 + 1) = 26] entries. *)
Lemma uneven_resolution_accepted :
  (~ exists k : Z, 180 == inject_Z k * 7)
  /\ SRP_init (2 # 100) 343 8 4 8 16000 1000 5000 7 = inr uneven_srp
  /\ exists doa curve,
       forward silent_stft exact_linspace uneven_srp (silence 8 2)
       = mkRun [NyquistCheck; Transform; Sweep] (inr (doa, curve))
       /\ length curve = 26%nat.
Proof.
  split; [|split].
  - intros [k Hk]. unfold Qeq in Hk. cbn [inject_Z Qmult Qnum Qden] in Hk. lia.
  - reflexivity.
  - assert (HX : silent_stft uneven_srp (silence 8 2)
                 = inr (mkT3 2 5 3 (fun _ _ _ => (0, 0)%R))) by reflexivity.
    assert (Hny : spatial_nyquist_check uneven_srp = inr tt).
    { unfold spatial_nyquist_check, nyquist_bound, uneven_srp. cbn [c f_high d_inter].
      vm_compute. reflexivity. }
    assert (Hraw : raw_axis exact_linspace uneven_srp = inr [0; 2000; 4000; 6000; 8000]).
    { unfold raw_axis, uneven_srp. cbn [fs n_fft]. vm_compute. reflexivity. }
    assert (Hn : angle_count uneven_srp = inr 26%Z).
    { unfold angle_count, uneven_srp. cbn [resolution]. vm_compute. reflexivity. }
    apply (forward_runs silent_stft exact_linspace uneven_srp (silence 8 2) _ _ 26
             Hny HX Hraw eq_refl Hn eq_refl).
Qed.

(** The default resolution of half a degree gives 361 candidate angles. *)
Example default_angle_count : angle_count default_srp = inr 361%Z.
Proof. unfold angle_count, default_srp. cbn [resolution]. vm_compute. reflexivity. Qed.

Lemma small_angle_count : angle_count small_srp = inr 5%Z.
Proof. exact (proj2 (proj2 (proj2 small_config))). Qed.

(** ** The waveform is not validated *)

Lemma forward_transform_raises torch_stft linspace_f32 (self : SRP) (x : tensor2) (e : exn) :
  spatial_nyquist_check self = inr tt ->
  torch_stft self x = inl e ->
  forward torch_stft linspace_f32 self x = mkRun [NyquistCheck; Transform] (inl e).
Proof.
  intros Hny HX. unfold forward, multi_channel_stft. rewrite Hny, HX. reflexivity.
Qed.

Lemma forward_check_raises torch_stft linspace_f32 (self : SRP) (x : tensor2) (e : exn) :
  spatial_nyquist_check self = inl e ->
  forward torch_stft linspace_f32 self x = mkRun [NyquistCheck] (inl e).
Proof. intros Hny. unfold forward. rewrite Hny. reflexivity. Qed.

(** C8 (as the code has it). [forward] does not look at the shape of the
    waveform.  Once the Nyquist check has passed, every waveform is handed to
    the transform stage, and an error raised there is the error of the run;
    when the check raises, the run ends the same way for every waveform. *)
Theorem waveform_not_validated torch_stft linspace_f32 (self : SRP) (x : tensor2) :
  (spatial_nyquist_check self = inr tt ->
   (exists rest, entered (forward torch_stft linspace_f32 self x) = NyquistCheck :: Transform :: rest)
   /\ forall e, torch_stft self x = inl e ->
        forward torch_stft linspace_f32 self x = mkRun [NyquistCheck; Transform] (inl e))
  /\ (forall e, spatial_nyquist_check self = inl e ->
        forall x', forward torch_stft linspace_f32 self x' = mkRun [NyquistCheck] (inl e)).
Proof.
  split.
  - intros Hny. split; [apply forward_after_check; exact Hny|].
    intros e He. apply forward_transform_raises; assumption.
  - intros e He x'. apply forward_check_raises. exact He.
Qed.

Lemma waveform_not_validated_witness :
  (exists rest,
     entered (forward silent_stft exact_linspace small_srp (silence 0 2))
     = NyquistCheck :: Transform :: rest)
  /\ forward silent_stft exact_linspace wide_srp (silence 0 2)
     = mkRun [NyquistCheck] (inl (ValueError nyquist_msg)).
Proof.
  split.
  - apply (proj1 (waveform_not_validated silent_stft exact_linspace small_srp (silence 0 2))).
    exact (proj1 small_config).
  - apply (proj2 (waveform_not_validated silent_stft exact_linspace wide_srp (silence 8 2))
             (ValueError nyquist_msg)).
    unfold spatial_nyquist_check, nyquist_bound, wide_srp. cbn [c f_high d_inter].
    vm_compute. reflexivity.
Defined.

(** C8, counterexample: a waveform with two channels and no samples passes
    the Nyquist stage and enters the transform stage; the run ends with the
    error raised inside it. *)
Lemma empty_waveform_reaches_transform :
  rows (silence 0 2) = 0%nat
  /\ forward silent_stft exact_linspace small_srp (silence 0 2)
     = mkRun [NyquistCheck; Transform] (inl TorchError).
Proof.
  split; [reflexivity|].
  apply forward_transform_raises; [exact (proj1 small_config)|reflexivity].
Qed.

(** ** Sign of the power curve *)

Lemma fsquare_nan_or_nonneg (v : fval) : nan_or_nonneg (fsquare v).
Proof.
  destruct v as [|r]; [left; reflexivity|]. right. exists (r * r)%R.
  split; [reflexivity|]. apply Rle_0_sqr.
Qed.

Lemma fold_fadd_nan (l : list fval) : fold_left fadd l NaN = NaN.
Proof. induction l as [|v l IH]; cbn; [reflexivity|exact IH]. Qed.

Lemma fold_fadd_nan_or_nonneg (l : list fval) : forall a : R,
  (0 <= a)%R ->
  Forall nan_or_nonneg l ->
  nan_or_nonneg (fold_left fadd l (Fin a)).
Proof.
  induction l as [|v l IH]; intros a Ha Hl; cbn [fold_left].
  - right. exists a. split; [reflexivity|exact Ha].
  - inversion Hl as [|v' l' Hv Hl']; subst.
    destruct Hv as [->|(r & -> & Hr)]; cbn [fadd].
    + rewrite fold_fadd_nan. left; reflexivity.
    + apply IH; [lra|exact Hl'].
Qed.

Lemma fold_fadd_nonneg (l : list fval) : forall a : R,
  (0 <= a)%R ->
  Forall nonneg l ->
  nonneg (fold_left fadd l (Fin a)).
Proof.
  induction l as [|v l IH]; intros a Ha Hl; cbn [fold_left].
  - exists a. split; [reflexivity|exact Ha].
  - inversion Hl as [|v' l' (r & -> & Hr) Hl']; subst. cbn [fadd].
    apply IH; [lra|exact Hl'].
Qed.

Lemma fdiv_count_nonneg (v : fval) (n : nat) :
  (0 < n)%nat -> nonneg v -> nonneg (fdiv_count v n).
Proof.
  intros Hn (r & -> & Hr). exists (r / INR n)%R. split; [reflexivity|].
  apply Rmult_le_pos; [exact Hr|]. apply Rlt_le, Rinv_0_lt_compat, lt_0_INR. exact Hn.
Qed.

Lemma torch_mean_nan_or_nonneg (l : list fval) :
  Forall nan_or_nonneg l -> nan_or_nonneg (torch_mean l).
Proof.
  intros Hl. destruct l as [|v l]; [left; reflexivity|].
  unfold torch_mean, fsum.
  destruct (fold_fadd_nan_or_nonneg (v :: l) 0 (Rle_refl 0) Hl) as [E|E].
  - rewrite E. left; reflexivity.
  - right. apply fdiv_count_nonneg; [cbn; lia|exact E].
Qed.

Lemma torch_mean_nonneg (l : list fval) :
  l <> [] -> Forall nonneg l -> nonneg (torch_mean l).
Proof.
  intros Hne Hl. destruct l as [|v l]; [congruence|].
  unfold torch_mean, fsum. apply fdiv_count_nonneg; [cbn; lia|].
  apply fold_fadd_nonneg; [apply Rle_refl|exact Hl].
Qed.

(** A property of every entry of a grid passes to the entries of its
    per-column means. *)
Lemma mean_dim0_Forall (P : fval -> Prop) (A : nat) (pm : list (list fval)) :
  (forall l, Forall P l -> l <> [] -> P (torch_mean l)) ->
  (pm <> [] \/ P NaN) ->
  (forall k j, (k < length pm)%nat -> (j < A)%nat -> P (nth j (nth k pm []) (Fin 0))) ->
  Forall P (mean_dim0 torch_mean A pm).
Proof.
  intros Hmean Hne Hent. unfold mean_dim0. apply Forall_forall. intros v Hv.
  apply in_map_iff in Hv. destruct Hv as (j & <- & Hj). apply in_seq in Hj.
  destruct pm as [|row pm'] eqn:Epm.
  - cbn [map torch_mean]. destruct Hne as [Hne|Hnan]; [congruence|exact Hnan].
  - rewrite <- Epm in *. apply Hmean.
    + apply Forall_forall. intros w Hw. apply in_map_iff in Hw.
      destruct Hw as (r & <- & Hr).
      destruct (In_nth _ _ [] Hr) as (k & Hk & <-). apply Hent; [exact Hk|lia].
    + rewrite Epm. discriminate.
Qed.

Lemma sweep_curve_nan_or_nonneg (self : SRP) (sig_stft : tensor3) (f_analog ramp : list Q)
    (theta_sin : list R) :
  Forall nan_or_nonneg
    (mean_dim0 torch_mean (length theta_sin) (sweep self sig_stft f_analog theta_sin ramp)).
Proof.
  destruct (sweep_shape self sig_stft f_analog ramp theta_sin) as [HF _].
  apply mean_dim0_Forall.
  - intros l Hl _. apply torch_mean_nan_or_nonneg. exact Hl.
  - right. left. reflexivity.
  - intros k j Hk Hj. rewrite HF in Hk. rewrite sweep_entry by assumption.
    apply fsquare_nan_or_nonneg.
Qed.

Lemma nan_or_nonneg_not_negative (v : fval) : nan_or_nonneg v -> not_negative v.
Proof.
  intros [->|(r & -> & Hr)] r' E; [discriminate|]. inversion E; subst. exact Hr.
Qed.

Lemma forward_curve_sign torch_stft linspace_f32 (self : SRP) (x : tensor2) (doa : flt)
    (curve : list fval) :
  outcome (forward torch_stft linspace_f32 self x) = inr (doa, curve) ->
  Forall nan_or_nonneg curve.
Proof.
  intros H. destruct (forward_inv _ _ _ _ _ _ H) as (_ & X' & f' & Hm & Hs & _).
  destruct (srp_ula_inv _ _ _ _ _ Hs) as (n & theta & ramp & _ & _ & Hramp & _ & Hagg).
  destruct (aggregate_inv _ _ _ _ _ _ Hagg) as (Hc & _).
  rewrite Hc, <- (length_map (fun q => sin (deg2rad (Q2R q))) theta).
  apply sweep_curve_nan_or_nonneg.
Qed.

(** C10, amended.  No entry of a returned power curve is a negative
    number: an entry that is a number is not below zero.  (An entry can be
    undefined, as on an empty band.) *)
Theorem power_curve_sign torch_stft linspace_f32 (self : SRP) (x : tensor2) (doa : flt)
    (curve : list fval) :
  outcome (forward torch_stft linspace_f32 self x) = inr (doa, curve) ->
  Forall not_negative curve
  /\ (forall v r, In v curve -> v = Fin r -> (0 <= r)%R).
Proof.
  intros H. pose proof (forward_curve_sign _ _ _ _ _ _ H) as Hc.
  assert (Hall : forall v, In v curve -> not_negative v).
  { intros v Hv. apply nan_or_nonneg_not_negative.
    apply (proj1 (Forall_forall _ _) Hc v Hv). }
  split.
  - apply Forall_forall. exact Hall.
  - intros v r Hv Hr. apply (Hall v Hv r Hr).
Qed.

Lemma power_curve_sign_witness :
  exists doa curve,
    outcome (forward silent_stft exact_linspace small_srp (silence 8 2)) = inr (doa, curve)
    /\ Forall not_negative curve.
Proof.
  destruct small_config as (Hny & HX & Hraw & Hn).
  destruct (forward_runs silent_stft exact_linspace small_srp (silence 8 2) _ _ 5
              Hny HX Hraw eq_refl Hn eq_refl) as (doa & curve & Hf & _).
  exists doa, curve.
  assert (Hout : outcome (forward silent_stft exact_linspace small_srp (silence 8 2))
                 = inr (doa, curve))
    by (rewrite Hf; reflexivity).
  split; [exact Hout|].
  apply (proj1 (power_curve_sign silent_stft exact_linspace small_srp (silence 8 2)
                  doa curve Hout)).
Defined.

(** C10, counterexample: on a configuration whose band holds no bin the run
    completes and every entry of the returned curve is undefined, hence not
    non-negative. *)
Lemma empty_band_curve_undefined :
  outcome (forward silent_stft exact_linspace empty_band_srp (silence 8 2))
    = inr (Fnum (-90), [NaN; NaN; NaN; NaN; NaN])
  /\ ~ Forall nonneg [NaN; NaN; NaN; NaN; NaN].
Proof.
  split.
  - rewrite empty_band_run. reflexivity.
  - intros H. inversion H as [|v l (r & Hr & _) Hl]. discriminate.
Qed.

(** * Further properties of the code *)

(** ** The analysis window of [SRP.__init__] *)









(** ** The candidate angles *)

Lemma theta_grid_nth (n : Z) (theta : list Q) (j : nat) :
  torch_linspace (-90) 90 n = inr theta ->
  (j < length theta)%nat ->
  nth j theta 0 == inject_Z (Z.of_nat j) * (180 / inject_Z (n - 1)) - 90.
Proof.
  intros H Hj. rewrite (torch_linspace_nth _ _ _ _ j H Hj).
  setoid_replace (90 - -90) with 180 by ring. ring.
Qed.



Lemma theta_grid_inv (self : SRP) (theta : list Q) :
  theta_grid self = inr theta ->
  exists n, angle_count self = inr n
            /\ torch_linspace (-90) 90 n = inr theta
            /\ length theta = Z.to_nat n.
Proof.
  unfold theta_grid. destruct (angle_count self) as [e|n]; [discriminate|]. cbn [bind].
  intros H. exists n. split; [reflexivity|]. split; [exact H|].
  apply (torch_linspace_length _ _ _ _ H).
Qed.




(** ** The returned angle and the curve *)

Lemma argmax_from_bound (l : list fval) : forall (i bi : nat) (b : fval),
  argmax_from l i bi b = bi \/ (i <= argmax_from l i bi b < i + length l)%nat.
Proof.
  induction l as [|v l IH]; intros i bi b; cbn [argmax_from length].
  - left. reflexivity.
  - destruct (beats v b).
    + destruct (IH (S i) i v) as [E|E]; right; lia.
    + destruct (IH (S i) bi b) as [E|E]; [left; exact E|right; lia].
Qed.

Lemma torch_argmax_bound (l : list fval) (idx : nat) :
  torch_argmax l = inr idx -> (idx < length l)%nat.
Proof.
  destruct l as [|v l]; [discriminate|]. cbn [torch_argmax length]. intros H.
  inversion H; subst idx. destruct (argmax_from_bound l 1 0 v) as [E|E]; lia.
Qed.

Lemma torch_argmax_first_max (l : list fval) (idx : nat) :
  torch_argmax l = inr idx ->
  (idx < length l)%nat
  /\ (forall i, (i < length l)%nat -> beats (nth i l NaN) (nth idx l NaN) = false)
  /\ (forall i, (i < idx)%nat -> beats (nth idx l NaN) (nth i l NaN) = true).
Proof.
  destruct l as [|x0 xs]; [discriminate|]. intros H.
  destruct (torch_argmax_spec x0 xs) as (idx' & H' & Hb & Hmax & Hfirst).
  rewrite H in H'. inversion H'; subst idx'.
  split; [exact Hb|]. split; [exact Hmax|exact Hfirst].
Qed.

Lemma srp_ula_theta_grid (self : SRP) (sig_stft : tensor3) (f_analog : list Q)
    (doa : flt) (curve : list fval) :
  srp_ula self sig_stft f_analog = inr (doa, curve) ->
  exists theta idx,
    theta_grid self = inr theta
    /\ length theta = length curve
    /\ torch_argmax curve = inr idx
    /\ (idx < length theta)%nat
    /\ doa = index_to_deg idx (resolution self).
Proof.
  intros H. destruct (srp_ula_inv _ _ _ _ _ H) as (n & theta & ramp & Hn & Ht & _ & _ & Hagg).
  destruct (aggregate_inv _ _ _ _ _ _ Hagg) as (Hc & idx & Hidx & Hdoa).
  assert (Hlen : length theta = length curve) by (rewrite Hc, mean_dim0_length; reflexivity).
  exists theta, idx. split; [unfold theta_grid; rewrite Hn; exact Ht|].
  split; [exact Hlen|]. split; [exact Hidx|]. split; [|exact Hdoa].
  rewrite Hlen. apply torch_argmax_bound. exact Hidx.
Qed.

(** X3. The angle [srp_ula] returns belongs to the first maximum of the
    curve it returns: for an index below the length of the curve, no entry
    of the curve is above the entry at that index, that entry is above every
    earlier one (an undefined entry counting as the largest), and the angle
    is the float32 value of [index * resolution - 90]. *)
Theorem returned_angle_first_maximum (self : SRP) (sig_stft : tensor3) (f_analog : list Q)
    (doa : flt) (curve : list fval) :
  srp_ula self sig_stft f_analog = inr (doa, curve) ->
  exists idx,
    (idx < length curve)%nat
    /\ doa = flt_sub binary32
               (flt_mul binary32 (binary32 (inject_Z (Z.of_nat idx)))
                        (to_f32 (binary64 (resolution self))))
               (Fnum 90)
    /\ (forall i, (i < length curve)%nat ->
          beats (nth i curve NaN) (nth idx curve NaN) = false)
    /\ (forall i, (i < idx)%nat -> beats (nth idx curve NaN) (nth i curve NaN) = true).
Proof.
  intros H.
  destruct (srp_ula_theta_grid _ _ _ _ _ H) as (theta & idx & _ & _ & Hidx & _ & Hdoa).
  destruct (torch_argmax_first_max curve idx Hidx) as (Hb & Hmax & Hfirst).
  exists idx. split; [exact Hb|]. split; [exact Hdoa|]. split; assumption.
Qed.

Lemma returned_angle_first_maximum_witness :
  exists doa curve idx,
    srp_ula small_srp two_channels [2000] = inr (doa, curve)
    /\ length curve = 5%nat
    /\ (idx < 5)%nat
    /\ doa = index_to_deg idx 45
    /\ forall i, (i < 5)%nat -> beats (nth i curve NaN) (nth idx curve NaN) = false.
Proof.
  destruct (srp_ula_returns small_srp two_channels [2000] 5
              (proj2 (proj2 (proj2 small_config))) ltac:(lia) eq_refl)
    as (doa & curve & Hs & Hlen).
  destruct (returned_angle_first_maximum small_srp two_channels [2000] doa curve Hs)
    as (idx & Hb & Hdoa & Hmax & _).
  exists doa, curve, idx. split; [exact Hs|]. split; [exact Hlen|].
  rewrite Hlen in Hb, Hmax. split; [exact Hb|]. split; [exact Hdoa|exact Hmax].
Defined.

(** ** Rationals as reals *)

Lemma Q2R_Z (z : Z) : Q2R (inject_Z z) = IZR z.
Proof. unfold Q2R. cbn [inject_Z Qnum Qden]. field. Qed.

Lemma Q2R_literal (z : Z) : Q2R (z # 1) = IZR z.
Proof. unfold Q2R. cbn [Qnum Qden]. field. Qed.

(** ** Shape of the steering vector *)


Lemma steering_zero_phase (self : SRP) (theta_deg f : Q) (m : nat) :
  steering_phase self theta_deg f m = 0%R ->
  steering self theta_deg f m = (1, 0)%R.
Proof.
  intros H. rewrite steering_polar, H, cos_0, sin_0. f_equal. ring.
Qed.


Lemma Q2R_eq_0 (q : Q) : q == 0 -> Q2R q = 0%R.
Proof. intros H. rewrite (Qeq_eqR _ _ H). apply (Q2R_literal 0). Qed.

Lemma steering_broadside (self : SRP) (theta_deg f : Q) (m : nat) :
  theta_deg == 0 -> steering self theta_deg f m = (1, 0)%R.
Proof.
  intros H. apply steering_zero_phase. unfold steering_phase.
  rewrite (Q2R_eq_0 _ H), Rmult_0_l, sin_0. unfold Rdiv. ring.
Qed.

Lemma steering_no_spacing (self : SRP) (theta_deg f : Q) (m : nat) :
  d_inter self == 0 -> steering self theta_deg f m = (1, 0)%R.
Proof.
  intros H. apply steering_zero_phase. unfold steering_phase.
  rewrite (Q2R_eq_0 _ H). unfold Rdiv. ring.
Qed.



(** ** Bounds on the beamformed power *)












Lemma Cmul_1_r (z : cplx) : Cmul z (1, 0)%R = z.
Proof. destruct z as [a b]. unfold Cmul. cbn [fst snd]. f_equal; ring. Qed.

Lemma beam_broadside (self : SRP) (sig_stft : tensor3) (theta_deg f : Q) (k t : nat) :
  theta_deg == 0 \/ d_inter self == 0 ->
  beam self sig_stft theta_deg f k t
  = Csum (map (fun m => at3 sig_stft m k t) (seq 0 (dim0 sig_stft))).
Proof.
  intros H. unfold beam. f_equal. apply map_ext. intros m.
  destruct H as [H|H];
    [rewrite (steering_broadside self _ f m H)|rewrite (steering_no_spacing self _ f m H)];
    apply Cmul_1_r.
Qed.

(** X7. Under the same conditions, at a grid angle of 0 degrees (and at
    every angle when the spacing is zero) the power is that of the plain sum
    of the channels: the square of the mean over the frames of the magnitude
    of the channel sum. *)
Theorem power_entry_broadside (self : SRP) (sig_stft : tensor3)
    (theta f_analog ramp : list Q) (j k : nat) :
  ~ c self == 0 ->
  torch_linspace 0 (inject_Z (Z.of_nat (dim0 sig_stft)) - 1) (Z.of_nat (dim0 sig_stft))
    = inr ramp ->
  dim1 sig_stft = length f_analog ->
  (0 < dim2 sig_stft)%nat ->
  (j < length theta)%nat ->
  (k < length f_analog)%nat ->
  nth j theta 0 == 0 \/ d_inter self == 0 ->
  nth j (nth k (sweep self sig_stft f_analog
                  (map (fun q => sin (deg2rad (Q2R q))) theta) ramp) []) (Fin 0)
  = Fin (Rsqr (Rmean (map (fun t => Cabs (Csum (map (fun m => at3 sig_stft m k t)
                                                     (seq 0 (dim0 sig_stft)))))
                          (seq 0 (dim2 sig_stft))))).
Proof.
  intros Hc Hramp Hdim HT Hj Hk H0.
  rewrite (power_entry_finite self sig_stft theta f_analog ramp j k) by assumption.
  do 3 f_equal. apply map_ext. intros t. f_equal. apply beam_broadside. exact H0.
Qed.

Lemma power_entry_broadside_witness :
  nth 0 (nth 0 (sweep small_srp two_frames [2000]
                  (map (fun q => sin (deg2rad (Q2R q))) [0]) [0]) []) (Fin 0)
  = Fin (Rsqr (Rmean (map (fun t => Cabs (Csum (map (fun m => at3 two_frames m 0 t)
                                                     (seq 0 (dim0 two_frames)))))
                          (seq 0 (dim2 two_frames))))).
Proof.
  apply (power_entry_broadside small_srp two_frames [0] [2000] [0] 0 0).
  - cbn. discriminate.
  - reflexivity.
  - reflexivity.
  - cbn; lia.
  - cbn; lia.
  - cbn; lia.
  - left. reflexivity.
Defined.

(** ** Reversing the channel order *)















Lemma mean_dim0_entries (A F : nat) (pm : list (list fval)) :
  length pm = F ->
  mean_dim0 torch_mean A pm
  = map (fun j => torch_mean (map (fun k => nth j (nth k pm []) (Fin 0)) (seq 0 F)))
        (seq 0 A).
Proof.
  intros HF. unfold mean_dim0. apply map_ext. intros j. f_equal.
  rewrite (map_seq_nth pm []) at 1. rewrite map_map, HF. reflexivity.
Qed.

Lemma nth_mean_dim0 (A F : nat) (pm : list (list fval)) (j : nat) :
  length pm = F ->
  (j < A)%nat ->
  nth j (mean_dim0 torch_mean A pm) NaN
  = torch_mean (map (fun k => nth j (nth k pm []) (Fin 0)) (seq 0 F)).
Proof.
  intros HF Hj. rewrite (mean_dim0_entries A F pm HF).
  set (g := fun j => torch_mean (map (fun k => nth j (nth k pm []) (Fin 0)) (seq 0 F))).
  rewrite (nth_indep _ NaN (g 0%nat)) by (rewrite length_map, length_seq; exact Hj).
  rewrite (map_nth g). rewrite seq_nth by exact Hj. reflexivity.
Qed.



(** ** The steering vector inside [srp_ula] *)

(** Entry [j] of the curve [srp_ula] returns, written with the steering
    vector of the [j]-th grid angle. *)
Lemma srp_ula_curve_entry (self : SRP) (sig_stft : tensor3) (f_analog : list Q)
    (doa : flt) (curve : list fval) :
  ~ c self == 0 ->
  dim1 sig_stft = length f_analog ->
  (0 < dim2 sig_stft)%nat ->
  f_analog <> [] ->
  srp_ula self sig_stft f_analog = inr (doa, curve) ->
  exists (n : Z) (theta ramp : list Q),
    angle_count self = inr n
    /\ torch_linspace (-90) 90 n = inr theta
    /\ length curve = length theta
    /\ torch_linspace 0 (inject_Z (Z.of_nat (dim0 sig_stft)) - 1) (Z.of_nat (dim0 sig_stft))
       = inr ramp
    /\ forall j, (j < length theta)%nat ->
         nth j curve NaN
         = Fin (Rmean
                  (map (fun k =>
                          Rsqr (Rmean (map (fun t => Cabs (beam self sig_stft (nth j theta 0)
                                                               (nth k f_analog 0) k t))
                                           (seq 0 (dim2 sig_stft)))))
                       (seq 0 (length f_analog)))).
Proof.
  intros Hc Hdim HT Hne Hs.
  destruct (srp_ula_inv _ _ _ _ _ Hs) as (n & theta & ramp & Hn & Ht & Hramp & _ & Hagg).
  destruct (aggregate_inv _ _ _ _ _ _ Hagg) as (Hcurve & _).
  exists n, theta, ramp. split; [exact Hn|]. split; [exact Ht|].
  split; [rewrite Hcurve, mean_dim0_length; reflexivity|]. split; [exact Hramp|].
  intros j Hj.
  set (ts := map (fun q => sin (deg2rad (Q2R q))) theta) in *.
  destruct (sweep_shape self sig_stft f_analog ramp ts) as [HF _].
  rewrite Hcurve, (nth_mean_dim0 _ (length f_analog) _ j HF Hj).
  set (g := fun k => Rsqr (Rmean (map (fun t => Cabs (beam self sig_stft (nth j theta 0)
                                                        (nth k f_analog 0) k t))
                                      (seq 0 (dim2 sig_stft))))).
  rewrite (map_ext_in _ (fun k => Fin (g k))).
  - rewrite <- (map_map g Fin). apply torch_mean_Fin.
    destruct f_analog; [congruence|discriminate].
  - intros k Hk. apply in_seq in Hk. unfold ts.
    rewrite (power_entry_finite self sig_stft theta f_analog ramp j k);
      try assumption; try lia.
    reflexivity.
Qed.

(** C2. With a non-zero propagation speed, in a returning call of [srp_ula]
    the candidate angles are the grid [theta] of line 75, in degrees; the
    steering vector of iteration [j] has at frequency row [k] and channel
    [m] the entry [exp(-j * 2 pi sin(theta_j * pi / 180) d f_k m / c)], the
    angle turned into radians before the sine; and entry [j] of the returned
    curve is computed with these entries: it is the mean over the frequency
    rows of the squared mean over the frames of the magnitude of the sum
    over the channels of the spectrum times the steering-vector entry. *)
Theorem steering_vector_entry (self : SRP) (sig_stft : tensor3) (f_analog : list Q)
    (doa : flt) (curve : list fval) :
  ~ c self == 0 ->
  dim1 sig_stft = length f_analog ->
  (0 < dim2 sig_stft)%nat ->
  f_analog <> [] ->
  srp_ula self sig_stft f_analog = inr (doa, curve) ->
  exists (n : Z) (theta ramp : list Q),
    (q <- py_div (Fnum 180) (binary64 (resolution self)) ;; python_int (py_add q (Fnum 1)))
    = inr n
    /\ torch_linspace (-90) 90 n = inr theta
    /\ length curve = length theta
    /\ torch_linspace 0 (inject_Z (Z.of_nat (dim0 sig_stft)) - 1) (Z.of_nat (dim0 sig_stft))
       = inr ramp
    /\ (forall j k m,
          (j < length theta)%nat -> (k < length f_analog)%nat -> (m < dim0 sig_stft)%nat ->
          nth m (nth k (steer_vec self
                          (nth j (map (fun q => sin (deg2rad (Q2R q))) theta) 0%R)
                          f_analog ramp) []) CNaN
          = CFin (Cexp (0, - (2 * PI * sin (Q2R (nth j theta 0%Q) * (PI / 180))
                              * Q2R (d_inter self) * Q2R (nth k f_analog 0%Q) * INR m
                              / Q2R (c self)))%R))
    /\ (forall j, (j < length theta)%nat ->
          nth j curve NaN
          = Fin (Rmean
                   (map (fun k =>
                      Rsqr (Rmean
                        (map (fun t =>
                           Cabs (Csum
                             (map (fun m =>
                                Cmul (at3 sig_stft m k t)
                                     (Cexp (0, - (2 * PI
                                                  * sin (Q2R (nth j theta 0%Q) * (PI / 180))
                                                  * Q2R (d_inter self)
                                                  * Q2R (nth k f_analog 0%Q) * INR m
                                                  / Q2R (c self)))%R))
                                  (seq 0 (dim0 sig_stft)))))
                             (seq 0 (dim2 sig_stft)))))
                        (seq 0 (length f_analog))))).
Proof.
  intros Hc Hdim HT Hne Hs.
  destruct (srp_ula_curve_entry self sig_stft f_analog doa curve Hc Hdim HT Hne Hs)
    as (n & theta & ramp & Hn & Ht & Hlen & Hramp & Hent).
  exists n, theta, ramp. split; [exact Hn|]. split; [exact Ht|]. split; [exact Hlen|].
  split; [exact Hramp|]. split.
  - intros j k m Hj Hk Hm.
    apply (steer_vec_entry self (dim0 sig_stft) theta ramp f_analog j k m); assumption.
  - intros j Hj. rewrite (Hent j Hj). reflexivity.
Qed.

Lemma steering_vector_entry_witness :
  exists doa curve theta,
    srp_ula small_srp two_channels [2000] = inr (doa, curve)
    /\ torch_linspace (-90) 90 5 = inr theta
    /\ nth 0 theta 0 == -90
    /\ nth 0 curve NaN
       = Fin (Rmean
                (map (fun k =>
                   Rsqr (Rmean
                     (map (fun t =>
                        Cabs (Csum
                          (map (fun m =>
                             Cmul (at3 two_channels m k t)
                                  (Cexp (0, - (2 * PI
                                               * sin (Q2R (nth 0%nat theta 0%Q) * (PI / 180))
                                               * Q2R (d_inter small_srp)
                                               * Q2R (nth k [2000%Q] 0%Q) * INR m
                                               / Q2R (c small_srp)))%R))
                               (seq 0 (dim0 two_channels)))))
                          (seq 0 (dim2 two_channels)))))
                     (seq 0 (length [2000])))).
Proof.
  destruct (srp_ula_returns small_srp two_channels [2000] 5 small_angle_count
              eq_refl eq_refl) as (doa & curve & Hs & Hlen).
  destruct (steering_vector_entry small_srp two_channels [2000] doa curve)
    as (n & theta & ramp & Hn & Ht & Hl & _ & _ & Hent).
  - cbn. discriminate.
  - reflexivity.
  - cbn. lia.
  - discriminate.
  - exact Hs.
  - assert (En : n = 5%Z).
    { pose proof small_angle_count as H5. unfold angle_count in H5.
      rewrite Hn in H5. inversion H5. reflexivity. }
    subst n. exists doa, curve, theta.
    split; [exact Hs|]. split; [exact Ht|]. split.
    + inversion Ht. reflexivity.
    + apply Hent. rewrite <- Hl, Hlen. cbn. lia.
Defined.

(** ** Arrays that cannot tell directions apart *)

Lemma phase_no_delay (self : SRP) (ts : R) (f m : Q) :
  m == 0 \/ d_inter self == 0 ->
  phase self ts f m = phase self 0 f m.
Proof.
  intros H. unfold phase. destruct (Qeq_bool (c self) 0); [reflexivity|]. f_equal.
  destruct H as [H|H].
  - assert (Hfm : Q2R (f * m) = 0%R).
    { rewrite Q2R_mult, (Q2R_eq_0 _ H). ring. }
    rewrite Hfm. unfold Rdiv. ring.
  - rewrite (Q2R_eq_0 _ H). unfold Rdiv. ring.
Qed.

Lemma steer_vec_no_delay (self : SRP) (ts : R) (f_analog ramp : list Q) :
  Forall (fun m => m == 0) ramp \/ d_inter self == 0 ->
  steer_vec self ts f_analog ramp = steer_vec self 0 f_analog ramp.
Proof.
  intros H. unfold steer_vec. apply map_ext. intros f. apply map_ext_in. intros m Hm.
  unfold steer_entry. rewrite (phase_no_delay self ts f m); [reflexivity|].
  destruct H as [H|H]; [left|right; exact H].
  rewrite Forall_forall in H. apply H. exact Hm.
Qed.

Lemma short_ramp (M : nat) (ramp : list Q) :
  torch_linspace 0 (inject_Z (Z.of_nat M) - 1) (Z.of_nat M) = inr ramp ->
  (M <= 1)%nat ->
  Forall (fun m => m == 0) ramp.
Proof.
  intros H HM. destruct M as [|[|M]]; [| |lia]; cbn in H; inversion H; subst.
  - constructor.
  - constructor; [reflexivity|constructor].
Qed.

Lemma beats_same (v : fval) : beats v v = false.
Proof.
  destruct v as [|x]; [reflexivity|]. cbn [beats].
  destruct (Rlt_dec x x) as [H|H]; [exfalso; lra|reflexivity].
Qed.

Lemma argmax_from_constant (v : fval) (n i bi : nat) :
  argmax_from (repeat v n) i bi v = bi.
Proof.
  revert i. induction n as [|n IH]; intros i; cbn [repeat argmax_from]; [reflexivity|].
  rewrite beats_same. apply IH.
Qed.

(** X10. When the array has at most one channel, or a spacing of zero, all
    candidate angles get the same power: the curve [srp_ula] returns is
    constant and the returned angle is always that of index 0, the float32
    value of [0 * resolution - 90]: -90 degrees for every resolution that
    float32 holds as a number. *)
Theorem degenerate_array_estimate (self : SRP) (X : tensor3) (f_analog : list Q)
    (doa : flt) (curve : list fval) :
  (dim0 X <= 1)%nat \/ d_inter self == 0 ->
  srp_ula self X f_analog = inr (doa, curve) ->
  (doa = flt_sub binary32
           (flt_mul binary32 (Fnum 0) (to_f32 (binary64 (resolution self))))
           (Fnum 90)
   /\ forall r, to_f32 (binary64 (resolution self)) = Fnum r -> doa = Fnum (-90))
  /\ exists v, curve = repeat v (length curve).
Proof.
  intros Hdeg Hs.
  destruct (srp_ula_inv _ _ _ _ _ Hs) as (n & theta & ramp & Hn & Ht & Hramp & _ & Hagg).
  destruct (aggregate_inv _ _ _ _ _ _ Hagg) as (Hcurve & idx & Hidx & Hdoa).
  set (ts := map (fun q => sin (deg2rad (Q2R q))) theta) in *.
  assert (Hnd : Forall (fun m => m == 0) ramp \/ d_inter self == 0).
  { destruct Hdeg as [HM|Hd]; [left; apply (short_ramp _ _ Hramp HM)|right; exact Hd]. }
  set (v := torch_mean
              (map (fun k => fsquare (response_norm X
                                        (nth k (steer_vec self 0 f_analog ramp) []) k))
                   (seq 0 (length f_analog)))).
  assert (Hconst : curve = repeat v (length theta)).
  { destruct (sweep_shape self X f_analog ramp ts) as [HF _].
    rewrite Hcurve, (mean_dim0_entries _ (length f_analog) _ HF).
    rewrite <- (map_const_seq v 0 (length theta)).
    apply map_ext_in. intros j Hj. apply in_seq in Hj. unfold v. f_equal.
    apply map_ext_in. intros k Hk. apply in_seq in Hk.
    rewrite sweep_entry by (try lia; unfold ts; rewrite length_map; lia).
    rewrite (steer_vec_no_delay self _ f_analog ramp Hnd). reflexivity. }
  assert (Hlen : length curve = length theta) by (rewrite Hconst, repeat_length; reflexivity).
  split.
  - rewrite Hconst in Hidx. destruct (length theta) as [|a]; [discriminate|].
    cbn [repeat torch_argmax] in Hidx. rewrite argmax_from_constant in Hidx.
    inversion Hidx; subst idx. rewrite Hdoa.
    split; [reflexivity|]. intros r Hr. apply (index_to_deg_0 _ r Hr).
  - exists v. rewrite Hlen. exact Hconst.
Qed.

Lemma degenerate_array_estimate_witness :
  exists doa curve,
    srp_ula small_srp two_frames [2000] = inr (doa, curve)
    /\ doa = Fnum (-90)
    /\ exists v, curve = repeat v (length curve).
Proof.
  destruct (srp_ula_returns small_srp two_frames [2000] 5 small_angle_count eq_refl eq_refl)
    as (doa & curve & Hs & _).
  exists doa, curve. split; [exact Hs|].
  destruct (degenerate_array_estimate small_srp two_frames [2000] doa curve) as [[_ Hd] Hc].
  - left. cbn. lia.
  - exact Hs.
  - split; [|exact Hc]. apply (Hd 45). vm_compute. reflexivity.
Defined.

(** ** The power curve in terms of the raw spectrum *)

Lemma true_indices_filter_gen (p : Q -> bool) (l : list Q) (s : nat) :
  true_indices (map p l) s
  = filter (fun i => p (nth (i - s) l 0)) (seq s (length l)).
Proof.
  revert s. induction l as [|a l IH]; intros s; [reflexivity|].
  cbn [map true_indices length seq filter]. rewrite Nat.sub_diag. cbn [nth].
  rewrite IH.
  assert (Hf : filter (fun i => p (nth (i - S s) l 0)) (seq (S s) (length l))
               = filter (fun i => p (nth (i - s) (a :: l) 0)) (seq (S s) (length l))).
  { apply filter_ext_in. intros i Hi. apply in_seq in Hi.
    replace (i - s)%nat with (S (i - S s)) by lia. reflexivity. }
  rewrite Hf. reflexivity.
Qed.

(** The raw bins the mask keeps, as positions on the raw axis. *)
Lemma true_indices_filter (p : Q -> bool) (l : list Q) :
  true_indices (map p l) 0 = filter (fun i => p (nth i l 0)) (seq 0 (length l)).
Proof.
  rewrite true_indices_filter_gen. apply filter_ext. intros i.
  rewrite Nat.sub_0_r. reflexivity.
Qed.

Lemma multi_channel_stft_entries torch_stft linspace_f32 (self : SRP) (x : tensor2) (X' : tensor3)
    (f' : list Q) :
  multi_channel_stft torch_stft linspace_f32 self x = inr (X', f') ->
  exists X f_raw,
    torch_stft self x = inr X
    /\ raw_axis linspace_f32 self = inr f_raw
    /\ dim0 X' = dim0 X /\ dim2 X' = dim2 X
    /\ let bins := filter (fun i => in_band self (nth i f_raw 0)) (seq 0 (length f_raw)) in
       dim1 X' = length bins
       /\ f' = map (fun i => nth i f_raw 0) bins
       /\ forall m k t, at3 X' m k t = at3 X m (nth k bins 0%nat) t.
Proof.
  unfold multi_channel_stft. intros H.
  destruct (torch_stft self x) as [e|X] eqn:EX; [discriminate|]. cbn [bind] in H.
  destruct (raw_axis linspace_f32 self) as [e|f_raw] eqn:Eraw; [discriminate|]. cbn [bind] in H.
  unfold index_mask_dim1 in H.
  destruct (Nat.eqb _ _); [|discriminate]. cbn [bind] in H.
  inversion H; subst; clear H. cbn [dim0 dim1 dim2 at3].
  exists X, f_raw. split; [reflexivity|]. split; [reflexivity|].
  split; [reflexivity|]. split; [reflexivity|]. cbv zeta.
  unfold index_mask. rewrite true_indices_filter.
  split; [reflexivity|]. split; reflexivity.
Qed.

(** X11. When [forward] returns, with a non-zero propagation speed, at least
    one frame and at least one raw bin kept by the band mask (the float32
    comparison of line 64), entry [j] of the power curve is the mean, over
    the raw bins the mask keeps, of the squared mean over the frames of the
    magnitude of the delay-and-sum response of the raw spectrum at that bin,
    steered to the [j]-th grid angle. *)
Theorem forward_power_curve torch_stft linspace_f32 (self : SRP) (x : tensor2)
    (X : tensor3) (f_raw : list Q) (doa : flt) (curve : list fval) :
  let kept := fun f : Q =>
    flt_leb (to_f32 (binary64 (f_low self))) (Fnum f)
    && flt_ltb (Fnum f) (to_f32 (binary64 (f_high self))) in
  outcome (forward torch_stft linspace_f32 self x) = inr (doa, curve) ->
  torch_stft self x = inr X ->
  raw_axis linspace_f32 self = inr f_raw ->
  ~ c self == 0 ->
  (0 < dim2 X)%nat ->
  filter (fun i => kept (nth i f_raw 0)) (seq 0 (length f_raw)) <> [] ->
  exists theta,
    theta_grid self = inr theta
    /\ length curve = length theta
    /\ forall j, (j < length theta)%nat ->
         nth j curve NaN
         = Fin (Rmean
                  (map (fun i =>
                          Rsqr (Rmean (map (fun t => Cabs (beam self X (nth j theta 0)
                                                               (nth i f_raw 0) i t))
                                           (seq 0 (dim2 X)))))
                       (filter (fun i => kept (nth i f_raw 0))
                               (seq 0 (length f_raw))))).
Proof.
  intros kept H HX Hraw Hc HT Hbins.
  change kept with (in_band self) in *. clear kept.
  destruct (forward_inv _ _ _ _ _ _ H) as (_ & X' & f' & Hm & Hs & _).
  destruct (multi_channel_stft_entries _ _ _ _ _ _ Hm)
    as (X0 & f0 & HX0 & Hraw0 & Hd0 & Hd2 & Hent).
  rewrite HX in HX0. inversion HX0; subst X0.
  rewrite Hraw in Hraw0. inversion Hraw0; subst f0. cbv zeta in Hent.
  set (bins := filter (fun i => in_band self (nth i f_raw 0)) (seq 0 (length f_raw))) in *.
  destruct Hent as (Hd1 & Hf' & Hat).
  destruct (srp_ula_inv _ _ _ _ _ Hs) as (n & theta & ramp & Hn & Ht & Hramp & _ & Hagg).
  destruct (aggregate_inv _ _ _ _ _ _ Hagg) as (Hcurve & _).
  set (ts := map (fun q => sin (deg2rad (Q2R q))) theta) in *.
  assert (Hlenf : length f' = length bins) by (rewrite Hf', length_map; reflexivity).
  exists theta. split; [unfold theta_grid; rewrite Hn; exact Ht|].
  split; [rewrite Hcurve, mean_dim0_length; reflexivity|].
  intros j Hj.
  destruct (sweep_shape self X' f' ramp ts) as [HF _].
  rewrite Hcurve, (nth_mean_dim0 _ (length f') _ j HF Hj).
  set (g := fun i => Rsqr (Rmean (map (fun t => Cabs (beam self X (nth j theta 0)
                                                        (nth i f_raw 0) i t))
                                      (seq 0 (dim2 X))))).
  rewrite (map_ext_in _ (fun k => Fin (g (nth k bins 0%nat)))).
  - rewrite Hlenf.
    rewrite <- (map_map (fun k => nth k bins 0%nat) (fun i => Fin (g i))).
    rewrite <- (map_seq_nth bins 0%nat).
    rewrite <- (map_map g Fin). apply torch_mean_Fin.
    destruct bins; [congruence|discriminate].
  - intros k Hk. apply in_seq in Hk.
    unfold ts.
    rewrite (power_entry_finite self X' theta f' ramp j k); try assumption; try lia.
    unfold g. rewrite Hd2. do 3 f_equal. apply map_ext. intros t. f_equal.
    unfold beam. rewrite Hd0. f_equal.
    + apply map_ext. intros m. rewrite Hat. f_equal. f_equal.
      rewrite Hf'.
      rewrite (nth_indep _ 0 (nth 0%nat f_raw 0)) by (rewrite length_map; lia).
      rewrite (map_nth (fun i => nth i f_raw 0)). reflexivity.
Qed.

Lemma forward_power_curve_witness :
  exists doa curve X theta,
    outcome (forward silent_stft exact_linspace small_srp (silence 8 2)) = inr (doa, curve)
    /\ silent_stft small_srp (silence 8 2) = inr X
    /\ theta_grid small_srp = inr theta
    /\ nth 2 curve NaN
       = Fin (Rmean
                (map (fun i =>
                        Rsqr (Rmean (map (fun t => Cabs (beam small_srp X (nth 2 theta 0)
                                                             (nth i [0; 2000; 4000; 6000; 8000] 0) i t))
                                         (seq 0 (dim2 X)))))
                     [1; 2]%nat)).
Proof.
  destruct small_config as (Hny & HX & Hraw & Hn).
  destruct (forward_runs silent_stft exact_linspace small_srp (silence 8 2) _ _ 5
              Hny HX Hraw eq_refl Hn eq_refl) as (doa & curve & Hf & Hcl).
  assert (Hout : outcome (forward silent_stft exact_linspace small_srp (silence 8 2))
                 = inr (doa, curve))
    by (rewrite Hf; reflexivity).
  assert (Hbins : filter (fun i => in_band small_srp (nth i [0; 2000; 4000; 6000; 8000] 0))
                         (seq 0 5) = [1; 2]%nat).
  { unfold in_band, small_srp. cbn [f_low f_high]. vm_compute. reflexivity. }
  destruct (forward_power_curve silent_stft exact_linspace small_srp (silence 8 2) _ _
              doa curve Hout HX Hraw) as (theta & Hg & Hl & Hent).
  - cbn. discriminate.
  - cbn. lia.
  - change (filter (fun i => in_band small_srp (nth i [0; 2000; 4000; 6000; 8000] 0))
                   (seq 0 5) <> []).
    rewrite Hbins. discriminate.
  - exists doa, curve, (mkT3 2 5 3 (fun _ _ _ => (0, 0)%R)), theta.
    split; [exact Hout|]. split; [exact HX|]. split; [exact Hg|].
    rewrite <- Hbins. apply Hent. rewrite <- Hl, Hcl. cbn. lia.
Defined.

(** ** The order of the sweep *)

(** Invariant of the column loop for any order of in-range columns. *)
Lemma column_loop_any_order (col : nat -> list fval) (F A : nat) (order : list nat) :
  (forall j, length (col j) = F) ->
  Forall (fun j => (j < A)%nat) order ->
  forall pm0 : list (list fval),
  length pm0 = F ->
  rows_of_length A pm0 ->
  let pm := fold_left (fun pm j => set_column j (col j) pm) order pm0 in
  length pm = F
  /\ rows_of_length A pm
  /\ forall k j, (k < F)%nat ->
       nth j (nth k pm []) (Fin 0)
       = if existsb (Nat.eqb j) order then nth k (col j) (Fin 0)
         else nth j (nth k pm0 []) (Fin 0).
Proof.
  intros Hcol. induction order as [|a order IH]; intros Hin pm0 HF HA; cbv zeta.
  - cbn [fold_left existsb]. split; [exact HF|]. split; [exact HA|]. reflexivity.
  - apply Forall_cons_iff in Hin. destruct Hin as [Ha Hin']. cbn [fold_left].
    assert (Hc : length (col a) = length pm0) by (rewrite HF; apply Hcol).
    assert (HF1 : length (set_column a (col a) pm0) = F)
      by (rewrite length_set_column; assumption).
    assert (HA1 : rows_of_length A (set_column a (col a) pm0)).
    { intros k Hk. rewrite length_set_column in Hk by exact Hc.
      rewrite nth_set_column by assumption. rewrite length_set_nth. apply HA. exact Hk. }
    destruct (IH Hin' _ HF1 HA1) as (HF2 & HA2 & Hent). cbv zeta in *.
    split; [exact HF2|]. split; [exact HA2|].
    intros k j Hk. rewrite Hent by exact Hk. cbn [existsb].
    destruct (existsb (Nat.eqb j) order) eqn:Eo; [rewrite orb_true_r; reflexivity|].
    rewrite orb_false_r.
    rewrite nth_set_column by (try assumption; rewrite HF; exact Hk).
    destruct (Nat.eqb j a) eqn:Eja.
    + apply Nat.eqb_eq in Eja. subst j.
      apply nth_set_nth_same. rewrite HA; [exact Ha|rewrite HF; exact Hk].
    + apply Nat.eqb_neq in Eja. apply nth_set_nth_other. exact Eja.
Qed.

Lemma grid_ext (F A : nat) (pm pm' : list (list fval)) :
  length pm = F -> length pm' = F ->
  rows_of_length A pm -> rows_of_length A pm' ->
  (forall k j, (k < F)%nat -> (j < A)%nat ->
     nth j (nth k pm []) (Fin 0) = nth j (nth k pm' []) (Fin 0)) ->
  pm = pm'.
Proof.
  intros HF HF' HA HA' Hent. apply (nth_ext _ _ [] []); [congruence|].
  intros k Hk. apply (nth_ext _ _ (Fin 0) (Fin 0)).
  - rewrite HA by exact Hk. rewrite HA' by (rewrite HF', <- HF; exact Hk). reflexivity.
  - intros j Hj. rewrite HA in Hj by exact Hk. apply Hent; [rewrite <- HF; exact Hk|exact Hj].
Qed.

(** X13. The columns of the power grid do not depend on one another: running
    the loop body over the angle indices in any order that visits every
    index of the grid, and no other, gives the same grid as the loop of the
    source, also when an index is visited more than once. *)
Theorem sweep_order_independent (self : SRP) (sig_stft : tensor3) (f_analog : list Q)
    (theta_sin : list R) (ramp : list Q) (order : list nat) :
  (forall j, In j order <-> (j < length theta_sin)%nat) ->
  sweep_in_order self sig_stft f_analog theta_sin ramp order
  = sweep self sig_stft f_analog theta_sin ramp.
Proof.
  intros Horder.
  set (col := fun j => power_column self sig_stft f_analog ramp (nth j theta_sin 0%R)).
  destruct (zeros_shape (length f_analog) (length theta_sin)) as [HF HA].
  assert (Hcol : forall j, length (col j) = length f_analog)
    by (intros j; apply length_power_column).
  assert (Hin : Forall (fun j => (j < length theta_sin)%nat) order)
    by (apply Forall_forall; intros j Hj; apply Horder; exact Hj).
  assert (Hseq : Forall (fun j => (j < length theta_sin)%nat) (seq 0 (length theta_sin)))
    by (apply Forall_forall; intros j Hj; apply in_seq in Hj; lia).
  destruct (column_loop_any_order col _ _ order Hcol Hin _ HF HA) as (H1 & H2 & H3).
  destruct (column_loop_any_order col _ _ _ Hcol Hseq _ HF HA) as (H1' & H2' & H3').
  cbv zeta in *.
  apply (grid_ext (length f_analog) (length theta_sin)); try assumption.
  intros k j Hk Hj. unfold sweep_in_order, sweep. fold col.
  rewrite H3, H3' by exact Hk.
  assert (E1 : existsb (Nat.eqb j) order = true).
  { apply existsb_exists. exists j. split; [apply Horder; exact Hj|apply Nat.eqb_refl]. }
  assert (E2 : existsb (Nat.eqb j) (seq 0 (length theta_sin)) = true).
  { apply existsb_exists. exists j. split; [apply in_seq; lia|apply Nat.eqb_refl]. }
  rewrite E1, E2. reflexivity.
Qed.

Lemma sweep_order_independent_witness :
  sweep_in_order small_srp two_channels [2000] [0; 1; 0]%R [0; 1] [2; 0; 1; 2]%nat
  = sweep small_srp two_channels [2000] [0; 1; 0]%R [0; 1].
Proof.
  apply sweep_order_independent. intros j. cbn [In length]. lia.
Defined.

(** ** The retained frequency axis *)

(** X14. Every frequency on the axis the transform stage returns is one of
    the raw axis, and it lies in the band of the float32 values of [f_low]
    and [f_high]: at or above the first, strictly below the second.  The
    returned axis is empty, and the returned spectrum has no frequency row,
    when [f_high <= f_low]: rounding the two edges keeps their order. *)
Theorem retained_axis_shape torch_stft linspace_f32 (self : SRP) (x : tensor2)
    (X' : tensor3) (f' : list Q) :
  multi_channel_stft torch_stft linspace_f32 self x = inr (X', f') ->
  (exists f_raw, raw_axis linspace_f32 self = inr f_raw
                 /\ (length f' <= length f_raw)%nat
                 /\ forall f, In f f' -> In f f_raw)
  /\ (forall f, In f f' ->
        flt_leb (to_f32 (binary64 (f_low self))) (Fnum f) = true
        /\ flt_ltb (Fnum f) (to_f32 (binary64 (f_high self))) = true)
  /\ (forall lo hi f,
        to_f32 (binary64 (f_low self)) = Fnum lo ->
        to_f32 (binary64 (f_high self)) = Fnum hi ->
        In f f' -> lo <= f /\ f < hi)
  /\ (f_high self <= f_low self -> f' = [] /\ dim1 X' = 0%nat).
Proof.
  intros Hm.
  destruct (multi_channel_stft_inv _ _ _ _ _ _ Hm)
    as (X & f_raw & _ & Hraw & _ & Hf' & _ & Hd1 & _).
  assert (Hin : forall f, In f f' -> In f f_raw /\ in_band self f = true).
  { intros f Hf. rewrite Hf' in Hf. apply filter_In in Hf. exact Hf. }
  split; [|split; [|split]].
  - exists f_raw. split; [exact Hraw|]. split.
    + rewrite Hf'. apply filter_length_le.
    + intros f Hf. apply (proj1 (Hin f Hf)).
  - intros f Hf. apply in_band_spec. apply (proj2 (Hin f Hf)).
  - intros lo hi f Hlo Hhi Hf. apply (in_band_num self lo hi f Hlo Hhi).
    apply (proj2 (Hin f Hf)).
  - intros Hle.
    assert (He : f' = []).
    { rewrite Hf'. apply filter_none. intros f _. unfold in_band.
      apply flt_band_empty. apply to_f32_mono. apply binary64_mono. exact Hle. }
    split; [exact He|]. rewrite Hd1, He. reflexivity.
Qed.

Lemma retained_axis_shape_witness :
  (1000 <= 2000 /\ 2000 < 5000) /\ (1000 <= 4000 /\ 4000 < 5000).
Proof.
  destruct small_transform_run as [X' Hm].
  pose proof (proj1 (proj2 (proj2 (retained_axis_shape silent_stft exact_linspace small_srp
                                     (silence 8 2) X' [2000; 4000] Hm))) 1000 5000) as H.
  assert (Hlo : to_f32 (binary64 (f_low small_srp)) = Fnum 1000) by (vm_compute; reflexivity).
  assert (Hhi : to_f32 (binary64 (f_high small_srp)) = Fnum 5000) by (vm_compute; reflexivity).
  split.
  - apply (H 2000 Hlo Hhi). left. reflexivity.
  - apply (H 4000 Hlo Hhi). right. left. reflexivity.
Defined.

(** ** Configurations that stay within the spatial Nyquist bound *)

Lemma nyquist_check_inv (self : SRP) :
  spatial_nyquist_check self = inr tt ->
  exists bound,
    nyquist_bound self = inr bound
    /\ flt_ltb bound (binary64 (d_inter self)) = false.
Proof.
  unfold spatial_nyquist_check. destruct (nyquist_bound self) as [e|bound]; [discriminate|].
  cbn [bind]. destruct (flt_ltb bound (binary64 (d_inter self))) eqn:E; [discriminate|].
  intros _. exists bound. split; [reflexivity|exact E].
Qed.

(** [2 * f] for a float [f] that is at least the smallest positive one. *)
Lemma py_double_pos (a : flt) :
  flt_leb (Fnum (pow2 (-1074))) a = true ->
  (exists t, py_mul (Fnum 2) a = Fnum t /\ 0 < t) \/ py_mul (Fnum 2) a = Finf false.
Proof.
  intros H. destruct a as [|[|]|f]; cbn [flt_leb negb] in H; try discriminate.
  - right. reflexivity.
  - apply Qle_bool_iff in H. pose proof (pow2_pos (-1074)) as P.
    apply (flt_above_pos _ (pow2 (-1074)) P).
    rewrite <- binary64_min. apply binary64_mono.
    revert H P. generalize (pow2 (-1074)). intros p H P. Lqa.lra.
Qed.

Lemma py_double_mono (a b : flt) :
  flt_leb (Fnum 0) a = true -> flt_leb a b = true ->
  flt_leb (py_mul (Fnum 2) a) (py_mul (Fnum 2) b) = true.
Proof.
  intros Ha H. destruct a as [|[|]|x]; cbn in Ha; try discriminate;
    destruct b as [|[|]|y]; cbn in H; try discriminate; try reflexivity.
  - apply flt_leb_inf. apply binary64_not_nan.
  - apply Qle_bool_iff in H. apply binary64_mono. Lqa.lra.
Qed.

Lemma py_div_pos (a : flt) (t : Q) :
  0 < t ->
  py_div a (Fnum t)
  = inr (match a with
         | Fnum x => binary64 (x / t)
         | Finf s => Finf s
         | Fnan => Fnan
         end).
Proof.
  intros Ht. unfold py_div.
  destruct (Qeq_bool t 0) eqn:E.
  - apply Qeq_bool_iff in E. rewrite E in Ht. exfalso. apply (Qlt_irrefl 0 Ht).
  - destruct a as [|s|x]; try reflexivity.
    unfold is_neg. rewrite (proj2 (Qle_bool_iff 0 t) (Qlt_le_weak _ _ Ht)).
    cbn [negb]. rewrite xorb_false_r. reflexivity.
Qed.

Lemma Qdiv_le_mono (x y s t : Q) :
  0 <= x -> x <= y -> 0 < s -> s <= t -> x / t <= y / s.
Proof.
  intros Hx Hxy Hs Hst. assert (Ht : 0 < t) by Lqa.lra.
  apply Qle_trans with (y / t).
  - apply Qmult_le_compat_r; [exact Hxy|]. apply Qlt_le_weak, Qinv_lt_0_compat. exact Ht.
  - unfold Qdiv. rewrite (Qmult_comm y (/ t)), (Qmult_comm y (/ s)).
    apply Qmult_le_compat_r; [|Lqa.lra].
    apply Qle_shift_inv_r; [exact Ht|].
    apply Qle_trans with (/ s * s).
    + rewrite Qmult_comm, Qmult_inv_r; [apply Qle_refl|].
      intros E. rewrite E in Hs. apply (Qlt_irrefl 0 Hs).
    + apply Qmult_le_l; [apply Qinv_lt_0_compat; exact Hs|exact Hst].
Qed.

(** A float that is neither zero nor negative is at least the smallest
    positive float. *)
Lemma round_to_min (prec emin : Z) (q : Q) :
  0 < q -> ~ round_to prec emin q == 0 -> pow2 emin <= round_to prec emin q.
Proof.
  intros Hq Hr.
  assert (Hq0 : ~ q == 0) by (intros E; rewrite E in Hq; apply (Qlt_irrefl 0 Hq)).
  rewrite (round_to_nonzero prec emin q Hq0) in Hr |- *.
  set (e := ulp_exp prec emin q) in *.
  pose proof (pow2_pos e) as Pe.
  assert (Hk0 : (0 <= round_half_even (q / pow2 e))%Z).
  { apply round_half_even_ge. apply Qle_shift_div_l; [exact Pe|].
    change (inject_Z 0) with 0. rewrite Qmult_0_l. apply Qlt_le_weak. exact Hq. }
  assert (Hk : (1 <= round_half_even (q / pow2 e))%Z).
  { destruct (Z.eq_dec (round_half_even (q / pow2 e)) 0) as [E|E]; [|lia].
    exfalso. apply Hr. rewrite E. change (inject_Z 0) with 0. apply Qmult_0_l. }
  rewrite Zle_Qle in Hk. change (inject_Z 1) with 1 in Hk.
  apply Qle_trans with (pow2 e).
  - apply pow2_le. unfold e, ulp_exp. apply Z.le_max_r.
  - setoid_replace (pow2 e) with (1 * pow2 e) at 1 by ring.
    apply Qmult_le_compat_r; [exact Hk|apply Qlt_le_weak; exact Pe].
Qed.

Lemma binary64_positive (q : Q) :
  0 < q -> binary64 q <> Fnum 0 ->
  flt_leb (Fnum (pow2 (-1074))) (binary64 q) = true.
Proof.
  intros Hq Hn. unfold binary64 in *.
  pose proof (round_to_nonneg 53 (-1074) q (Qlt_le_weak _ _ Hq)) as H0.
  pose proof (pow2_pos 1024) as P.
  destruct (to_format_cases 53 (-1074) 1024 q) as [[E _]|[[E _]|[E Hr]]];
    rewrite E in Hn |- *.
  - cbn [flt_leb]. apply Qle_bool_iff. rewrite Qred_correct.
    apply round_to_min; [exact Hq|].
    intros Z0. apply Hn. f_equal. apply (Qred_complete _ 0 Z0).
  - reflexivity.
  - exfalso. revert Hr H0 P. generalize (pow2 1024) (round_to 53 (-1074) q).
    intros p r Hr H0 P. Lqa.lra.
Qed.

Lemma flt_leb_trans (a b d : flt) :
  flt_leb a b = true -> flt_leb b d = true -> flt_leb a d = true.
Proof.
  destruct a as [|[|]|x]; destruct b as [|[|]|y]; destruct d as [|[|]|z];
    cbn [flt_leb]; intros H1 H2; try reflexivity; try discriminate.
  apply Qle_bool_iff in H1, H2. apply Qle_bool_iff. Lqa.lra.
Qed.

(** X15. A configuration that passes the spatial Nyquist check still passes
    it after the spacing is reduced, the upper band edge is lowered (staying
    positive, and not so small that its binary64 value is zero) or the
    propagation speed is raised, for a non-negative speed: the rounded
    product, quotient and comparison of line 41 keep the order. *)
Theorem nyquist_check_monotone (self self' : SRP) :
  spatial_nyquist_check self = inr tt ->
  0 <= c self ->
  c self <= c self' ->
  d_inter self' <= d_inter self ->
  0 < f_high self' ->
  binary64 (f_high self') <> Fnum 0 ->
  f_high self' <= f_high self ->
  spatial_nyquist_check self' = inr tt.
Proof.
  intros Hok Hc Hcc Hd Hf0 Hfn Hff.
  destruct (nyquist_check_inv self Hok) as (B & HB & HBD).
  pose proof (binary64_mono _ _ Hd) as HD.
  pose proof (binary64_mono _ _ Hcc) as HCC.
  pose proof (binary64_mono _ _ Hc) as HC0. rewrite binary64_0 in HC0.
  pose proof (binary64_positive _ Hf0 Hfn) as HF'.
  pose proof (binary64_mono _ _ Hff) as HFF.
  assert (HF : flt_leb (Fnum (pow2 (-1074))) (binary64 (f_high self)) = true)
    by (apply (flt_leb_trans _ _ _ HF' HFF)).
  assert (HF0 : flt_leb (Fnum 0) (binary64 (f_high self')) = true).
  { rewrite <- binary64_0. apply binary64_mono. apply Qlt_le_weak. exact Hf0. }
  pose proof (py_double_mono _ _ HF0 HFF) as HTT.
  pose proof (py_double_pos _ HF) as HT.
  pose proof (py_double_pos _ HF') as HT'.
  unfold nyquist_bound in HB.
  set (D := binary64 (d_inter self)) in *. set (D' := binary64 (d_inter self')) in *.
  set (C := binary64 (c self)) in *. set (C' := binary64 (c self')) in *.
  set (T := py_mul (Fnum 2) (binary64 (f_high self))) in *.
  set (T' := py_mul (Fnum 2) (binary64 (f_high self'))) in *.
  assert (Goal' : forall B', py_div C' T' = inr B' -> flt_ltb B' D' = false ->
                             spatial_nyquist_check self' = inr tt).
  { intros B' H1 H2. apply (nyquist_passes self' B'); assumption. }
  assert (HC0' : flt_leb (Fnum 0) C' = true).
  { unfold C'. rewrite <- binary64_0. apply binary64_mono.
    apply Qle_trans with (c self); assumption. }
  destruct (flt_above_nonneg C' HC0') as [(c1 & EC' & Hc1)|EC'].
  2:{ (* the speed of [self'] is held as an infinity *)
    rewrite EC' in Goal'.
    destruct HT' as [(t' & ET' & Ht')|ET']; rewrite ET' in Goal'.
    - apply (Goal' (Finf false)); [rewrite (py_div_pos _ t' Ht'); reflexivity|].
      apply flt_ltb_inf.
    - apply (Goal' Fnan); reflexivity. }
  destruct (flt_above_nonneg C HC0) as [(c0 & EC & Hc0)|EC].
  2:{ rewrite EC, EC' in HCC. discriminate. }
  rewrite EC, EC' in HCC. cbn [flt_leb] in HCC. apply Qle_bool_iff in HCC.
  rewrite EC in HB. rewrite EC' in Goal'.
  destruct HT' as [(t' & ET' & Ht')|ET']; rewrite ET' in Goal', HTT.
  - destruct HT as [(t & ET & Ht)|ET]; rewrite ET in HB, HTT.
    + cbn [flt_leb] in HTT. apply Qle_bool_iff in HTT.
      rewrite (py_div_pos _ t Ht) in HB. inversion HB; subst B.
      apply (Goal' (binary64 (c1 / t'))); [rewrite (py_div_pos _ t' Ht'); reflexivity|].
      apply (flt_ltb_false_le_l (binary64 (c0 / t))).
      * apply binary64_mono. apply Qdiv_le_mono; assumption.
      * apply (flt_ltb_false_le_r _ D D' HD HBD).
    + cbn [py_div] in HB. inversion HB; subst B.
      apply (Goal' (binary64 (c1 / t'))); [rewrite (py_div_pos _ t' Ht'); reflexivity|].
      apply (flt_ltb_false_le_l (Fnum 0)).
      * rewrite <- binary64_0. apply binary64_mono.
        apply Qle_shift_div_l; [exact Ht'|]. rewrite Qmult_0_l. exact Hc1.
      * apply (flt_ltb_false_le_r _ D D' HD HBD).
  - destruct HT as [(t & ET & Ht)|ET]; rewrite ET in HB, HTT.
    + discriminate.
    + cbn [py_div] in HB. inversion HB; subst B.
      apply (Goal' (Fnum 0)); [reflexivity|].
      apply (flt_ltb_false_le_r _ D D' HD HBD).
Qed.

Lemma nyquist_check_monotone_witness :
  spatial_nyquist_check default_srp = inr tt.
Proof.
  apply (nyquist_check_monotone small_srp default_srp).
  - exact (proj1 small_config).
  - cbn. discriminate.
  - cbn. discriminate.
  - cbn. discriminate.
  - reflexivity.
  - unfold default_srp. cbn [f_high]. vm_compute. discriminate.
  - cbn. discriminate.
Defined.

(** An upper band edge of 2^-1080 is positive, and binary64 holds it as
    zero: line 41 then divides by zero, whatever the spacing. *)
Example tiny_f_high_divides_by_zero :
  let s := mkSRP (2 # 100) 343 8 4 (hann_sqrt 8) 16000 45 0 (pow2 (-1080)) in
  0 < f_high s
  /\ f_high s <= f_high small_srp
  /\ binary64 (f_high s) = Fnum 0
  /\ spatial_nyquist_check s = inl ZeroDivisionError.
Proof.
  cbv zeta. cbn [f_high]. split; [apply pow2_pos|]. split; [|split].
  - unfold small_srp. cbn [f_high]. vm_compute. discriminate.
  - vm_compute. reflexivity.
  - unfold spatial_nyquist_check, nyquist_bound. cbn [c f_high d_inter].
    vm_compute. reflexivity.
Qed.

(** ** The demo script: printed estimate and plotted marker *)

Lemma np_linspace_length (start stop : Q) (num : nat) :
  length (np_linspace start stop num) = num.
Proof.
  unfold np_linspace. destruct num as [|[|num]]; [reflexivity|reflexivity|].
  rewrite length_map, length_seq. reflexivity.
Qed.

(** The angles of the script's plot are the angles of the sweep. *)
Lemma np_linspace_grid (n : Z) (theta : list Q) (i : nat) :
  torch_linspace (-90) 90 n = inr theta ->
  (i < length theta)%nat ->
  nth i (np_linspace (-90) 90 (length theta)) 0 == nth i theta 0.
Proof.
  intros H Hi. pose proof (torch_linspace_length _ _ _ _ H) as Hlen.
  rewrite (torch_linspace_nth _ _ _ _ i H Hi).
  unfold np_linspace. destruct (length theta) as [|[|N]] eqn:EN; [lia| |].
  - assert (i = 0%nat) by lia. subst i. cbn [nth Z.of_nat].
    setoid_replace (inject_Z 0) with 0 by reflexivity. ring.
  - set (g := fun i : nat =>
                -90 + inject_Z (Z.of_nat i)
                      * ((90 - -90) / inject_Z (Z.of_nat (S (S N)) - 1))).
    rewrite (nth_indep _ 0 (g 0%nat)) by (rewrite length_map, length_seq; exact Hi).
    rewrite (map_nth g). rewrite seq_nth by exact Hi. unfold g. cbn [Nat.add].
    replace (Z.of_nat (S (S N))) with n by lia. reflexivity.
Qed.

Lemma default_srp_constructed :
  SRP_init (2 # 100) 343 512 256 512 16000 400 1000 (1 # 2) = inr default_srp.
Proof. reflexivity. Qed.

(** With the default resolution of half a degree the float32 angle of every
    index up to 360 is exactly [index / 2 - 90]. *)
Lemma default_index_angle (idx : nat) :
  (idx < 361)%nat ->
  flt_is (index_to_deg idx (1 # 2)) (inject_Z (Z.of_nat idx) * (1 # 2) - 90).
Proof.
  intros H.
  assert (Hall : forallb (fun i => match index_to_deg i (1 # 2) with
                                   | Fnum q => Qeq_bool q (inject_Z (Z.of_nat i) * (1 # 2) - 90)
                                   | _ => false
                                   end) (seq 0 361) = true)
    by (vm_compute; reflexivity).
  rewrite forallb_forall in Hall. specialize (Hall idx).
  assert (Hin : In idx (seq 0 361)) by (apply in_seq; lia).
  specialize (Hall Hin). destruct (index_to_deg idx (1 # 2)) as [| |q]; try discriminate.
  cbn [flt_is]. apply Qeq_bool_iff. exact Hall.
Qed.

Lemma marker_angle_on_grid (self : SRP) (sig_stft : tensor3) (f_analog : list Q)
    (doa : flt) (curve : list fval) :
  srp_ula self sig_stft f_analog = inr (doa, curve) ->
  exists theta idx marker,
    theta_grid self = inr theta
    /\ torch_argmax curve = inr idx
    /\ (idx < length theta)%nat
    /\ doa = index_to_deg idx (resolution self)
    /\ marker_angle curve = inr marker
    /\ marker == nth idx theta 0.
Proof.
  intros H. destruct (srp_ula_theta_grid _ _ _ _ _ H) as (theta & idx & Hg & Hl & Ha & Hi & Hd).
  destruct (theta_grid_inv self theta Hg) as (n & _ & Hlin & _).
  exists theta, idx. unfold marker_angle.
  assert (Hnp : np_argmax curve = inr idx).
  { destruct curve as [|v curve']; [discriminate|]. exact Ha. }
  rewrite Hnp. cbn [bind]. eexists. repeat (split; [eassumption|]).
  split; [reflexivity|]. rewrite <- Hl. apply (np_linspace_grid n theta idx Hlin Hi).
Qed.

(** X16. When the demo script goes through, it has built the default
    configuration with a spacing of 0.02 m, and the marker it draws at
    [theta_deg[max_index]] is at the angle it prints as the estimate: with
    the resolution of half a degree the float32 arithmetic of line 95 is
    exact.  That angle lies between -90 and 90 degrees. *)
Theorem demo_outputs_agree torch_stft linspace_f32 (sig : tensor2) (doa_est : flt)
    (marker : Q) :
  demo torch_stft linspace_f32 sig = inr (doa_est, marker) ->
  flt_is doa_est marker /\ -90 <= marker /\ marker <= 90.
Proof.
  unfold demo. rewrite default_srp_constructed. cbn [bind]. intros H.
  destruct (outcome (forward torch_stft linspace_f32 default_srp sig))
    as [e|[doa curve]] eqn:Hout; [discriminate|]. cbn [bind fst snd] in H.
  destruct (forward_inv _ _ _ _ _ _ Hout) as (_ & X' & f' & _ & Hs & _).
  destruct (marker_angle_on_grid _ _ _ _ _ Hs)
    as (theta & idx & m & Hg & _ & Hi & Hd & Hm & Hq).
  rewrite Hm in H. cbn [bind] in H. inversion H; subst doa_est marker. clear H.
  destruct (theta_grid_inv default_srp theta Hg) as (n & Hn & Hlin & HN).
  rewrite default_angle_count in Hn. inversion Hn; subst n. clear Hn.
  assert (Hidx : (idx < 361)%nat) by (rewrite HN in Hi; exact Hi).
  pose proof (default_index_angle idx Hidx) as Hang.
  change (resolution default_srp) with (1 # 2) in Hd. rewrite <- Hd in Hang.
  assert (Hval : m == inject_Z (Z.of_nat idx) * (1 # 2) - 90).
  { rewrite Hq, (theta_grid_nth 361 theta idx Hlin Hi).
    setoid_replace (180 / inject_Z (361 - 1)) with (1 # 2) by reflexivity. reflexivity. }
  split.
  - destruct doa as [| |q]; cbn [flt_is] in Hang |- *; try contradiction.
    rewrite Hang, Hval. reflexivity.
  - rewrite Hval.
    assert (H0 : 0 <= inject_Z (Z.of_nat idx)).
    { change 0 with (inject_Z 0). rewrite <- Zle_Qle. lia. }
    assert (H1 : inject_Z (Z.of_nat idx) <= 360).
    { change 360 with (inject_Z 360). rewrite <- Zle_Qle. lia. }
    split; Lqa.lra.
Qed.

Lemma demo_outputs_agree_witness :
  exists doa_est marker,
    demo silent_stft exact_linspace (silence 512 4) = inr (doa_est, marker)
    /\ flt_is doa_est marker.
Proof.
  assert (Hny : spatial_nyquist_check default_srp = inr tt).
  { unfold spatial_nyquist_check, nyquist_bound, default_srp. cbn [c f_high d_inter].
    vm_compute. reflexivity. }
  assert (HX : silent_stft default_srp (silence 512 4)
               = inr (mkT3 4 257 3 (fun _ _ _ => (0, 0)%R))).
  { unfold silent_stft, default_srp, hann_sqrt, silence.
    cbn [n_fft hop_length window rows cols].
    change (512 =? 1)%Z with false. cbv iota.
    rewrite length_map, length_seq. reflexivity. }
  destruct default_band as (f_raw & Hraw & Hlen & _).
  destruct (forward_runs silent_stft exact_linspace default_srp (silence 512 4) _ f_raw 361
              Hny HX Hraw) as (doa & curve & Hf & Hcl);
    [rewrite Hlen; reflexivity|exact default_angle_count|lia|].
  assert (Hout : outcome (forward silent_stft exact_linspace default_srp (silence 512 4))
                 = inr (doa, curve)) by (rewrite Hf; reflexivity).
  destruct (forward_inv _ _ _ _ _ _ Hout) as (_ & X' & f' & _ & Hs & _).
  destruct (marker_angle_on_grid _ _ _ _ _ Hs) as (theta & idx & m & _ & _ & _ & _ & Hm & _).
  assert (Hd : demo silent_stft exact_linspace (silence 512 4) = inr (doa, m)).
  { unfold demo. rewrite default_srp_constructed. cbn [bind]. rewrite Hout.
    cbn [bind fst snd]. rewrite Hm. reflexivity. }
  exists doa, m. split; [exact Hd|].
  apply (demo_outputs_agree silent_stft exact_linspace (silence 512 4) doa m Hd).
Defined.

(** ** Which error ends a run, and where *)

Lemma mask_length_mismatch torch_stft linspace_f32 (self : SRP) (x : tensor2)
    (X : tensor3) (f_raw : list Q) :
  torch_stft self x = inr X ->
  raw_axis linspace_f32 self = inr f_raw ->
  dim1 X <> length f_raw ->
  multi_channel_stft torch_stft linspace_f32 self x = inl TorchError.
Proof.
  intros HX Hraw Hbad. unfold multi_channel_stft. rewrite HX, Hraw. cbn [bind].
  unfold index_mask_dim1. rewrite length_map.
  destruct (Nat.eqb (length f_raw) (dim1 X)) eqn:E; [|reflexivity].
  apply Nat.eqb_eq in E. exfalso. apply Hbad. symmetry. exact E.
Qed.

Lemma srp_ula_zero_resolution (self : SRP) (sig_stft : tensor3) (f_analog : list Q) :
  resolution self == 0 -> srp_ula self sig_stft f_analog = inl ZeroDivisionError.
Proof.
  intros H. unfold srp_ula, angle_count. rewrite (binary64_zero _ H). reflexivity.
Qed.

Lemma srp_ula_empty_grid (self : SRP) (sig_stft : tensor3) (f_analog : list Q) (n : Z) :
  angle_count self = inr n -> (n <= 0)%Z ->
  srp_ula self sig_stft f_analog = inl TorchError.
Proof.
  intros Hn Hle. unfold srp_ula. rewrite Hn. cbn [bind].
  destruct (Z.eq_dec n 0) as [E0|E0].
  - rewrite E0. cbn [torch_linspace Z.ltb Z.eqb Z.compare Z.to_nat seq map bind].
    destruct (torch_linspace_ok 0 (inject_Z (Z.of_nat (dim0 sig_stft)) - 1)
                (Z.of_nat (dim0 sig_stft))) as (ramp & Hramp & _); [lia|].
    rewrite Hramp. cbn [bind].
    destruct (shapes_agree sig_stft f_analog); reflexivity.
  - unfold torch_linspace at 1.
    replace (n <? 0)%Z with true by (symmetry; apply Z.ltb_lt; lia). reflexivity.
Qed.

Lemma python_int_le_1 (q : Q) (n : Z) :
  q <= 1 -> python_int (Fnum q) = inr n -> (n <= 1)%Z.
Proof.
  intros H E. cbn [python_int] in E. inversion E; subst n. clear E.
  unfold Qle in H. cbn [Qnum Qden] in H.
  apply Z.quot_le_upper_bound; lia.
Qed.

(** With a negative resolution line 75 gives at most one angle. *)
Lemma negative_resolution_count (self : SRP) (n : Z) :
  resolution self < 0 -> angle_count self = inr n -> (n <= 1)%Z.
Proof.
  intros Hneg Hn. unfold angle_count in Hn.
  assert (HR : flt_leb (binary64 (resolution self)) (Fnum 0) = true).
  { rewrite <- binary64_0. apply binary64_mono. apply Qlt_le_weak. exact Hneg. }
  assert (Hq : forall q, flt_leb q (Fnum 0) = true -> q <> Fnan ->
                         python_int (py_add q (Fnum 1)) = inr n -> (n <= 1)%Z).
  { intros q Hq Hnan E.
    destruct (flt_below q 0 Hnan Hq) as [(q0 & Eq0 & Hq0)|Eq0]; subst q.
    - unfold py_add in E. cbn [flt_add] in E.
      assert (H1 : flt_leb (binary64 (q0 + 1)) (Fnum 1) = true).
      { rewrite <- binary64_1. apply binary64_mono. Lqa.lra. }
      destruct (flt_below _ 1 (binary64_not_nan _) H1) as [(s & Es & Hs)|Es];
        rewrite Es in E.
      + apply (python_int_le_1 s n Hs E).
      + discriminate.
    - discriminate. }
  destruct (flt_below _ 0 (binary64_not_nan _) HR) as [(r & Er & Hr)|Er];
    rewrite Er in Hn.
  - unfold py_div in Hn. destruct (Qeq_bool r 0) eqn:E0; [discriminate|].
    cbn [bind] in Hn. apply (Hq (binary64 (180 / r))); [|apply binary64_not_nan|exact Hn].
    rewrite <- binary64_0. apply binary64_mono.
    assert (Hr' : r < 0).
    { destruct (Qlt_le_dec r 0) as [L|L]; [exact L|].
      exfalso. assert (E : r == 0) by (apply Qle_antisym; assumption).
      apply Qeq_bool_iff in E. congruence. }
    assert (Hp : 0 <= 180 / - r).
    { apply Qle_shift_div_l; [Lqa.lra|]. rewrite Qmult_0_l. discriminate. }
    assert (Ediv : 180 / r == - (180 / - r)).
    { field. intros E. rewrite E in Hr'. apply (Qlt_irrefl 0 Hr'). }
    rewrite Ediv. Lqa.lra.
  - cbn [py_div bind] in Hn. apply (Hq (Fnum 0)); [reflexivity|discriminate|exact Hn].
Qed.

(** X17. A run with [f_high] equal to zero ends in the Nyquist stage with
    Python's [ZeroDivisionError].  After a passed check, a spectrum whose
    frequency dimension does not have as many bins as the raw axis ends the
    run in the transform stage with the error of the mask indexing.  A
    resolution of zero is only met in the sweep stage, after the transform
    has been computed, as a [ZeroDivisionError]; an angle count of zero or
    less ends the run there with a torch error; and a negative resolution
    gives an angle count of at most one. *)
Theorem forward_error_stages torch_stft linspace_f32 (self : SRP) (x : tensor2) :
  (f_high self == 0 ->
   forward torch_stft linspace_f32 self x = mkRun [NyquistCheck] (inl ZeroDivisionError))
  /\ (spatial_nyquist_check self = inr tt ->
      (forall X f_raw, torch_stft self x = inr X ->
         raw_axis linspace_f32 self = inr f_raw ->
         dim1 X <> length f_raw ->
         forward torch_stft linspace_f32 self x
         = mkRun [NyquistCheck; Transform] (inl TorchError))
      /\ (forall X' f', multi_channel_stft torch_stft linspace_f32 self x = inr (X', f') ->
            (resolution self == 0 ->
             forward torch_stft linspace_f32 self x
             = mkRun [NyquistCheck; Transform; Sweep] (inl ZeroDivisionError))
            /\ (forall n,
                  (q <- py_div (Fnum 180) (binary64 (resolution self)) ;;
                   python_int (py_add q (Fnum 1))) = inr n ->
                  ((n <= 0)%Z ->
                   forward torch_stft linspace_f32 self x
                   = mkRun [NyquistCheck; Transform; Sweep] (inl TorchError))
                  /\ (resolution self < 0 -> (n <= 1)%Z)))).
Proof.
  split.
  - intros H. unfold forward, spatial_nyquist_check, nyquist_bound.
    rewrite (binary64_zero _ H).
    replace (py_mul (Fnum 2) (Fnum 0)) with (Fnum 0) by reflexivity.
    unfold py_div. cbn [Qeq_bool Qnum Qden Z.mul Z.eqb bind call]. reflexivity.
  - intros Hny. split.
    + intros X f_raw HX Hraw Hbad. unfold forward. rewrite Hny. cbn [call].
      rewrite (mask_length_mismatch torch_stft linspace_f32 self x X f_raw HX Hraw Hbad).
      reflexivity.
    + intros X' f' Hm. split.
      * intros H0. unfold forward. rewrite Hny. cbn [call]. rewrite Hm. cbn [call fst snd].
        rewrite (srp_ula_zero_resolution self X' f' H0). reflexivity.
      * intros n Hn. split.
        -- intros Hle. unfold forward. rewrite Hny. cbn [call]. rewrite Hm.
           cbn [call fst snd].
           rewrite (srp_ula_empty_grid self X' f' n Hn Hle). reflexivity.
        -- intros Hneg. apply (negative_resolution_count self n Hneg Hn).
Qed.

Lemma forward_error_stages_witness :
  forward silent_stft exact_linspace zero_f_high_srp (silence 8 2)
    = mkRun [NyquistCheck] (inl ZeroDivisionError)
  /\ forward silent_stft exact_linspace zero_resolution_srp (silence 8 2)
     = mkRun [NyquistCheck; Transform; Sweep] (inl ZeroDivisionError).
Proof.
  split.
  - apply (proj1 (forward_error_stages silent_stft exact_linspace zero_f_high_srp
                    (silence 8 2))).
    reflexivity.
  - assert (Hny : spatial_nyquist_check zero_resolution_srp = inr tt).
    { unfold spatial_nyquist_check, nyquist_bound, zero_resolution_srp.
      cbn [c f_high d_inter]. vm_compute. reflexivity. }
    assert (Hm : exists X', multi_channel_stft silent_stft exact_linspace
                              zero_resolution_srp (silence 8 2) = inr (X', [2000; 4000])).
    { eexists. lazy. reflexivity. }
    destruct Hm as [X' Hm].
    apply (proj1 (proj2 (proj2 (forward_error_stages silent_stft exact_linspace
                                  zero_resolution_srp (silence 8 2)) Hny) X' _ Hm)).
    reflexivity.
Defined.

(** A resolution of -45 gives an angle count of -3, and the run ends in the
    sweep with the error of [torch.linspace]. *)
Example negative_resolution_run (self : SRP) :
  resolution self = -45 -> angle_count self = inr (-3)%Z.
Proof. intros H. unfold angle_count. rewrite H. vm_compute. reflexivity. Qed.

(** ** What the power does not see *)





(** ** Silence *)

Lemma beam_silence (self : SRP) (X : tensor3) (theta_deg f : Q) (k t : nat) :
  (forall m, (m < dim0 X)%nat -> at3 X m k t = (0, 0)%R) ->
  Cabs (beam self X theta_deg f k t) = 0%R.
Proof.
  intros H0. unfold beam.
  rewrite (map_ext_in _ (fun _ => (0, 0)%R)).
  - assert (Hz : forall l : list nat, Csum (map (fun _ => (0, 0)%R) l) = (0, 0)%R).
    { induction l as [|a l IH]; [reflexivity|]. cbn [map Csum fold_right].
      fold (Csum (map (fun _ : nat => (0, 0)%R) l)). rewrite IH. apply Cadd_0_r. }
    rewrite Hz. unfold Cabs. cbn [fst snd].
    replace (0 * 0 + 0 * 0)%R with 0%R by ring. apply sqrt_0.
  - intros m Hm. apply in_seq in Hm. rewrite H0 by lia.
    unfold Cmul. cbn [fst snd]. f_equal; ring.
Qed.

Lemma Rsum_zero (X : Type) (l : list X) : Rsum (map (fun _ => 0%R) l) = 0%R.
Proof.
  induction l as [|a l IH]; [reflexivity|]. cbn [map Rsum fold_right].
  fold (Rsum (map (fun _ : X => 0%R) l)). rewrite IH. ring.
Qed.

Lemma Rmean_zero (X : Type) (l : list X) : Rmean (map (fun _ => 0%R) l) = 0%R.
Proof. unfold Rmean. rewrite Rsum_zero. unfold Rdiv. ring. Qed.

(** X19. On an all-zero spectrum (a silent recording), with a non-zero
    propagation speed, aligned frequency dimensions, at least one frame and
    at least one retained bin, the power curve [srp_ula] returns is zero at
    every angle and the returned angle is that of index 0, the float32 value
    of [0 * resolution - 90]: -90 degrees for every resolution that float32
    holds as a number. *)
Theorem silence_estimate (self : SRP) (X : tensor3) (f_analog : list Q)
    (doa : flt) (curve : list fval) :
  ~ c self == 0 ->
  dim1 X = length f_analog ->
  (0 < dim2 X)%nat ->
  f_analog <> [] ->
  (forall m k t, (m < dim0 X)%nat -> (k < dim1 X)%nat -> (t < dim2 X)%nat ->
     at3 X m k t = (0, 0)%R) ->
  srp_ula self X f_analog = inr (doa, curve) ->
  (doa = flt_sub binary32
           (flt_mul binary32 (Fnum 0) (to_f32 (binary64 (resolution self))))
           (Fnum 90)
   /\ forall r, to_f32 (binary64 (resolution self)) = Fnum r -> doa = Fnum (-90))
  /\ curve = repeat (Fin 0) (length curve).
Proof.
  intros Hc Hdim HT Hne Hzero Hs.
  destruct (srp_ula_inv _ _ _ _ _ Hs) as (n & theta & ramp & Hn & Ht & Hramp & _ & Hagg).
  destruct (aggregate_inv _ _ _ _ _ _ Hagg) as (Hcurve & idx & Hidx & Hdoa).
  set (ts := map (fun q => sin (deg2rad (Q2R q))) theta) in *.
  assert (Hconst : curve = repeat (Fin 0) (length theta)).
  { destruct (sweep_shape self X f_analog ramp ts) as [HF _].
    rewrite Hcurve, (mean_dim0_entries _ (length f_analog) _ HF).
    rewrite <- (map_const_seq (Fin 0) 0 (length theta)).
    apply map_ext_in. intros j Hj. apply in_seq in Hj.
    rewrite (map_ext_in _ (fun _ => Fin 0)).
    - rewrite <- (map_map (fun _ : nat => 0%R) Fin).
      rewrite torch_mean_Fin, Rmean_zero; [reflexivity|].
      destruct f_analog; [congruence|]. cbn. discriminate.
    - intros k Hk. apply in_seq in Hk. unfold ts.
      rewrite (power_entry_finite self X theta f_analog ramp j k) by (try assumption; lia).
      f_equal.
      rewrite (map_ext_in _ (fun _ => 0%R)).
      + rewrite Rmean_zero. unfold Rsqr. ring.
      + intros t Ht'. apply in_seq in Ht'. apply beam_silence.
        intros m Hm. apply Hzero; lia. }
  assert (Hlen : length curve = length theta) by (rewrite Hconst, repeat_length; reflexivity).
  split.
  - rewrite Hconst in Hidx. destruct (length theta) as [|a]; [discriminate|].
    cbn [repeat torch_argmax] in Hidx. rewrite argmax_from_constant in Hidx.
    inversion Hidx; subst idx. rewrite Hdoa.
    split; [reflexivity|]. intros r Hr. apply (index_to_deg_0 _ r Hr).
  - rewrite Hlen. exact Hconst.
Qed.

Lemma silence_estimate_witness :
  exists doa curve,
    srp_ula small_srp silent_spectrum [2000; 4000] = inr (doa, curve)
    /\ doa = Fnum (-90)
    /\ curve = repeat (Fin 0) (length curve).
Proof.
  destruct (srp_ula_returns small_srp silent_spectrum [2000; 4000] 5
              small_angle_count eq_refl eq_refl)
    as (doa & curve & Hs & _).
  exists doa, curve. split; [exact Hs|].
  destruct (silence_estimate small_srp silent_spectrum [2000; 4000] doa curve)
    as [[_ Hd] Hc].
  - cbn. discriminate.
  - reflexivity.
  - cbn; lia.
  - discriminate.
  - intros m k t _ _ _. reflexivity.
  - exact Hs.
  - split; [|exact Hc]. apply (Hd 45). vm_compute. reflexivity.
Defined.
